(** * SSE demo: connection lifecycle manager, stream emitter and consumers

    A shallow embedding of the TypeScript sources of the repository, and
    the properties of its specification proved on it.

    Definitions:
    - [Lifecycle]: the provider component [SSEContextProvider] of the
      client hook ([connect], the open and error handlers of a transport,
      the visibility / online / pagehide / beforeunload handlers and the
      effect cleanup), as functions on an explicit provider state, with
      the runtime's stores of transports and timeouts.
    - [Js]: JavaScript numbers with NaN and the infinities, and the
      rounding of a fraction to binary64.
    - [Server]: the handler of [GET /v1/sse/connect] in [server.ts]
      ([parseLastEventId], [buildRequestDebug], [writeEvent], the
      heartbeat, repeat and event timers), as functions on the variables
      of one connection.
    - [Consumer]: [safeJsonParse] and the listeners of [TasksWidget] and
      [NotificationsWidget], in an exception monad.
    - [Retry]: observations on the retry timer and the visibility cycle
      of the provider.
    - [Subscription]: the effect with which a widget registers its
      listener, with [instanceId] in its dependencies or without, next to
      the provider.
    - [Stream]: observations on the frames of a stream, [pick] and the
      random amount of a task.
    - [Display]: the listeners of [ConnectionStatus], [BrowserDetails]
      and [BrokenWidget], and the tasks and notifications widgets with
      the render that follows each record.
    - [EndToEnd]: the payload of a record as the widgets parse it.

    Facts: [LifecycleFacts], [ServerFacts], [ConsumerFacts],
    [RetryFacts], [SubscriptionFacts], [StreamFacts], [DisplayFacts],
    [EndToEndFacts].

    Conventions.  A handler runs to completion (one event loop), so a
    handler is a function from state to state and the runtime is a set of
    triggers that fire handlers.  JavaScript numbers that only ever hold
    counters and timestamps of the program itself ([instanceId],
    [attemptCountRef], [sentBusinessEvents], [Date.now()]) are integers in
    [Z]; numbers that can be fractional or come from a request (the retry
    delay, a parsed header or query value, the record ids seeded from it)
    are rationals in [Q], with NaN and the infinities where they can
    arise.  The one addition on a number that comes from a request, the
    increment [++nextId] of the id counter, rounds to binary64
    ([Js.round64]); the retry delay is computed exactly, which is what
    binary64 gives for the attempt counters that occur.
    Runtime built-ins whose code is not part of the repository ([Number]
    on strings, [JSON.parse], the text of a number, what React and the
    built-ins make of one row of a widget) are section variables. *)

From Stdlib Require Import ZArith QArith Qminmax Qround Lia Lqa.
From stdpp Require Import base list gmap strings.

(** ** Connection lifecycle manager (client) *)

Module Lifecycle.

Local Open Scope Z_scope.

(** [EventSource.readyState]: 0, 1 and 2. *)
Inductive ReadyState := CONNECTING | OPEN | CLOSED.

#[global] Instance ReadyState_eq_dec : EqDecision ReadyState.
Proof. solve_decision. Defined.

(** A transport object.  [dispatched] counts the records the runtime has
    dispatched to the listeners of this object. *)
Record EventSource := {
  readyState : ReadyState;
  dispatched : nat
}.

(** A [window.setTimeout] entry: its delay, and whether it is still
    pending (neither fired nor cleared). *)
Record Timeout := {
  delay : Q;
  pending : bool
}.

(** The state and refs of [SSEContextProvider], together with the two
    stores of the runtime they point into: every [EventSource] created so
    far (a handle is an index into [sources]) and every timeout set so far
    (a timer id is an index into [timeouts]).  [beacons] counts the calls
    of [navigator.sendBeacon].  [instanceId] is the state as React holds
    it once the updates queued by [setInstanceId] are applied: the value
    a component reads when it next renders, not before.  The refs are
    read and written in place. *)
Record Provider := {
  instanceId : Z;
  eventSourceRef : option nat;
  retryTimerRef : option nat;
  attemptCountRef : Z;
  hiddenAtRef : option Z;
  backgroundThresholdRef : Z;
  sources : list EventSource;
  timeouts : list Timeout;
  beacons : nat
}.

Definition set_instanceId (v : Z) (s : Provider) : Provider :=
  Build_Provider v (eventSourceRef s) (retryTimerRef s) (attemptCountRef s)
    (hiddenAtRef s) (backgroundThresholdRef s) (sources s) (timeouts s) (beacons s).

Definition set_eventSourceRef (v : option nat) (s : Provider) : Provider :=
  Build_Provider (instanceId s) v (retryTimerRef s) (attemptCountRef s)
    (hiddenAtRef s) (backgroundThresholdRef s) (sources s) (timeouts s) (beacons s).

Definition set_retryTimerRef (v : option nat) (s : Provider) : Provider :=
  Build_Provider (instanceId s) (eventSourceRef s) v (attemptCountRef s)
    (hiddenAtRef s) (backgroundThresholdRef s) (sources s) (timeouts s) (beacons s).

Definition set_attemptCountRef (v : Z) (s : Provider) : Provider :=
  Build_Provider (instanceId s) (eventSourceRef s) (retryTimerRef s) v
    (hiddenAtRef s) (backgroundThresholdRef s) (sources s) (timeouts s) (beacons s).

Definition set_hiddenAtRef (v : option Z) (s : Provider) : Provider :=
  Build_Provider (instanceId s) (eventSourceRef s) (retryTimerRef s) (attemptCountRef s)
    v (backgroundThresholdRef s) (sources s) (timeouts s) (beacons s).

Definition set_sources (v : list EventSource) (s : Provider) : Provider :=
  Build_Provider (instanceId s) (eventSourceRef s) (retryTimerRef s) (attemptCountRef s)
    (hiddenAtRef s) (backgroundThresholdRef s) v (timeouts s) (beacons s).

Definition set_timeouts (v : list Timeout) (s : Provider) : Provider :=
  Build_Provider (instanceId s) (eventSourceRef s) (retryTimerRef s) (attemptCountRef s)
    (hiddenAtRef s) (backgroundThresholdRef s) (sources s) v (beacons s).

Definition set_beacons (v : nat) (s : Provider) : Provider :=
  Build_Provider (instanceId s) (eventSourceRef s) (retryTimerRef s) (attemptCountRef s)
    (hiddenAtRef s) (backgroundThresholdRef s) (sources s) (timeouts s) v.

(** The provider before its first effect has run: [useState(0)],
    [useRef(null)], [useRef(0)]. *)
Definition initial (backgroundThresholdMs : Z) : Provider :=
  {| instanceId := 0;
     eventSourceRef := None;
     retryTimerRef := None;
     attemptCountRef := 0;
     hiddenAtRef := None;
     backgroundThresholdRef := backgroundThresholdMs;
     sources := [];
     timeouts := [];
     beacons := 0 |}.

(** *** Runtime operations *)

(** [es.close()]. *)
Definition closeSource (e : EventSource) : EventSource :=
  {| readyState := CLOSED; dispatched := dispatched e |}.

Definition es_close (h : nat) (s : Provider) : Provider :=
  set_sources (alter closeSource h (sources s)) s.

(** [window.clearTimeout(t)]. *)
Definition cancel (t : Timeout) : Timeout :=
  {| delay := delay t; pending := false |}.

Definition clearTimeout (t : nat) (s : Provider) : Provider :=
  set_timeouts (alter cancel t (timeouts s)) s.

(** [window.setTimeout(cb, d)]: the new timer id and the new store. *)
Definition setTimeout (d : Q) (s : Provider) : nat * Provider :=
  (length (timeouts s),
   set_timeouts (timeouts s ++ [{| delay := d; pending := true |}]) s).

(** [new EventSourceCtor(url, ...)]: the new handle and the new store. *)
Definition newEventSource (s : Provider) : nat * Provider :=
  (length (sources s),
   set_sources (sources s ++ [{| readyState := CONNECTING; dispatched := 0 |}]) s).

(** [es.readyState], for a handle of the store. *)
Definition readyStateOf (h : nat) (s : Provider) : option ReadyState :=
  readyState <$> sources s !! h.

(** *** Helpers of the provider *)

Definition clearRetryTimer (s : Provider) : Provider :=
  match retryTimerRef s with
  | Some t => set_retryTimerRef None (clearTimeout t s)
  | None => s
  end.

Definition closeCurrent (s : Provider) : Provider :=
  match eventSourceRef s with
  | Some h => set_eventSourceRef None (es_close h s)
  | None => s
  end.

(** *** Connection lifecycle *)

(** [connect]: the transport is created, published to the ref, and the
    state update [id => id + 1] is handed to [setInstanceId], all in the
    one synchronous turn; the handlers [onopen] and [onerror] below are
    then installed on the new transport.  The ref shows the new handle
    at once; the new [instanceId] reaches a component with its next
    render (see [Subscription]).  The URL is built from the configuration
    alone and is not part of the state. *)
Definition connect (s : Provider) : Provider :=
  let s := closeCurrent s in
  let s := clearRetryTimer s in
  let s := set_attemptCountRef (attemptCountRef s + 1) s in
  let '(es, s) := newEventSource s in
  let s := set_eventSourceRef (Some es) s in
  set_instanceId (instanceId s + 1) s.

(** [es.onopen], the closure installed by [connect] on the transport. *)
Definition onopen (s : Provider) : Provider :=
  set_attemptCountRef 0 s.

(** The delay computed by [es.onerror]:
    [Math.min(30_000, 1000 * Math.pow(2, Math.min(attempt - 1, 5)))]. *)
Definition backoffDelay (attempt : Z) : Q :=
  Qmin 30000 (1000 * Qpower 2 (Z.min (attempt - 1) 5)).

(** [es.onerror], the closure installed by [connect] on the transport
    [es]; the timer callback is [connectRef.current()]. *)
Definition onerror (es : nat) (s : Provider) : Provider :=
  let s := es_close es s in
  let s := set_eventSourceRef None s in
  let attempt := attemptCountRef s in
  let d := backoffDelay attempt in
  let s := clearRetryTimer s in
  let '(t, s) := setTimeout d s in
  set_retryTimerRef (Some t) s.

(** *** Handlers registered by the lifecycle effect *)

Inductive Visibility := hidden | visible.

Definition isClosed (h : nat) (s : Provider) : bool :=
  bool_decide (readyStateOf h s = Some CLOSED).

Definition onVisibilityChange (v : Visibility) (now : Z) (s : Provider) : Provider :=
  match v with
  | hidden => set_hiddenAtRef (Some now) s
  | visible =>
      let es := eventSourceRef s in
      let hiddenAt := hiddenAtRef s in
      let s := set_hiddenAtRef None s in
      let missing := match es with None => true | Some h => isClosed h s end in
      if missing then connect (clearRetryTimer s)
      else
        match hiddenAt with
        | Some at_ =>
            let hiddenDuration := now - at_ in
            let threshold := backgroundThresholdRef s in
            if (threshold =? 0) || (threshold <? hiddenDuration)
            then connect (clearRetryTimer (closeCurrent s))
            else s
        | None => s
        end
  end.

Definition onOnline (s : Provider) : Provider :=
  connect (clearRetryTimer (closeCurrent s)).

Definition sendBeacon (s : Provider) : Provider :=
  set_beacons (S (beacons s)) s.

Definition onPageHide (persisted : bool) (s : Provider) : Provider :=
  if persisted then s else closeCurrent (sendBeacon s).

Definition onBeforeUnload (s : Provider) : Provider :=
  closeCurrent (sendBeacon s).

(** The lifecycle effect and its cleanup. *)
Definition mount (s : Provider) : Provider := connect s.

Definition unmount (s : Provider) : Provider :=
  closeCurrent (clearRetryTimer s).

(** *** What the runtime can do to the provider *)

Inductive Trigger :=
  | Mount
  | Unmount
  | TimerFired (t : nat)
  | Opened (es : nat)
  | Errored (es : nat)
  | Message (es : nat)
  | VisibilityChanged (v : Visibility) (now : Z)
  | Online
  | PageHide (persisted : bool)
  | BeforeUnload.

(** A timer fires only while pending; a transport reports open only while
    connecting, an error only while not closed, and dispatches records
    only while open.  The other triggers can arrive at any time. *)
Definition enabled (e : Trigger) (s : Provider) : bool :=
  match e with
  | TimerFired t => bool_decide (pending <$> timeouts s !! t = Some true)
  | Opened es => bool_decide (readyStateOf es s = Some CONNECTING)
  | Errored es =>
      bool_decide (is_Some (sources s !! es)) && negb (isClosed es s)
  | Message es => bool_decide (readyStateOf es s = Some OPEN)
  | _ => true
  end.

Definition markOpen (e : EventSource) : EventSource :=
  {| readyState := OPEN; dispatched := dispatched e |}.

Definition deliver (e : EventSource) : EventSource :=
  {| readyState := readyState e; dispatched := S (dispatched e) |}.

Definition fire (e : Trigger) (s : Provider) : Provider :=
  match e with
  | Mount => mount s
  | Unmount => unmount s
  | TimerFired t => connect (clearTimeout t s)
  | Opened es => onopen (set_sources (alter markOpen es (sources s)) s)
  | Errored es => onerror es s
  | Message es => set_sources (alter deliver es (sources s)) s
  | VisibilityChanged v now => onVisibilityChange v now s
  | Online => onOnline s
  | PageHide persisted => onPageHide persisted s
  | BeforeUnload => onBeforeUnload s
  end.

Inductive reachable : Provider → Prop :=
  | reachable_initial thr : reachable (initial thr)
  | reachable_fire s e : reachable s → enabled e s = true → reachable (fire e s).

(** Running a list of triggers; [None] when one of them is not enabled. *)
Fixpoint run (es : list Trigger) (s : Provider) : option Provider :=
  match es with
  | [] => Some s
  | e :: es => if enabled e s then run es (fire e s) else None
  end.

(** *** Observations used in the statements *)

(** The number of transport handles the provider holds. *)
Definition handlesHeld (s : Provider) : nat :=
  match eventSourceRef s with Some _ => 1 | None => 0 end.

(** The number of transports of the store that are not closed. *)
Definition liveTransports (s : Provider) : nat :=
  length (filter (λ e, readyState e ≠ CLOSED) (sources s)).

(** The delay of the timeout held in [retryTimerRef]. *)
Definition scheduledDelay (s : Provider) : option Q :=
  match retryTimerRef s with
  | Some t => delay <$> timeouts s !! t
  | None => None
  end.





(** *** The invariant of the provider *)

Definition allClosed (s : Provider) : Prop :=
  ∀ h e, sources s !! h = Some e → readyState e = CLOSED.

Definition nonePending (s : Provider) : Prop :=
  ∀ t x, timeouts s !! t = Some x → pending x = false.

(** - the generation counter counts the transports created so far;
    - the published handle, when there is one, is the transport created
      last;
    - a transport that is not closed is the published one;
    - a timeout that is still pending is the one in [retryTimerRef];
    - the attempt counter is not negative. *)
Record Inv (s : Provider) : Prop := {
  inv_generation : instanceId s = Z.of_nat (length (sources s));
  inv_latest : ∀ h, eventSourceRef s = Some h → S h = length (sources s);
  inv_live : ∀ h e,
    sources s !! h = Some e → readyState e ≠ CLOSED → eventSourceRef s = Some h;
  inv_timer : ∀ t x,
    timeouts s !! t = Some x → pending x = true → retryTimerRef s = Some t;
  inv_attempt : 0 ≤ attemptCountRef s
}.


(** *** Sample runs *)

(** Firing a list of triggers without looking at [enabled]. *)
Definition fireAll (es : list Trigger) (s : Provider) : Provider :=
  fold_left (λ s e, fire e s) es s.

(** A sample run that replaces the transport three times before the page
    goes away. *)
Definition sampleBusy : list Trigger :=
  [Mount; Opened 0; VisibilityChanged hidden 5;
   VisibilityChanged visible 20000; Errored 1; TimerFired 0;
   Online; PageHide false].

Definition afterBusy : Provider := fireAll sampleBusy (initial 10000).

End Lifecycle.

(** ** JavaScript numbers *)

Module Js.

(** A number is NaN, an infinity, or a finite value, held as a fraction
    (see the conventions at the top). *)
Inductive Number := NaN | Infinity (negative : bool) | Finite (q : Q).

(** *** Rounding to binary64 *)

(** [2^k], for any integer [k]. *)
Definition pow2 (k : Z) : Q :=
  match k with
  | Z0 => 1%Q
  | Zpos p => inject_Z (Zpos (2 ^ p))
  | Zneg p => (1 # (2 ^ p))%Q
  end.

(** The integer nearest to [m], the even one of the two when [m] lies
    half way between them. *)
Definition roundHalfEven (m : Q) : Z :=
  let f := Qfloor m in
  match (m - inject_Z f ?= 1 # 2)%Q with
  | Lt => f
  | Gt => (f + 1)%Z
  | Eq => if Z.even f then f else (f + 1)%Z
  end.

(** [floor (log2 a)], for a positive fraction [a] in lowest terms: the
    difference of the bit lengths of numerator and denominator, or one
    less. *)
Definition exponent (a : Q) : Z :=
  let e := (Z.log2 (Qnum a) - Z.log2 (Zpos (Qden a)))%Z in
  if Qle_bool (pow2 e) a then e else (e - 1)%Z.

(** The binary64 number nearest to the positive [a], ties to even: 53
    significant bits from the exponent -1022 on, multiples of 2^-1074
    below it, and the infinity when the rounded value reaches 2^1024. *)
Definition roundPositive (negative : bool) (a : Q) : Number :=
  let p := (Z.max (exponent a) (-1022) - 52)%Z in
  let r := (inject_Z (roundHalfEven (a * pow2 (- p))) * pow2 p)%Q in
  if Qle_bool (pow2 1024) r then Infinity negative
  else Finite (Qred (if negative then (- r)%Q else r)).

(** The binary64 number nearest to [q], in lowest terms (the two zeros
    are not told apart). *)
Definition round64 (q : Q) : Number :=
  let q := Qred q in
  match Qnum q with
  | Z0 => Finite 0
  | Zpos _ => roundPositive false q
  | Zneg _ => roundPositive true (- q)%Q
  end.

(** [Number.isFinite]. *)
Definition isFinite (n : Number) : bool :=
  match n with Finite _ => true | _ => false end.

(** [a < b], false as soon as one side is NaN. *)
Definition lt (a b : Number) : bool :=
  match a, b with
  | NaN, _ | _, NaN => false
  | Finite x, Finite y => negb (Qle_bool y x)
  | Finite _, Infinity neg => negb neg
  | Infinity neg, Finite _ => neg
  | Infinity n1, Infinity n2 => n1 && negb n2
  end.

(** [a <= b]. *)
Definition le (a b : Number) : bool :=
  match a, b with
  | NaN, _ | _, NaN => false
  | Finite x, Finite y => Qle_bool x y
  | Finite _, Infinity neg => negb neg
  | Infinity neg, Finite _ => neg
  | Infinity n1, Infinity n2 => n1 || negb n2
  end.

Definition gt (a b : Number) : bool := lt b a.
Definition ge (a b : Number) : bool := le b a.

(** [a + b]: the exact sum, rounded to binary64. *)
Definition add (a b : Number) : Number :=
  match a, b with
  | NaN, _ | _, NaN => NaN
  | Finite x, Finite y => round64 (x + y)
  | Finite _, Infinity neg | Infinity neg, Finite _ => Infinity neg
  | Infinity n1, Infinity n2 => if eqb n1 n2 then Infinity n1 else NaN
  end.

Definition ofZ (z : Z) : Number := Finite (inject_Z z).

End Js.

(** ** Stream emitter (server) *)

Module Server.

(** A value of [req.query]: a string, an array or a nested object. *)
#[local] Unset Elimination Schemes.
Inductive QueryValue :=
  | QString (s : string)
  | QArray (l : list QueryValue)
  | QObject (fields : list (string * QueryValue)).
#[local] Set Elimination Schemes.

(** The parts of an Express request the handler reads.  Header names are
    lower case, as Node delivers them. *)
Record Request := {
  headers : gmap string string;
  query : gmap string QueryValue;
  ip : option string;
  ips : list string;
  httpVersion : string;
  method : string;
  path : string
}.

(** The object [buildRequestDebug] returns (its fields carry a prefix
    here: [ip], [query], ... are fields of the request too). *)
Record RequestDebug := {
  dbg_host : option string;
  dbg_origin : option string;
  dbg_referer : option string;
  dbg_userAgent : option string;
  dbg_secChUa : option string;
  dbg_secChUaMobile : option string;
  dbg_secChUaPlatform : option string;
  dbg_secFetchDest : option string;
  dbg_secFetchMode : option string;
  dbg_secFetchSite : option string;
  dbg_accept : option string;
  dbg_acceptLanguage : option string;
  dbg_acceptEncoding : option string;
  dbg_cacheControl : option string;
  dbg_pragma : option string;
  dbg_connection : option string;
  dbg_dnt : option string;
  dbg_hasCookieHeader : bool;
  dbg_cookieBytes : nat;
  dbg_ip : option string;
  dbg_ips : list string;
  dbg_httpVersion : string;
  dbg_method : string;
  dbg_path : string;
  dbg_query : gmap string QueryValue
}.

Definition buildRequestDebug (req : Request) : RequestDebug :=
  let h := headers req in
  {| dbg_host := h !! "host";
     dbg_origin := h !! "origin";
     dbg_referer := h !! "referer";
     dbg_userAgent := h !! "user-agent";
     dbg_secChUa := h !! "sec-ch-ua";
     dbg_secChUaMobile := h !! "sec-ch-ua-mobile";
     dbg_secChUaPlatform := h !! "sec-ch-ua-platform";
     dbg_secFetchDest := h !! "sec-fetch-dest";
     dbg_secFetchMode := h !! "sec-fetch-mode";
     dbg_secFetchSite := h !! "sec-fetch-site";
     dbg_accept := h !! "accept";
     dbg_acceptLanguage := h !! "accept-language";
     dbg_acceptEncoding := h !! "accept-encoding";
     dbg_cacheControl := h !! "cache-control";
     dbg_pragma := h !! "pragma";
     dbg_connection := h !! "connection";
     dbg_dnt := h !! "dnt";
     dbg_hasCookieHeader :=
       match h !! "cookie" with
       | Some c => bool_decide (0 < String.length c)%nat
       | None => false
       end;
     dbg_cookieBytes :=
       match h !! "cookie" with
       | Some c => String.length c
       | None => 0%nat
       end;
     dbg_ip := ip req;
     dbg_ips := ips req;
     dbg_httpVersion := httpVersion req;
     dbg_method := method req;
     dbg_path := path req;
     dbg_query := query req |}.

(** [timestamps()], read from the clock. *)
Record Timestamps := {
  utcIso : string;
  localIso : string;
  tzOffsetMinutes : Z;
  epochMs : Z
}.

Inductive EventName := connected | task | notification.

Inductive Severity := INFO | WARN | CRITICAL.

(** The [data] argument of [writeEvent]; its [type] field is the
    constructor.  The repeated "connected" record has no [lastEventId]. *)
Inductive EventData :=
  | ConnectedData (lastEventId : option Js.Number)
      (clientLastEventId : Js.Number) (request : RequestDebug)
  | TaskData (taskId title : string) (amount : Z)
  | NotificationData (notificationId title : string) (severity : Severity).

(** What the handler writes to the response.  A [Record_] stands for the
    three consecutive writes of [writeEvent] (the [id], [event] and [data]
    lines), whose payload is [{ connectionId, ...data, ...timestamps() }]. *)
Inductive Frame :=
  | Padding
  | RetryHint (ms : Z)
  | Comment (text : string)
  | Record_ (id : Js.Number) (event : EventName)
      (connectionId : string) (data : EventData) (stamps : Timestamps).

(** The variables of one invocation of the handler.  [hb] is [None] for
    the [null] of a connection without heartbeat; a timer is [true] while
    it is set and has not been cleared (and, for the one-shot
    [connectedRepeat], has not fired). *)
Record Connection := {
  connectionId : string;
  clientLastEventId : Js.Number;
  nextId : Js.Number;
  requestDebug : RequestDebug;
  safeInterval : Js.Number;
  closeAfter : Js.Number;
  sentBusinessEvents : Z;
  connectedRepeat : bool;
  hb : option bool;
  timer : bool;
  writableEnded : bool;
  written : list Frame
}.

Definition set_nextId (v : Js.Number) (c : Connection) : Connection :=
  Build_Connection (connectionId c) (clientLastEventId c) v (requestDebug c)
    (safeInterval c) (closeAfter c) (sentBusinessEvents c) (connectedRepeat c)
    (hb c) (timer c) (writableEnded c) (written c).

Definition set_sentBusinessEvents (v : Z) (c : Connection) : Connection :=
  Build_Connection (connectionId c) (clientLastEventId c) (nextId c) (requestDebug c)
    (safeInterval c) (closeAfter c) v (connectedRepeat c)
    (hb c) (timer c) (writableEnded c) (written c).

Definition set_connectedRepeat (v : bool) (c : Connection) : Connection :=
  Build_Connection (connectionId c) (clientLastEventId c) (nextId c) (requestDebug c)
    (safeInterval c) (closeAfter c) (sentBusinessEvents c) v
    (hb c) (timer c) (writableEnded c) (written c).

Definition set_hb (v : option bool) (c : Connection) : Connection :=
  Build_Connection (connectionId c) (clientLastEventId c) (nextId c) (requestDebug c)
    (safeInterval c) (closeAfter c) (sentBusinessEvents c) (connectedRepeat c)
    v (timer c) (writableEnded c) (written c).

Definition set_timer (v : bool) (c : Connection) : Connection :=
  Build_Connection (connectionId c) (clientLastEventId c) (nextId c) (requestDebug c)
    (safeInterval c) (closeAfter c) (sentBusinessEvents c) (connectedRepeat c)
    (hb c) v (writableEnded c) (written c).

Definition set_writableEnded (v : bool) (c : Connection) : Connection :=
  Build_Connection (connectionId c) (clientLastEventId c) (nextId c) (requestDebug c)
    (safeInterval c) (closeAfter c) (sentBusinessEvents c) (connectedRepeat c)
    (hb c) (timer c) v (written c).

(** [res.write(chunk)]. *)
Definition res_write (f : Frame) (c : Connection) : Connection :=
  Build_Connection (connectionId c) (clientLastEventId c) (nextId c) (requestDebug c)
    (safeInterval c) (closeAfter c) (sentBusinessEvents c) (connectedRepeat c)
    (hb c) (timer c) (writableEnded c) (written c ++ [f]).

(** [res.end()]. *)
Definition res_end (c : Connection) : Connection := set_writableEnded true c.

(** [const id = ++nextId; res.write(...); return id]; the increment is
    an addition of binary64 numbers. *)
Definition writeEvent (event : EventName) (data : EventData) (now : Timestamps)
    (c : Connection) : Js.Number * Connection :=
  let id := Js.add (nextId c) (Js.ofZ 1) in
  let c := set_nextId id c in
  (id, res_write (Record_ id event (connectionId c) data now) c).

Definition writeComment (comment : string) (c : Connection) : Connection :=
  res_write (Comment comment) c.

(** [String(v)] for a query value. *)
Fixpoint jsToString (v : QueryValue) : string :=
  match v with
  | QString s => s
  | QArray l => String.concat "," (map jsToString l)
  | QObject _ => "[object Object]"
  end.

Section WithNumber.

(** [Number(s)] for a string [s]: a built-in of the runtime. *)
Variable Number_ : string → Js.Number.

(** [Number(v)] for a query value: an array goes through its string, and
    so does an object, whose string is no number. *)
Definition toNumber (v : QueryValue) : Js.Number :=
  match v with
  | QString s => Number_ s
  | QArray _ => Number_ (jsToString v)
  | QObject _ => Js.NaN
  end.

(** The constants [n1] and [n2] of [parseLastEventId]: the header and the
    query parameter as numbers, NaN when they are not strings. *)
Definition headerNumber (req : Request) : Js.Number :=
  match headers req !! "last-event-id" with
  | Some s => Number_ s
  | None => Js.NaN
  end.

Definition queryNumber (req : Request) : Js.Number :=
  match query req !! "lastEventId" with
  | Some (QString s) => Number_ s
  | _ => Js.NaN
  end.

Definition parseLastEventId (req : Request) : Js.Number :=
  let n1 := headerNumber req in
  let n2 := queryNumber req in
  if Js.isFinite n1 then n1
  else if Js.isFinite n2 then n2
  else Js.Finite 0.

(** The body of the handler of [GET /v1/sse/connect]: the connection as
    the handler leaves it, the padding, the retry hint and the first
    "connected" record written and the three timers set.  [cid] is the
    connection id drawn from the clock and the random generator, [now] the
    clock at the first record. *)
Definition accept (cid : string) (now : Timestamps) (req : Request) : Connection :=
  let clientLastEventId := parseLastEventId req in
  let requestDebug := buildRequestDebug req in
  let intervalMs :=
    match query req !! "intervalMs" with
    | Some v => toNumber v | None => Js.ofZ 4000 end in
  let closeAfter :=
    match query req !! "closeAfter" with
    | Some v => toNumber v | None => Js.ofZ 0 end in
  let heartbeatOn :=
    negb (String.eqb
            (match query req !! "heartbeat" with
             | Some v => jsToString v | None => "1" end) "0") in
  let safeInterval :=
    if Js.isFinite intervalMs && Js.gt intervalMs (Js.ofZ 0)
    then intervalMs else Js.ofZ 4000 in
  let c :=
    {| connectionId := cid;
       clientLastEventId := clientLastEventId;
       nextId := clientLastEventId;
       requestDebug := requestDebug;
       safeInterval := safeInterval;
       closeAfter := closeAfter;
       sentBusinessEvents := 0;
       connectedRepeat := true;
       hb := if heartbeatOn then Some true else None;
       timer := true;
       writableEnded := false;
       written := [Padding; RetryHint 3000] |} in
  snd (writeEvent connected
         (ConnectedData (Some clientLastEventId) clientLastEventId requestDebug)
         now c).

End WithNumber.

(** *** Timer callbacks *)

(** The random draws of one tick of the event timer: the coin, the random
    suffix of the identifier, the title produced by the picked template,
    [Math.floor(Math.random() * 20000)] and the picked severity. *)
Record Draw := {
  isTask : bool;
  suffix : string;
  title : string;
  roll : Z;
  severity : Severity
}.

(** The callback of [connectedRepeat]. *)
Definition onConnectedRepeat (now : Timestamps) (c : Connection) : Connection :=
  if negb (writableEnded c)
  then snd (writeEvent connected
              (ConnectedData None (clientLastEventId c) (requestDebug c)) now c)
  else c.

(** The callback of [hb]; [iso] is [new Date().toISOString()]. *)
Definition onHeartbeat (iso : string) (c : Connection) : Connection :=
  writeComment ("ping " +:+ iso) c.

(** [clearInterval(timer); if (hb) clearInterval(hb);]. *)
Definition clearIntervals (c : Connection) : Connection :=
  set_hb ((λ _, false) <$> hb c) (set_timer false c).

(** The callback of [timer]. *)
Definition onTimer (d : Draw) (now : Timestamps) (c : Connection) : Connection :=
  let c :=
    if isTask d
    then snd (writeEvent task
                (TaskData ("t-" +:+ suffix d) (title d) (roll d + 10)) now c)
    else snd (writeEvent notification
                (NotificationData ("n-" +:+ suffix d) (title d) (severity d)) now c) in
  let c := set_sentBusinessEvents (sentBusinessEvents c + 1) c in
  if Js.gt (closeAfter c) (Js.ofZ 0) &&
     Js.ge (Js.ofZ (sentBusinessEvents c)) (closeAfter c)
  then res_end (clearIntervals c)
  else c.

(** The listener of the request's [close] event. *)
Definition onClose (c : Connection) : Connection :=
  clearIntervals (set_connectedRepeat false c).

(** *** What the runtime can do to a connection *)

Inductive Trigger :=
  | RepeatFired (now : Timestamps)
  | HeartbeatFired (iso : string)
  | TimerFired (d : Draw) (now : Timestamps)
  | Closed.

(** A timer calls back only while it is set. *)
Definition enabled (e : Trigger) (c : Connection) : bool :=
  match e with
  | RepeatFired _ => connectedRepeat c
  | HeartbeatFired _ => bool_decide (hb c = Some true)
  | TimerFired _ _ => timer c
  | Closed => true
  end.

Definition fire (e : Trigger) (c : Connection) : Connection :=
  match e with
  | RepeatFired now => onConnectedRepeat now (set_connectedRepeat false c)
  | HeartbeatFired iso => onHeartbeat iso c
  | TimerFired d now => onTimer d now c
  | Closed => onClose c
  end.

Fixpoint run (es : list Trigger) (c : Connection) : option Connection :=
  match es with
  | [] => Some c
  | e :: es => if enabled e c then run es (fire e c) else None
  end.

(** *** Observations used in the statements *)

Definition isBusiness (f : Frame) : bool :=
  match f with
  | Record_ _ task _ _ _ | Record_ _ notification _ _ _ => true
  | _ => false
  end.

(** The application (task / notification) records written so far. *)
Definition businessRecords (c : Connection) : list Frame :=
  List.filter isBusiness (written c).

(** The ids written so far, in order. *)
Definition idOf (f : Frame) : option Js.Number :=
  match f with Record_ id _ _ _ _ => Some id | _ => None end.

Definition recordIds (c : Connection) : list Js.Number :=
  omap idOf (written c).

Definition isTimerFired (e : Trigger) : bool :=
  match e with TimerFired _ _ => true | _ => false end.

(** The number of ticks of the event timer in a run. *)
Definition ticks (es : list Trigger) : nat :=
  length (List.filter isTimerFired es).

Definition isClosed (e : Trigger) : bool :=
  match e with Closed => true | _ => false end.

(** The request snapshot a frame carries, for a "connected" record. *)
Definition snapshotOf (f : Frame) : option RequestDebug :=
  match f with
  | Record_ _ _ _ (ConnectedData _ _ r) _ => Some r
  | _ => None
  end.

(** The [lastEventId] field of a frame, which only the first "connected"
    record has, and its [clientLastEventId] field, which every
    "connected" record has. *)
Definition echoOf (f : Frame) : option Js.Number :=
  match f with
  | Record_ _ _ _ (ConnectedData (Some r) _ _) _ => Some r
  | _ => None
  end.

Definition clientEchoOf (f : Frame) : option Js.Number :=
  match f with
  | Record_ _ _ _ (ConnectedData _ r _) _ => Some r
  | _ => None
  end.

(** A frame without what depends on the resume point: the id of a record
    and the data of a "connected" record. *)
Inductive Shape :=
  | ShPadding
  | ShRetryHint (ms : Z)
  | ShComment (text : string)
  | ShRecord (event : EventName) (connectionId : string)
      (data : option EventData) (stamps : Timestamps).

Definition shape (f : Frame) : Shape :=
  match f with
  | Padding => ShPadding
  | RetryHint ms => ShRetryHint ms
  | Comment text => ShComment text
  | Record_ _ connected cid _ now => ShRecord connected cid None now
  | Record_ _ ev cid d now => ShRecord ev cid (Some d) now
  end.

(** *** Invariants and relations used in the statements *)

Local Open Scope Z_scope.

(** The first id a connection assigns. *)
Definition firstId (c : Connection) : option Js.Number := head (recordIds c).

(** [n] is the finite number [x]. *)
Definition isId (n : Js.Number) (x : Q) : Prop :=
  ∃ y, n = Js.Finite y ∧ (y == x)%Q.

(** The [k]-th number after [q]. *)
Definition nthId (q : Q) (k : nat) : Q := (q + inject_Z (Z.of_nat k))%Q.

(** The counter is the seed plus the number of ids written, and the id at
    position [i] (from 0) is the seed plus [i + 1]. *)
Record IdInv (q : Q) (c : Connection) : Prop := {
  id_next : isId (nextId c) (nthId q (length (recordIds c)));
  id_each : ∀ i id, recordIds c !! i = Some id → isId id (nthId q (S i))
}.

(** Two connections that differ at most in the resume point they were
    seeded with: the same timers, counters and flags, and the same frames
    up to ids and echoed values. *)
Definition sameSchedule (c1 c2 : Connection) : Prop :=
  connectionId c1 = connectionId c2 ∧
  safeInterval c1 = safeInterval c2 ∧
  closeAfter c1 = closeAfter c2 ∧
  sentBusinessEvents c1 = sentBusinessEvents c2 ∧
  connectedRepeat c1 = connectedRepeat c2 ∧
  hb c1 = hb c2 ∧
  timer c1 = timer c2 ∧
  writableEnded c1 = writableEnded c2 ∧
  map shape (written c1) = map shape (written c2).

(** What holds of a connection whose cap is the positive integer [N]. *)
Record CapInv (N : Z) (c : Connection) : Prop := {
  cap_closeAfter : closeAfter c = Js.ofZ N;
  cap_count : sentBusinessEvents c = Z.of_nat (length (businessRecords c));
  cap_bound : sentBusinessEvents c ≤ N;
  cap_timer : timer c = true → sentBusinessEvents c < N;
  cap_ended : writableEnded c = true ↔ sentBusinessEvents c = N;
  cap_quiet : writableEnded c = true → timer c = false ∧ hb c ≠ Some true;
  cap_last : writableEnded c = true →
             ∃ l f, written c = l ++ [f] ∧ isBusiness f = true
}.

(** *** A stand-in for [Number] in the examples *)

Fixpoint digitsValue (acc : Z) (s : string) : option Z :=
  match s with
  | EmptyString => Some acc
  | String a s =>
      let n := Z.of_nat (Ascii.nat_of_ascii a) in
      if (48 <=? n)%Z && (n <=? 57)%Z
      then digitsValue (10 * acc + (n - 48)) s
      else None
  end.

(** [Number] on the empty string and on strings of decimal digits, where
    it is 0 and the binary64 number nearest to the value of the digits.
    Every other string is answered with NaN here; the examples use this
    function on the empty string, on digit strings and on strings that
    [Number] maps to NaN. *)
Definition digitsNumber (s : string) : Js.Number :=
  match digitsValue 0 s with
  | Some z => Js.round64 (inject_Z z)
  | None => Js.NaN
  end.

(** Sample requests. *)
Definition sampleRequest (hs : list (string * string))
    (qs : list (string * QueryValue)) : Request :=
  {| headers := list_to_map hs;
     query := list_to_map qs;
     ip := Some "127.0.0.1";
     ips := [];
     httpVersion := "1.1";
     method := "GET";
     path := "/v1/sse/connect" |}.

Definition requestA : Request :=
  sampleRequest
    [("host", "localhost:3001"); ("last-event-id", "41"); ("cookie", "sid=AAAA")]
    [("lastEventId", QString "7"); ("closeAfter", QString "5");
     ("heartbeat", QString "0")].

Definition requestB : Request :=
  sampleRequest
    [("host", "localhost:3001"); ("last-event-id", "41"); ("cookie", "sid=BBBB")]
    [("lastEventId", QString "7"); ("closeAfter", QString "5");
     ("heartbeat", QString "0")].

Definition requestNoResume : Request :=
  sampleRequest [("host", "localhost:3001")] [].

Definition sampleStamps (ms : Z) : Timestamps :=
  {| utcIso := "2026-01-01T00:00:00.000Z";
     localIso := "Thu Jan 01 2026 00:00:00 GMT+0000";
     tzOffsetMinutes := 0;
     epochMs := ms |}.

Definition sampleDraw (coin : bool) : Draw :=
  {| isTask := coin;
     suffix := "k3x9q2ab";
     title := "Verify payee: Acme";
     roll := 1234;
     severity := WARN |}.

Definition fireAll (es : list Trigger) (c : Connection) : Connection :=
  fold_left (λ c e, fire e c) es c.

(** A connection for [requestA] (cap 5, no heartbeat): two ticks, the
    repeated "connected" record, three more ticks, the close event. *)
Definition sampleTicks : list Trigger :=
  [TimerFired (sampleDraw true) (sampleStamps 4000);
   TimerFired (sampleDraw false) (sampleStamps 8000);
   RepeatFired (sampleStamps 8001);
   TimerFired (sampleDraw false) (sampleStamps 12000);
   TimerFired (sampleDraw true) (sampleStamps 16000);
   TimerFired (sampleDraw true) (sampleStamps 20000);
   Closed].

Definition acceptedA : Connection :=
  accept digitsNumber "c-lx1-k3x9q2ab" (sampleStamps 0) requestA.

Definition afterTicks : Connection := fireAll sampleTicks acceptedA.

Definition acceptedNoResume : Connection :=
  accept digitsNumber "c-lx1-k3x9q2ab" (sampleStamps 0) requestNoResume.

(** A client that declares the resume point 2^53, and two ticks of the
    event timer on its connection. *)
Definition requestHuge : Request :=
  sampleRequest
    [("host", "localhost:3001"); ("last-event-id", "9007199254740992")] [].

Definition acceptedHuge : Connection :=
  accept digitsNumber "c-lx1-k3x9q2ab" (sampleStamps 0) requestHuge.

Definition hugeTicks : list Trigger :=
  [TimerFired (sampleDraw true) (sampleStamps 4000);
   TimerFired (sampleDraw false) (sampleStamps 8000)].

Definition afterHuge : Connection := fireAll hugeTicks acceptedHuge.

End Server.

(** ** Consumers (client) *)

Module Consumer.

Local Open Scope Z_scope.

(** What [JSON.parse] returns. *)
#[local] Unset Elimination Schemes.
Inductive Json :=
  | JNull
  | JBool (b : bool)
  | JNumber (q : Q)
  | JString (s : string)
  | JArray (items : list Json)
  | JObject (fields : list (string * Json)).
#[local] Set Elimination Schemes.

(** Evaluation either completes with a value or throws. *)
Inductive Exception := SyntaxError | TypeError.

Inductive Completion (A : Type) :=
  | Normal (a : A)
  | Throw (e : Exception).

Arguments Normal {A} a.
Arguments Throw {A} e.

#[global] Instance Completion_ret : MRet Completion := λ A a, Normal a.

#[global] Instance Completion_bind : MBind Completion := λ A B k m,
  match m with
  | Normal a => k a
  | Throw e => Throw e
  end.

(** [try { body } catch { handler }]. *)
Definition tryCatch {A} (body : Completion A) (handler : Completion A) : Completion A :=
  match body with
  | Normal a => Normal a
  | Throw _ => handler
  end.

(** [!v]. *)
Definition falsy (v : Json) : bool :=
  match v with
  | JNull => true
  | JBool b => negb b
  | JNumber q => Qeq_bool q 0
  | JString s => bool_decide (s = EmptyString)
  | JArray _ | JObject _ => false
  end.

(** The own property [key] of an object, as [JSON.parse] built it. *)
Fixpoint field (key : string) (fields : list (string * Json)) : option Json :=
  match fields with
  | [] => None
  | (k, v) :: fields => if String.eqb k key then Some v else field key fields
  end.

(** [v.type]: a [TypeError] on [null], [undefined] ([None]) on a value
    without that property. *)
Definition get_type (v : Json) : Completion (option Json) :=
  match v with
  | JNull => Throw TypeError
  | JObject fields => Normal (field "type" fields)
  | _ => Normal None
  end.

(** [t !== kind], for the value [t] of a property. *)
Definition differs (t : option Json) (kind : string) : bool :=
  match t with
  | Some (JString s) => negb (String.eqb s kind)
  | _ => true
  end.

(** The [useState] cells of a widget: the list shown (each entry the
    payload spread together with [receivedAt]), and the two counters. *)
Record Widget := {
  entries : list (Json * Z);
  eventCount : Z;
  errorCount : Z
}.

Definition emptyWidget : Widget :=
  {| entries := []; eventCount := 0; errorCount := 0 |}.

Section WithParse.

(** [JSON.parse(text)]: a built-in of the runtime; [None] when it throws
    a [SyntaxError]. *)
Variable JSON_parse : string → option Json.

Definition JSON_parse_ (text : string) : Completion Json :=
  match JSON_parse text with
  | Some v => Normal v
  | None => Throw SyntaxError
  end.

Definition safeJsonParse (data : string) : Completion Json :=
  tryCatch (JSON_parse_ data) (Normal JNull).

(** The listener [handler] of [TasksWidget] ([kind] is "task") and of
    [NotificationsWidget] ([kind] is "notification"), called with the
    [data] of the event; [now] is [Date.now()]. *)
Definition handler (kind : string) (evt_data : string) (now : Z) (w : Widget)
    : Completion Widget :=
  let receivedAt := now in
  data ← safeJsonParse evt_data;
  rejected ←
    (if falsy data then Normal true
     else t ← get_type data; Normal (differs t kind));
  if rejected : bool
  then Normal {| entries := entries w;
                 eventCount := eventCount w;
                 errorCount := errorCount w + 1 |}
  else Normal {| entries := take 20 ((data, receivedAt) :: entries w);
                 eventCount := eventCount w + 1;
                 errorCount := errorCount w |}.

Definition TasksWidget_handler := handler "task".

Definition NotificationsWidget_handler := handler "notification".

(** The runtime dispatching a sequence of events to the listener, each
    with the clock at its arrival; a listener that throws stops the
    sequence here. *)
Fixpoint dispatch (kind : string) (evts : list (string * Z)) (w : Widget)
    : Completion Widget :=
  match evts with
  | [] => Normal w
  | (d, now) :: evts => w ← handler kind d now w; dispatch kind evts w
  end.

(** Following the specification: the payload of a record whose data line
    is valid structured text with a type field that matches the
    subscribed kind. *)
Definition wellFormed (kind : string) (evt_data : string) : option Json :=
  match JSON_parse evt_data with
  | Some (JObject fields) =>
      match field "type" fields with
      | Some (JString s) =>
          if String.eqb s kind then Some (JObject fields) else None
      | _ => None
      end
  | _ => None
  end.

Definition isWellFormed (kind : string) (evt : string * Z) : bool :=
  bool_decide (is_Some (wellFormed kind evt.1)).

(** What the specification asks of the listener: a record that is not
    well formed is counted as an error, a well-formed one is counted and
    shown. *)
Definition counted (w : Widget) : Widget :=
  {| entries := entries w;
     eventCount := eventCount w;
     errorCount := errorCount w + 1 |}.

Definition shown (v : Json) (now : Z) (w : Widget) : Widget :=
  {| entries := take 20 ((v, now) :: entries w);
     eventCount := eventCount w + 1;
     errorCount := errorCount w |}.

Definition expected (kind : string) (w : Widget) (evt : string * Z) : Widget :=
  match wellFormed kind evt.1 with
  | Some v => shown v evt.2 w
  | None => counted w
  end.

Definition expectedAll (kind : string) (evts : list (string * Z)) (w : Widget)
    : Widget :=
  foldl (expected kind) w evts.

End WithParse.

(** *** A stand-in for [JSON.parse] in the examples *)

Definition quote : string := String (Ascii.ascii_of_nat 34) EmptyString.

(** The text of an object with the one property [type]. *)
Definition typedText (kind : string) : string :=
  "{" +:+ quote +:+ "type" +:+ quote +:+ ":" +:+ quote +:+ kind +:+ quote +:+ "}".

(** [JSON.parse] on the texts of the examples: [null], [0], the objects
    with the one property [type] for "task" and "notification"; the other
    text the examples use is no JSON text, and is answered with [None], as
    every text outside this table is here. *)
Definition tableParse (text : string) : option Json :=
  if String.eqb text "null" then Some JNull
  else if String.eqb text "0" then Some (JNumber 0)
  else if String.eqb text (typedText "task")
       then Some (JObject [("type"%string, JString "task")])
  else if String.eqb text (typedText "notification")
       then Some (JObject [("type"%string, JString "notification")])
  else None.

(** A valid record, three records the listener has to reject, a valid
    record. *)
Definition sampleEvents : list (string * Z) :=
  [(typedText "task", 1000);
   ("{oops"%string, 1001);
   (typedText "notification", 1002);
   ("null"%string, 1003);
   (typedText "task", 1004)].

End Consumer.

(** ** Retry timers and visibility (client) *)

Module Retry.
Import Lifecycle.

Local Open Scope Z_scope.

(** The number of timeouts of the store that are still pending. *)
Definition pendingTimeouts (s : Provider) : nat :=
  length (filter (λ t, pending t = true) (timeouts s)).

(** While [retryTimerRef] holds a timer, no transport is held, the timer
    is pending, and its delay is the one [es.onerror] computes from the
    current attempt counter. *)
Definition retryInv (s : Provider) : Prop :=
  ∀ t, retryTimerRef s = Some t →
    eventSourceRef s = None ∧
    timeouts s !! t =
    Some {| delay := backoffDelay (attemptCountRef s); pending := true |}.

(** The page goes to the background at [t1] and comes back at [t2]. *)
Definition backgrounded (t1 t2 : Z) (s : Provider) : Provider :=
  fire (VisibilityChanged visible t2) (fire (VisibilityChanged hidden t1) s).

(** Whether the provider holds a transport that is not closed. *)
Definition holdsLive (s : Provider) : bool :=
  match eventSourceRef s with
  | Some h => negb (isClosed h s)
  | None => false
  end.

(** A provider with the default threshold of ten seconds whose first
    transport has opened, and the same after an error of that transport. *)
Definition mountedDefault : Provider :=
  fire (Opened 0) (fire Mount (initial 10000)).

Definition afterError : Provider := fire (Errored 0) mountedDefault.

(** Whether a trigger is the page going away for good. *)
Definition isUnload (e : Trigger) : bool :=
  match e with
  | PageHide persisted => negb persisted
  | BeforeUnload => true
  | _ => false
  end.

(** The triggers that call [connect] unconditionally. *)
Definition isReconnect (e : Trigger) : bool :=
  match e with
  | Mount | TimerFired _ | Online => true
  | _ => false
  end.

End Retry.

(** ** Consumer effects (client) *)

(** The effect every widget registers its listener with:

      useEffect(() => {
        const es = esRef.current;
        if (!es) return;
        es.addEventListener(name, handler);
        return () => es.removeEventListener(name, handler);
      }, deps);

    with [deps] either [[instanceId]] ([TasksWidget],
    [NotificationsWidget], [ConnectionStatus], [BrowserDetails]) or [[]]
    ([BrokenWidget]).  The renderer is modelled by two steps that can
    happen between any two turns of the provider: the component renders
    (it reads [instanceId]), and the effect of the last render is flushed
    (its cleanup and body run when it is the first flush or the
    dependencies differ from those of the effect that ran last). *)

Module Subscription.
Import Lifecycle.

Local Open Scope Z_scope.

(** One widget: whether its effect depends on [instanceId]; the
    [instanceId] its last render read; the [instanceId] of the render
    whose effect ran last; the transport its listener is registered on
    (the [es] captured by the cleanup closure); and the number of records
    its handler was called with. *)
Record Consumer := {
  followsGeneration : bool;
  rendered : option Z;
  ran : option Z;
  boundTo : option nat;
  received : nat
}.

Record App := {
  provider : Provider;
  consumer : Consumer
}.

Definition start (follows : bool) (backgroundThresholdMs : Z) : App :=
  {| provider := initial backgroundThresholdMs;
     consumer := {| followsGeneration := follows; rendered := None;
                    ran := None; boundTo := None; received := 0 |} |}.

(** The component function runs: [const { esRef, instanceId } = useSSE()]. *)
Definition render (s : Provider) (c : Consumer) : Consumer :=
  {| followsGeneration := followsGeneration c;
     rendered := Some (instanceId s);
     ran := ran c;
     boundTo := boundTo c;
     received := received c |}.

(** Whether the effect of the last render has to run: always the first
    time, later only when [deps] holds [instanceId] and its value differs
    from the one of the effect that ran last. *)
Definition depsChanged (c : Consumer) : bool :=
  match ran c with
  | None => true
  | Some g => followsGeneration c && negb (bool_decide (rendered c = Some g))
  end.

(** The cleanup of the previous effect (the listener is removed from the
    transport it was registered on) followed by the body of the effect
    (the listener is registered on [esRef.current], unless that is null). *)
Definition effect (s : Provider) (c : Consumer) : Consumer :=
  if depsChanged c
  then {| followsGeneration := followsGeneration c;
          rendered := rendered c;
          ran := rendered c;
          boundTo := eventSourceRef s;
          received := received c |}
  else c.

(** The handler is called for a record dispatched on the transport it is
    registered on. *)
Definition handle (es : nat) (c : Consumer) : Consumer :=
  if bool_decide (boundTo c = Some es)
  then {| followsGeneration := followsGeneration c;
          rendered := rendered c;
          ran := ran c;
          boundTo := boundTo c;
          received := S (received c) |}
  else c.

Inductive Step :=
  | Runtime (e : Trigger)
  | Render
  | Effect.

(** An effect is flushed only after a render. *)
Definition ready (st : Step) (a : App) : bool :=
  match st with
  | Runtime e => Lifecycle.enabled e (provider a)
  | Render => true
  | Effect => bool_decide (is_Some (rendered (consumer a)))
  end.

Definition step (st : Step) (a : App) : App :=
  match st with
  | Runtime (Message es) =>
      {| provider := Lifecycle.fire (Message es) (provider a);
         consumer := handle es (consumer a) |}
  | Runtime e =>
      {| provider := Lifecycle.fire e (provider a); consumer := consumer a |}
  | Render =>
      {| provider := provider a; consumer := render (provider a) (consumer a) |}
  | Effect =>
      {| provider := provider a; consumer := effect (provider a) (consumer a) |}
  end.

Inductive reachableApp : App → Prop :=
  | reachableApp_start follows thr : reachableApp (start follows thr)
  | reachableApp_step a st : reachableApp a → ready st a = true → reachableApp (step st a).

Fixpoint steps (sts : list Step) (a : App) : option App :=
  match sts with
  | [] => Some a
  | st :: sts => if ready st a then steps sts (step st a) else None
  end.

(** Whether the listener is registered on the transport created last. *)
Definition onLatest (a : App) : bool :=
  match boundTo (consumer a) with
  | Some h => bool_decide (S h = length (sources (provider a)))
  | None => false
  end.

(** What holds of a widget at every reachable state: the renders and
    effects it has seen are not ahead of the provider, its listener is on
    a transport that exists, and when its effect ran for the current
    generation, its listener is on the published transport. *)
Record ConsumerInv (a : App) : Prop := {
  ci_provider : Inv (provider a);
  ci_rendered : ∀ r, rendered (consumer a) = Some r → r ≤ instanceId (provider a);
  ci_ran : ∀ g, ran (consumer a) = Some g → g ≤ instanceId (provider a);
  ci_exists : ∀ h, boundTo (consumer a) = Some h →
                   (h < length (sources (provider a)))%nat;
  ci_current : ∀ h, ran (consumer a) = Some (instanceId (provider a)) →
                    eventSourceRef (provider a) = Some h →
                    boundTo (consumer a) = Some h
}.

(** A widget whose effect will not run again and whose listener is not on
    the transport created last stays that way, and receives nothing. *)
Definition stranded (a : App) : Prop :=
  followsGeneration (consumer a) = false ∧ is_Some (ran (consumer a)) ∧
  onLatest a = false.

(** Sample runs: a widget whose effect runs after the first [connect],
    one record, a reconnect, the new transport opens and delivers a
    record, the widget renders again and its effect is flushed, one more
    record. *)
Definition sampleBefore : list Step :=
  [Runtime Mount; Render; Effect; Runtime (Opened 0); Runtime (Message 0)].

Definition sampleAfter : list Step :=
  [Runtime (Opened 1); Runtime (Message 1); Render; Effect; Runtime (Message 1)].

Definition stepAll (sts : list Step) (a : App) : App :=
  fold_left (λ a st, step st a) sts a.

Definition boundBroken : App := stepAll sampleBefore (start false 10000).

(** The generation of a transport: the value [instanceId] takes with the
    [connect] that creates it. *)
Definition generationOf (h : nat) : Z := Z.of_nat h + 1.

(** A reconnect after a widget has rendered and before the effect of
    that render is flushed; and a reconnect after the flush. *)
Definition sampleLate : list Step :=
  [Runtime Mount; Render; Runtime Online; Effect].

Definition lateEffect : App := stepAll sampleLate (start true 10000).

Definition sampleStale : list Step :=
  [Runtime Mount; Render; Effect; Runtime Online].

Definition staleRender : App := stepAll sampleStale (start true 10000).

Definition boundConformant : App := stepAll sampleBefore (start true 10000).

Definition reconnectedBroken : App := step (Runtime Online) boundBroken.

Definition reconnectedConformant : App := step (Runtime Online) boundConformant.

Definition finalBroken : App := stepAll sampleAfter reconnectedBroken.

Definition finalConformant : App := stepAll sampleAfter reconnectedConformant.

End Subscription.

(** ** What a stream contains (server) *)

Module Stream.
Import Server.

Local Open Scope Z_scope.

Definition isComment (f : Frame) : bool :=
  match f with Comment _ => true | _ => false end.

(** The heartbeat comments written so far. *)
Definition comments (c : Connection) : list Frame :=
  List.filter isComment (written c).

Definition isHeartbeatFired (e : Trigger) : bool :=
  match e with HeartbeatFired _ => true | _ => false end.

(** The number of ticks of the heartbeat timer in a run. *)
Definition beats (es : list Trigger) : nat :=
  length (List.filter isHeartbeatFired es).

Definition isConnectedRecord (f : Frame) : bool :=
  match f with Record_ _ connected _ _ _ => true | _ => false end.

(** The "connected" records written so far. *)
Definition connectedRecords (c : Connection) : list Frame :=
  List.filter isConnectedRecord (written c).

(** The [type] field of the data handed to [writeEvent]. *)
Definition typeOf (d : EventData) : EventName :=
  match d with
  | ConnectedData _ _ _ => connected
  | TaskData _ _ _ => task
  | NotificationData _ _ _ => notification
  end.

(** A record carries the connection id [cid] and is written under the
    event name that its [type] field holds. *)
Definition wellLabelled (cid : string) (f : Frame) : Prop :=
  match f with
  | Record_ _ ev cid' d _ => cid' = cid ∧ ev = typeOf d
  | _ => True
  end.

(** A "connected" record carries the snapshot [r] of the request. *)
Definition carriesSnapshot (r : RequestDebug) (f : Frame) : Prop :=
  ∀ r', snapshotOf f = Some r' → r' = r.

(** What holds of the frames of a connection with id [cid] and snapshot
    [r] after the triggers [es]. *)
Record FrameInv (cid : string) (r : RequestDebug) (es : list Trigger)
    (c : Connection) : Prop := {
  fi_cid : connectionId c = cid;
  fi_request : requestDebug c = r;
  fi_labelled : Forall (wellLabelled cid) (written c);
  fi_snapshot : Forall (carriesSnapshot r) (written c);
  fi_comments : length (comments c) = beats es;
  fi_connected :
    (length (connectedRecords c) + (if connectedRepeat c then 1 else 0) ≤ 2)%nat;
  fi_first : (1 ≤ length (connectedRecords c))%nat
}.

(** [heartbeatOn] of the handler: [String(req.query.heartbeat ?? "1") !== "0"]. *)
Definition heartbeatOn (req : Request) : bool :=
  negb (String.eqb
          (match query req !! "heartbeat" with
           | Some v => jsToString v | None => "1" end) "0").

(** The cap is in force: [closeAfter > 0]. *)
Definition capped (c : Connection) : bool := Js.gt (closeAfter c) (Js.ofZ 0).

(** What holds of a connection without a cap. *)
Record OpenInv (c : Connection) : Prop := {
  open_cap : capped c = false;
  open_ended : writableEnded c = false;
  open_count : sentBusinessEvents c = Z.of_nat (length (businessRecords c))
}.

(** The timers of a connection are all off. *)
Definition quiet (c : Connection) : Prop :=
  connectedRepeat c = false ∧ timer c = false ∧ hb c ≠ Some true.

(** [pick]: [a[Math.floor(Math.random() * a.length)]], for the value
    [random] of [Math.random()]; [None] is [undefined]. *)
Definition pick {A} (a : list A) (random : Q) : option A :=
  a !! Z.to_nat (Qfloor (random * inject_Z (Z.of_nat (length a)))).

(** The [amount] of a task: [Math.floor(Math.random() * 20000) + 10]. *)
Definition amountOf (random : Q) : Z := Qfloor (random * 20000) + 10.

(** A connection with heartbeats and without cap: a heartbeat, a tick,
    the repeated "connected" record, a heartbeat, the close event. *)
Definition sampleBeats : list Trigger :=
  [HeartbeatFired "2026-01-01T00:00:20.000Z";
   TimerFired (sampleDraw true) (sampleStamps 4000);
   RepeatFired (sampleStamps 4001);
   HeartbeatFired "2026-01-01T00:00:40.000Z";
   Closed].

Definition afterBeats : Connection := fireAll sampleBeats acceptedNoResume.

Definition severities : list Severity := [INFO; WARN; CRITICAL].

End Stream.

(** ** What the widgets display (client) *)

Module Display.
Import Consumer.

Local Open Scope Z_scope.

(** [v?.type]: [undefined] on [null] and on a value without that
    property; never throws. *)
Definition optType (v : Json) : option Json :=
  match v with
  | JObject fields => field "type" fields
  | _ => None
  end.

(** [v.connectionId] and [v.request], for a [v] that is not [null]. *)
Definition prop (key : string) (v : Json) : option Json :=
  match v with
  | JObject fields => field key fields
  | _ => None
  end.

(** The [useState] cells of [ConnectionStatus] that its "connected"
    listener writes; [lastEventAt] holds the clock value handed to
    [formatTimeMs]. *)
Record Status := {
  serverConnectionId : option Json;
  lastEventAt : option Z
}.

(** The entries of [BrokenWidget]: the text of the [type] of the payload
    and the clock value of the label. *)
Definition Label : Type := string * Z.

(** What is left of a widget: its state while the tree is mounted, or
    nothing once a render has thrown (there is no error boundary, so the
    whole tree is unmounted and its listeners are removed). *)
Inductive Tree (A : Type) :=
  | Mounted (a : A)
  | Unmounted.

Arguments Mounted {A} a.
Arguments Unmounted {A}.

(** Whether [t.amount.toLocaleString()] gets as far as the call: not on
    a row without [amount], nor on one whose [amount] is [null]. *)
Definition hasAmount (t : Json) : bool :=
  match prop "amount" t with
  | None | Some JNull => false
  | Some _ => true
  end.

Section WithParse.

Variable JSON_parse : string → option Json.

(** The well-formed records of a sequence, oldest first, each with the
    clock at its arrival. *)
Definition accepted (kind : string) (evts : list (string * Z)) : list (Json * Z) :=
  omap (λ evt, (λ v, (v, evt.2)) <$> wellFormed JSON_parse kind evt.1) evts.

(** The listener [onConnected] of [ConnectionStatus]. *)
Definition onConnected (evt_data : string) (now : Z) (st : Status)
    : Completion Status :=
  data ← safeJsonParse JSON_parse evt_data;
  if differs (optType data) "connected"
  then Normal st
  else Normal {| serverConnectionId := prop "connectionId" data;
                 lastEventAt := Some now |}.

(** The listener of [BrowserDetails]; the state is the snapshot shown. *)
Definition BrowserDetails_handler (evt_data : string) (request : option Json)
    : Completion (option Json) :=
  data ← safeJsonParse JSON_parse evt_data;
  if differs (optType data) "connected"
  then Normal request
  else
    match prop "request" data with
    | Some r => if falsy r then Normal request else Normal (Some r)
    | None => Normal request
    end.

(** The [type] of every record that parses to something truthy, whatever
    it is, with the clock at its arrival. *)
Definition truthy (evts : list (string * Z)) : list (option Json * Z) :=
  omap (λ evt, match JSON_parse evt.1 with
               | Some v => if falsy v then None else Some (optType v, evt.2)
               | None => None
               end) evts.

(** What a tasks or notifications widget holds after the records [evts],
    in closed form: the newest twenty well-formed payloads, newest first,
    their number, and the number of the other records. *)
Definition closedForm (kind : string) (evts : list (string * Z)) : Widget :=
  {| entries := take 20 (reverse (accepted kind evts));
     eventCount := Z.of_nat (length (accepted kind evts));
     errorCount := Z.of_nat (length evts) - Z.of_nat (length (accepted kind evts)) |}.

(** Whether no record is left after the current one. *)
Definition isLast (evts : list (string * Z)) : bool :=
  match evts with [] => true | _ => false end.

(** A widget under a sequence of records.  The listener is called with
    each record and queues its state updates; React then renders the
    widget, at once or, when it batches, together with the updates of
    later records: [flushed n] tells whether a render follows the [n]-th
    record, and one always follows the last.  [renders] tells whether the
    JSX of the widget is rendered for a list without an exception; the
    first render that throws unmounts the tree.  (An exception in a
    listener would be reported by the runtime and leave the widget as it
    is.)  [n] is the number of the first record of [evts]. *)
Fixpoint deliver (renders : list (Json * Z) → bool) (flushed : nat → bool)
    (kind : string) (n : nat) (evts : list (string * Z)) (w : Widget)
    : Tree Widget :=
  match evts with
  | [] => Mounted w
  | (d, now) :: evts =>
      match handler JSON_parse kind d now w with
      | Normal w' =>
          if (flushed n || isLast evts) && negb (renders (entries w'))
          then Unmounted
          else deliver renders flushed kind (S n) evts w'
      | Throw _ => deliver renders flushed kind (S n) evts w
      end
  end.

(** Whether every render that happens under the records [evts]
    succeeds. *)
Definition rendersAll (renders : list (Json * Z) → bool) (flushed : nat → bool)
    (kind : string) (evts : list (string * Z)) : bool :=
  forallb (λ n, negb (flushed n || (n =? length evts)%nat)
                || renders (entries (closedForm kind (take n evts))))
          (seq 1 (length evts)).

End WithParse.

Section WithRuntime.

Variable JSON_parse : string → option Json.

(** [Number::toString], a built-in of the runtime. *)
Variable numberText : Q → string.

(** What React and the built-ins make of one row of a widget, the
    dereference of [amount] apart, which is written out below: whether the
    other expressions of the row evaluate ([t.receivedAt - t.epochMs],
    [formatTimeMs], the call of [toLocaleString] on an [amount] that is
    there, the conversion of the key) and React accepts the children. *)
Variable rowRenders : string → Json * Z → bool.

(** [tasks.map(...)] of [TasksWidget], as far as it can throw. *)
Definition TasksWidget_renders (tasks : list (Json * Z)) : bool :=
  forallb (λ t, hasAmount t.1 && rowRenders "task" t) tasks.

(** The conversion to a string that a template literal applies, for a
    value built by [JSON.parse].  An array joins the texts of its
    elements, [null] counting as the empty text.  An object goes through
    [toString] and [valueOf]: with an own property [toString], which
    cannot be a function here, neither yields a primitive and the
    conversion throws a [TypeError]; without one,
    [Object.prototype.toString] answers.  [None] stands for the
    [TypeError]. *)
Fixpoint toText (v : Json) : option string :=
  match v with
  | JNull => Some "null"%string
  | JBool b => Some (if b then "true" else "false")%string
  | JNumber q => Some (numberText q)
  | JString s => Some s
  | JArray items =>
      parts ←
        (fix each (l : list Json) : option (list string) :=
           match l with
           | [] => Some []
           | x :: l =>
               s ← match x with
                   | JNull => Some EmptyString
                   | _ => toText x
                   end;
               rest ← each l;
               Some (s :: rest)
           end) items;
      Some (String.concat "," parts)
  | JObject fields =>
      match field "toString" fields with
      | Some _ => None
      | None => Some "[object Object]"%string
      end
  end.

(** The same for the value of a property, [None] being [undefined]. *)
Definition typeText (t : option Json) : Completion string :=
  match t with
  | Some v =>
      match toText v with
      | Some s => Normal s
      | None => Throw TypeError
      end
  | None => Normal "undefined"%string
  end.

(** The listener of [BrokenWidget] together with the updater it hands to
    [setEvents], which builds the label from [data.type] in a template
    literal.  React runs the updater when it renders the widget; an
    exception of the updater is thrown by that render. *)
Definition BrokenWidget_handler (evt_data : string) (now : Z) (events : list Label)
    : Completion (list Label) :=
  data ← safeJsonParse JSON_parse evt_data;
  if falsy data then Normal events
  else label ← typeText (optType data);
       Normal (take 5 ((label, now) :: events)).

(** A sequence of records; the exception of a render stops it (the tree
    is unmounted). *)
Fixpoint dispatchBroken (evts : list (string * Z)) (events : list Label)
    : Completion (list Label) :=
  match evts with
  | [] => Normal events
  | (d, now) :: evts =>
      events ← BrokenWidget_handler d now events; dispatchBroken evts events
  end.

(** Whether the [type] of a record converts to a string, and the label
    it gives then. *)
Definition converts (t : option Json) : bool :=
  match typeText t with Normal _ => true | Throw _ => false end.

Definition labelOf (entry : option Json * Z) : Label :=
  (match typeText entry.1 with Normal s => s | Throw _ => EmptyString end,
   entry.2).

End WithRuntime.

End Display.

(** ** From the server's records to the widgets *)

Module EndToEnd.
Import Consumer Display.

Local Open Scope Z_scope.

(** The name on the [event:] line, which selects the listeners. *)
Definition eventText (ev : Server.EventName) : string :=
  match ev with
  | Server.connected => "connected"
  | Server.task => "task"
  | Server.notification => "notification"
  end.

Definition severityText (s : Server.Severity) : string :=
  match s with
  | Server.INFO => "INFO"
  | Server.WARN => "WARN"
  | Server.CRITICAL => "CRITICAL"
  end.

(** A number as [JSON.stringify] writes it and [JSON.parse] reads it
    back: [null] for NaN and the infinities. *)
Definition numberJson (n : Js.Number) : Json :=
  match n with
  | Js.Finite q => JNumber q
  | _ => JNull
  end.

Definition stampFields (t : Server.Timestamps) : list (string * Json) :=
  [("utcIso"%string, JString (Server.utcIso t));
   ("localIso"%string, JString (Server.localIso t));
   ("tzOffsetMinutes"%string, JNumber (inject_Z (Server.tzOffsetMinutes t)));
   ("epochMs"%string, JNumber (inject_Z (Server.epochMs t)))].

Section WithSnapshot.

(** The snapshot of the request as an object of the payload. *)
Variable requestJson : Server.RequestDebug → Json.

(** The object literals handed to [writeEvent]. *)
Definition dataFields (d : Server.EventData) : list (string * Json) :=
  match d with
  | Server.ConnectedData lastEventId clientLastEventId request =>
      [("type"%string, JString "connected")] ++
      match lastEventId with
      | Some n => [("lastEventId"%string, numberJson n)]
      | None => []
      end ++
      [("clientLastEventId"%string, numberJson clientLastEventId);
       ("request"%string, requestJson request)]
  | Server.TaskData taskId title amount =>
      [("type"%string, JString "task");
       ("taskId"%string, JString taskId);
       ("title"%string, JString title);
       ("amount"%string, JNumber (inject_Z amount))]
  | Server.NotificationData notificationId title severity =>
      [("type"%string, JString "notification");
       ("notificationId"%string, JString notificationId);
       ("title"%string, JString title);
       ("severity"%string, JString (severityText severity))]
  end.

(** [{ connectionId, ...data, ...timestamps() }], the payload of a
    record. *)
Definition payloadOf (f : Server.Frame) : option Json :=
  match f with
  | Server.Record_ _ _ cid d stamps =>
      Some (JObject (("connectionId"%string, JString cid)
                     :: dataFields d ++ stampFields stamps))
  | _ => None
  end.

End WithSnapshot.

(** Stand-ins for the examples: the snapshot as an empty object, and a
    parser that knows the one text "payload". *)
Definition emptySnapshot (r : Server.RequestDebug) : Json := JObject [].

Definition parseAs (p : Json) (text : string) : option Json :=
  if String.eqb text "payload" then Some p else None.

Definition sampleTask : Server.Frame :=
  Server.Record_ (Js.Finite 2) Server.task "c-lx1-k3x9q2ab"
    (Server.TaskData "t-k3x9q2ab" "Verify payee: Acme" 1244)
    (Server.sampleStamps 4000).

Definition sampleTaskPayload : Json :=
  default JNull (payloadOf emptySnapshot sampleTask).

End EndToEnd.

(** ** Facts about the connection lifecycle manager *)

Module LifecycleFacts.
Import Lifecycle.

Local Open Scope Z_scope.

(** *** Frame lemmas: what each helper leaves alone *)

Lemma closeCurrent_instanceId s : instanceId (closeCurrent s) = instanceId s.
Proof. unfold closeCurrent. by destruct (eventSourceRef s). Qed.

Lemma closeCurrent_attempt s : attemptCountRef (closeCurrent s) = attemptCountRef s.
Proof. unfold closeCurrent. by destruct (eventSourceRef s). Qed.

Lemma closeCurrent_ref s : eventSourceRef (closeCurrent s) = None.
Proof. unfold closeCurrent. by destruct (eventSourceRef s) eqn:E. Qed.

Lemma closeCurrent_timer s : retryTimerRef (closeCurrent s) = retryTimerRef s.
Proof. unfold closeCurrent. by destruct (eventSourceRef s). Qed.

Lemma closeCurrent_timeouts s : timeouts (closeCurrent s) = timeouts s.
Proof. unfold closeCurrent. by destruct (eventSourceRef s). Qed.

Lemma closeCurrent_length s : length (sources (closeCurrent s)) = length (sources s).
Proof.
  unfold closeCurrent. destruct (eventSourceRef s); [|done].
  cbn. by rewrite length_alter.
Qed.

Lemma clearRetryTimer_instanceId s : instanceId (clearRetryTimer s) = instanceId s.
Proof. unfold clearRetryTimer. by destruct (retryTimerRef s). Qed.

Lemma clearRetryTimer_attempt s : attemptCountRef (clearRetryTimer s) = attemptCountRef s.
Proof. unfold clearRetryTimer. by destruct (retryTimerRef s). Qed.

Lemma clearRetryTimer_ref s : eventSourceRef (clearRetryTimer s) = eventSourceRef s.
Proof. unfold clearRetryTimer. by destruct (retryTimerRef s). Qed.

Lemma clearRetryTimer_sources s : sources (clearRetryTimer s) = sources s.
Proof. unfold clearRetryTimer. by destruct (retryTimerRef s). Qed.

Lemma clearRetryTimer_timer s : retryTimerRef (clearRetryTimer s) = None.
Proof. unfold clearRetryTimer. by destruct (retryTimerRef s) eqn:E. Qed.


(** *** What [connect] does to the observable pair *)

Lemma connect_instanceId s : instanceId (connect s) = instanceId s + 1.
Proof.
  unfold connect, newEventSource. cbn.
  by rewrite clearRetryTimer_instanceId, closeCurrent_instanceId.
Qed.

Lemma connect_sources s :
  sources (connect s) =
  sources (closeCurrent s) ++ [{| readyState := CONNECTING; dispatched := 0 |}].
Proof. unfold connect, newEventSource. cbn. by rewrite clearRetryTimer_sources. Qed.

Lemma connect_length s : length (sources (connect s)) = S (length (sources s)).
Proof.
  rewrite connect_sources, length_app, closeCurrent_length. cbn. lia.
Qed.

Lemma connect_ref s : eventSourceRef (connect s) = Some (length (sources s)).
Proof.
  unfold connect, newEventSource. cbn.
  by rewrite clearRetryTimer_sources, closeCurrent_length.
Qed.

Lemma connect_attempt s : attemptCountRef (connect s) = attemptCountRef s + 1.
Proof.
  unfold connect, newEventSource. cbn.
  by rewrite clearRetryTimer_attempt, closeCurrent_attempt.
Qed.

Lemma connect_new_source s :
  sources (connect s) !! length (sources s) =
  Some {| readyState := CONNECTING; dispatched := 0 |}.
Proof.
  rewrite connect_sources, <- (closeCurrent_length s).
  by rewrite list_lookup_middle.
Qed.

Lemma onopen_instanceId s : instanceId (onopen s) = instanceId s.
Proof. done. Qed.

Lemma onerror_instanceId es s : instanceId (onerror es s) = instanceId s.
Proof.
  unfold onerror, setTimeout. cbn. by rewrite clearRetryTimer_instanceId.
Qed.

Lemma onerror_length es s : length (sources (onerror es s)) = length (sources s).
Proof.
  unfold onerror, setTimeout. cbn.
  by rewrite clearRetryTimer_sources; cbn; rewrite length_alter.
Qed.

(** *** The invariant of the provider *)

Lemma Inv_initial thr : Inv (initial thr).
Proof. split; cbn; try done. Qed.

Lemma closeCurrent_allClosed s :
  (∀ h e, sources s !! h = Some e → readyState e ≠ CLOSED → eventSourceRef s = Some h) →
  allClosed (closeCurrent s).
Proof.
  intros Hlive h e. unfold closeCurrent.
  destruct (eventSourceRef s) as [c|] eqn:Hc; cbn.
  - destruct (decide (c = h)) as [->|Hne].
    + rewrite list_lookup_alter_eq. destruct (sources s !! h); cbn; [|done].
      by intros [= <-].
    + rewrite list_lookup_alter_ne by done. intros He.
      destruct (decide (readyState e = CLOSED)) as [|Hopen]; [done|].
      specialize (Hlive _ _ He Hopen). congruence.
  - intros He.
    destruct (decide (readyState e = CLOSED)) as [|Hopen]; [done|].
    specialize (Hlive _ _ He Hopen). congruence.
Qed.

Lemma clearRetryTimer_nonePending s :
  (∀ t x, timeouts s !! t = Some x → pending x = true → retryTimerRef s = Some t) →
  nonePending (clearRetryTimer s).
Proof.
  intros Htimer t x. unfold clearRetryTimer.
  destruct (retryTimerRef s) as [c|] eqn:Hc; cbn.
  - destruct (decide (c = t)) as [->|Hne].
    + rewrite list_lookup_alter_eq. destruct (timeouts s !! t); cbn; [|done].
      by intros [= <-].
    + rewrite list_lookup_alter_ne by done. intros Hx.
      destruct (pending x) eqn:Hp; [|done].
      specialize (Htimer _ _ Hx Hp). congruence.
  - intros Hx. destruct (pending x) eqn:Hp; [|done].
    specialize (Htimer _ _ Hx Hp). congruence.
Qed.

Lemma Inv_closeCurrent s : Inv s → Inv (closeCurrent s).
Proof.
  intros [Hg Hl Hlive Ht Ha]. split.
  - by rewrite closeCurrent_instanceId, closeCurrent_length.
  - by rewrite closeCurrent_ref.
  - intros h e He Hopen. pose proof (closeCurrent_allClosed s Hlive h e He). done.
  - rewrite closeCurrent_timeouts, closeCurrent_timer. done.
  - by rewrite closeCurrent_attempt.
Qed.

Lemma Inv_clearRetryTimer s : Inv s → Inv (clearRetryTimer s).
Proof.
  intros [Hg Hl Hlive Ht Ha]. split.
  - by rewrite clearRetryTimer_instanceId, clearRetryTimer_sources.
  - by rewrite clearRetryTimer_ref, clearRetryTimer_sources.
  - by rewrite clearRetryTimer_ref, clearRetryTimer_sources.
  - intros t x Hx Hp.
    pose proof (clearRetryTimer_nonePending s Ht t x Hx). congruence.
  - by rewrite clearRetryTimer_attempt.
Qed.

Lemma connect_timeouts s :
  timeouts (connect s) = timeouts (clearRetryTimer (closeCurrent s)).
Proof. done. Qed.

Lemma connect_timer s : retryTimerRef (connect s) = None.
Proof. unfold connect, newEventSource. cbn. apply clearRetryTimer_timer. Qed.

Lemma Inv_connect s : Inv s → Inv (connect s).
Proof.
  intros HI. pose proof (Inv_closeCurrent s HI) as HI1.
  destruct HI as [Hg Hl Hlive Ht Ha]. split.
  - rewrite connect_instanceId, connect_length. lia.
  - rewrite connect_ref, connect_length. by intros h [= <-].
  - intros h e. rewrite connect_sources, connect_ref.
    rewrite lookup_app_Some. intros [He|[Hge He]] Hopen.
    + by pose proof (closeCurrent_allClosed s Hlive h e He).
    + rewrite closeCurrent_length in *.
      apply lookup_lt_Some in He. cbn in He. f_equal. lia.
  - intros t x. rewrite connect_timeouts, connect_timer. intros Hx Hp.
    pose proof (clearRetryTimer_nonePending _ (inv_timer _ HI1) t x Hx). congruence.
  - rewrite connect_attempt. lia.
Qed.

Lemma Inv_set_sources f h s :
  (∀ e, sources s !! h = Some e → readyState (f e) ≠ CLOSED → readyState e ≠ CLOSED) →
  Inv s → Inv (set_sources (alter f h (sources s)) s).
Proof.
  intros Hf [Hg Hl Hlive Ht Ha]. split; cbn; try done.
  - by rewrite length_alter.
  - by setoid_rewrite length_alter.
  - intros i e. destruct (decide (h = i)) as [->|Hne].
    + rewrite list_lookup_alter_eq. destruct (sources s !! i) as [e0|] eqn:He0; cbn; [|done].
      intros [= <-] Hopen. eapply Hlive; eauto.
    + rewrite list_lookup_alter_ne by done. apply Hlive.
Qed.

Lemma Inv_clearTimeout t s : Inv s → Inv (clearTimeout t s).
Proof.
  intros [Hg Hl Hlive Ht Ha]. split; cbn; try done.
  intros i x. destruct (decide (t = i)) as [->|Hne].
  - rewrite list_lookup_alter_eq. destruct (timeouts s !! i); cbn; [|done].
    by intros [= <-].
  - rewrite list_lookup_alter_ne by done. apply Ht.
Qed.

Lemma Inv_onerror es s : enabled (Errored es) s = true → Inv s → Inv (onerror es s).
Proof.
  cbn. rewrite andb_true_iff, bool_decide_eq_true, negb_true_iff.
  unfold isClosed, readyStateOf. rewrite bool_decide_eq_false.
  intros [[e He] Hopen] HI. rewrite He in Hopen. cbn in Hopen.
  assert (readyState e ≠ CLOSED) as Hopen' by congruence.
  pose proof (inv_live _ HI _ _ He Hopen') as Hcur.
  assert (closeCurrent s = set_eventSourceRef None (es_close es s)) as Hcc.
  { unfold closeCurrent. by rewrite Hcur. }
  pose proof (Inv_clearRetryTimer _ (Inv_closeCurrent _ HI)) as HI2.
  rewrite Hcc in HI2.
  pose proof (clearRetryTimer_nonePending _
                (inv_timer _ (Inv_closeCurrent _ HI))) as Hnone.
  rewrite Hcc in Hnone.
  unfold onerror, setTimeout. cbn.
  set (s2 := clearRetryTimer _) in *.
  destruct HI2 as [Hg Hl Hlive Ht Ha]. split; cbn; try done.
  intros t x. rewrite lookup_app_Some. intros [Hx|[Hge Hx]] Hp.
  - specialize (Hnone _ _ Hx). congruence.
  - apply lookup_lt_Some in Hx. cbn in Hx. f_equal. lia.
Qed.

Lemma Inv_onVisibilityChange v now s : Inv s → Inv (onVisibilityChange v now s).
Proof.
  intros HI. assert (∀ o, Inv (set_hiddenAtRef o s)) as Hh.
  { intros o. destruct HI. by split. }
  destruct v; cbn; [apply Hh|].
  destruct (match eventSourceRef s with Some h => _ | None => _ end).
  - apply Inv_connect, Inv_clearRetryTimer, Hh.
  - destruct (hiddenAtRef s); [|apply Hh].
    destruct (_ || _); [|apply Hh].
    apply Inv_connect, Inv_clearRetryTimer, Inv_closeCurrent, Hh.
Qed.

Lemma Inv_sendBeacon s : Inv s → Inv (sendBeacon s).
Proof. intros []. by split. Qed.

Lemma Inv_fire e s : enabled e s = true → Inv s → Inv (fire e s).
Proof.
  intros Hen HI. destruct e; cbn [fire].
  - by apply Inv_connect.
  - by apply Inv_closeCurrent, Inv_clearRetryTimer.
  - by apply Inv_connect, Inv_clearTimeout.
  - cbn in Hen. apply bool_decide_eq_true in Hen. unfold readyStateOf in Hen.
    assert (Inv (set_sources (alter markOpen es (sources s)) s)) as [].
    { apply Inv_set_sources; [|done]. intros e He _.
      rewrite He in Hen. cbn in Hen. congruence. }
    by split.
  - by apply Inv_onerror.
  - by apply Inv_set_sources.
  - by apply Inv_onVisibilityChange.
  - by apply Inv_connect, Inv_clearRetryTimer, Inv_closeCurrent.
  - unfold onPageHide. destruct persisted; [done|].
    by apply Inv_closeCurrent, Inv_sendBeacon.
  - by apply Inv_closeCurrent, Inv_sendBeacon.
Qed.

Lemma reachable_Inv s : reachable s → Inv s.
Proof.
  induction 1 as [thr|s e _ IH Hen]; [apply Inv_initial|by apply Inv_fire].
Qed.

Lemma run_reachable es s s' : reachable s → run es s = Some s' → reachable s'.
Proof.
  revert s. induction es as [|e es IH]; intros s Hs; cbn.
  - by intros [= <-].
  - destruct (enabled e s) eqn:Hen; [|done].
    apply IH. by constructor.
Qed.

(** *** Generation counter and transport creation *)

(** Every handler either creates no transport and leaves the generation
    counter alone, or ends with a call of [connect]. *)
Lemma fire_cases e s :
  (instanceId (fire e s) = instanceId s ∧
   length (sources (fire e s)) = length (sources s) ∧
   ∀ h, eventSourceRef (fire e s) = Some h → eventSourceRef s = Some h) ∨
  (∃ s0, fire e s = connect s0 ∧ instanceId s0 = instanceId s ∧
         length (sources s0) = length (sources s)).
Proof.
  assert (∀ s, ∃ s0, connect (clearRetryTimer (closeCurrent s)) = connect s0 ∧
                     instanceId s0 = instanceId s ∧
                     length (sources s0) = length (sources s)) as Hforce.
  { intros s1. eexists. split; [done|].
    by rewrite clearRetryTimer_instanceId, clearRetryTimer_sources,
         closeCurrent_instanceId, closeCurrent_length. }
  destruct e; cbn [fire].
  - right. by exists s.
  - left. unfold unmount.
    rewrite closeCurrent_instanceId, closeCurrent_length, closeCurrent_ref,
      clearRetryTimer_instanceId, clearRetryTimer_sources. done.
  - right. by eexists.
  - left. cbn. by rewrite length_alter.
  - left. rewrite onerror_instanceId, onerror_length. repeat split.
    unfold onerror, setTimeout. cbn. by rewrite clearRetryTimer_ref.
  - left. cbn. by rewrite length_alter.
  - destruct v; cbn; [by left|].
    destruct (match eventSourceRef s with Some h => _ | None => _ end).
    + right. eexists. split; [done|].
      by rewrite clearRetryTimer_instanceId, clearRetryTimer_sources.
    + destruct (hiddenAtRef s); [|by left].
      destruct (_ || _); [|by left].
      right. apply (Hforce (set_hiddenAtRef None s)).
  - right. apply Hforce.
  - unfold onPageHide. destruct persisted; [by left|]. left.
    by rewrite closeCurrent_instanceId, closeCurrent_length, closeCurrent_ref.
  - left. unfold onBeforeUnload.
    by rewrite closeCurrent_instanceId, closeCurrent_length, closeCurrent_ref.
Qed.

(** C1.  [connect] creates exactly one transport and adds exactly 1 to the
    generation counter [instanceId]; the open handler and the error
    handler of a transport leave the counter as it is; and for every
    trigger of the runtime, the counter grows by the number of transports
    the trigger created, which is 0 or 1. *)
Theorem C1_generation_counts_creations :
  (∀ s, instanceId (connect s) = instanceId s + 1 ∧
        length (sources (connect s)) = S (length (sources s))) ∧
  (∀ s, instanceId (onopen s) = instanceId s) ∧
  (∀ es s, instanceId (onerror es s) = instanceId s) ∧
  (∀ es s, instanceId (fire (Opened es) s) = instanceId s ∧
           instanceId (fire (Errored es) s) = instanceId s) ∧
  (∀ e s, ∃ created : nat,
      (created ≤ 1)%nat ∧
      length (sources (fire e s)) = (length (sources s) + created)%nat ∧
      instanceId (fire e s) = instanceId s + Z.of_nat created).
Proof.
  repeat split.
  - apply connect_instanceId.
  - apply connect_length.
  - apply onerror_instanceId.
  - apply onerror_instanceId.
  - intros e s. destruct (fire_cases e s) as [(Hi & Hl & _)|(s0 & -> & Hi & Hl)].
    + exists 0%nat. rewrite Hi, Hl. split; [lia|]. split; lia.
    + exists 1%nat. rewrite connect_instanceId, connect_length, Hi, Hl.
      split; [lia|]. split; lia.
Qed.

(** *** Publication of the handle *)

Lemma connect_not_dispatchable s :
  enabled (Message (length (sources s))) (connect s) = false ∧
  enabled (Opened (length (sources s))) (connect s) = true.
Proof.
  cbn. unfold readyStateOf. rewrite connect_new_source. cbn.
  split; [by apply bool_decide_eq_false|by apply bool_decide_eq_true].
Qed.

(** In the state [connect] returns, the handle of the transport it
    created is published and the generation counter is one more than
    before, while that transport is still connecting (the open event is
    yet to come) and no record has been dispatched on it, nor can one be
    before it opens.  Under the invariant the published handle is the
    transport created by the [connect] that produced the current
    generation value; so across any trigger, a changed generation comes
    with the handle of the transport just created, and a handle that was
    not published before comes with a changed generation. *)
Lemma connect_same_turn s :
  Inv s →
  (let s' := connect s in
   let es := length (sources s) in
   eventSourceRef s' = Some es ∧
   instanceId s' = instanceId s + 1 ∧
   sources s !! es = None ∧
   eventSourceRef s ≠ Some es ∧
   sources s' !! es = Some {| readyState := CONNECTING; dispatched := 0 |} ∧
   enabled (Message es) s' = false ∧
   enabled (Opened es) s' = true) ∧
  (∀ h, eventSourceRef s = Some h → instanceId s = Z.of_nat h + 1) ∧
  (∀ e, enabled e s = true →
     (instanceId (fire e s) ≠ instanceId s →
        eventSourceRef (fire e s) = Some (length (sources s)) ∧
        eventSourceRef (fire e s) ≠ eventSourceRef s) ∧
     (∀ h, eventSourceRef (fire e s) = Some h → eventSourceRef s ≠ Some h →
        instanceId (fire e s) = instanceId s + 1)).
Proof.
  intros HI.
  assert (∀ h, eventSourceRef s = Some h → h ≠ length (sources s)) as Hold.
  { intros h Hh. pose proof (inv_latest _ HI _ Hh). lia. }
  split; [|split].
  - cbn zeta. rewrite connect_ref, connect_instanceId, connect_new_source.
    destruct (connect_not_dispatchable s) as [Hm Ho].
    repeat split; try done.
    + by apply lookup_ge_None.
    + intros Hh. by apply (Hold _ Hh).
  - intros h Hh. rewrite (inv_generation _ HI).
    pose proof (inv_latest _ HI _ Hh). lia.
  - intros e Hen.
    destruct (fire_cases e s) as [(Hi & Hl & Hr)|(s0 & -> & Hi & Hl)].
    + split; [done|]. intros h Hh Hne. by specialize (Hr _ Hh).
    + rewrite connect_ref, connect_instanceId, Hi, Hl. split.
      * intros _. split; [done|]. intros Heq. symmetry in Heq.
        by apply (Hold _ Heq).
      * done.
Qed.

(** *** At most one transport *)

Lemma filter_none {A} (P : A → Prop) `{!∀ x, Decision (P x)} (l : list A) :
  (∀ h e, l !! h = Some e → ¬ P e) → filter P l = [].
Proof.
  induction l as [|x l IH]; intros Hl; [done|].
  rewrite filter_cons. destruct (decide (P x)) as [HP|_].
  - by destruct (Hl 0%nat x).
  - apply IH. intros h e He. by apply (Hl (S h)).
Qed.

Lemma filter_latest_only {A} (P : A → Prop) `{!∀ x, Decision (P x)} (l : list A) :
  (∀ h e, l !! h = Some e → P e → S h = length l) →
  (length (filter P l) ≤ 1)%nat.
Proof.
  destruct l as [|x l _] using rev_ind; [cbn; lia|].
  intros Hl. rewrite filter_app, length_app.
  rewrite (filter_none P l).
  - cbn. pose proof (length_filter P [x]). cbn in *. lia.
  - intros h e He HP.
    pose proof (Hl h e (lookup_app_l_Some _ _ _ _ He) HP) as Hh.
    apply lookup_lt_Some in He. rewrite length_app in Hh. cbn in Hh. lia.
Qed.

(** C4.  At every reachable state the provider holds at most one transport
    handle, and at most one transport of the whole store is not closed:
    the one the provider holds. *)
Theorem C4_at_most_one_transport s :
  reachable s →
  (handlesHeld s ≤ 1)%nat ∧
  (liveTransports s ≤ handlesHeld s)%nat ∧
  (∀ h e, sources s !! h = Some e → readyState e ≠ CLOSED →
          eventSourceRef s = Some h).
Proof.
  intros Hs. pose proof (reachable_Inv _ Hs) as [Hg Hl Hlive Ht Ha].
  split; [|split; [|done]].
  - unfold handlesHeld. destruct (eventSourceRef s); lia.
  - unfold liveTransports, handlesHeld.
    destruct (eventSourceRef s) as [c|] eqn:Hc.
    + apply filter_latest_only. intros h e He Hopen.
      apply Hl. eauto.
    + rewrite filter_none; [done|]. intros h e He Hopen.
      by specialize (Hlive _ _ He Hopen).
Qed.

(** After [sampleBusy] four transports were created, and at most one of
    them is not closed. *)
Lemma C4_at_most_one_transport_witness :
  run sampleBusy (initial 10000) = Some afterBusy ∧
  length (sources afterBusy) = 4%nat ∧
  (liveTransports afterBusy ≤ 1)%nat.
Proof.
  assert (run sampleBusy (initial 10000) = Some afterBusy) as Hrun
    by (vm_compute; reflexivity).
  split; [exact Hrun|]. split; [vm_compute; reflexivity|].
  destruct (C4_at_most_one_transport _
              (run_reachable _ _ _ (reachable_initial 10000) Hrun))
    as (H1 & H2 & _).
  exact (Nat.le_trans _ _ _ H2 H1).
Defined.

(** *** Retry delay *)

Lemma onerror_attempt es s : attemptCountRef (onerror es s) = attemptCountRef s.
Proof.
  unfold onerror, setTimeout. cbn. by rewrite clearRetryTimer_attempt.
Qed.

Lemma onerror_scheduledDelay es s :
  scheduledDelay (onerror es s) = Some (backoffDelay (attemptCountRef s)).
Proof.
  unfold onerror, setTimeout, scheduledDelay. cbn.
  by rewrite list_lookup_middle.
Qed.



Lemma backoffDelay_capped a : 7 ≤ a → (backoffDelay a == 30000)%Q.
Proof.
  intros Ha. unfold backoffDelay. rewrite Z.min_r by lia. reflexivity.
Qed.









(** C10.  When a transport reports an error after its open handler has
    run, with any number of records dispatched in between and no new
    [connect], the error handler reads the attempt counter 0 and schedules
    the retry after [1000 * 2^(-1) = 500] milliseconds, less than the 1000
    milliseconds of the first failure of a fresh sequence. *)
Theorem C10_delay_after_open :
  (∀ s es, scheduledDelay (onerror es (onopen s)) = Some (backoffDelay 0)) ∧
  (∀ s es (n : nat),
     scheduledDelay
       (fire (Errored es) (Nat.iter n (fire (Message es)) (fire (Opened es) s))) =
     Some (backoffDelay 0)) ∧
  (backoffDelay 0 == 1000 * 2 ^ Z.min (0 - 1) 5)%Q ∧
  (backoffDelay 0 == 500)%Q ∧
  (backoffDelay 1 == 1000)%Q ∧
  (backoffDelay 0 < backoffDelay 1)%Q.
Proof.
  split; [|split; [|split; [|split; [|split]]]]; try reflexivity.
  - intros s es. by rewrite onerror_scheduledDelay.
  - intros s es n. cbn [fire]. rewrite onerror_scheduledDelay.
    do 2 f_equal. induction n as [|n IH]; [done|]. cbn. exact IH.
Qed.

End LifecycleFacts.

(** ** Facts about the stream emitter *)

Module ServerFacts.
Import Server.

Local Open Scope Z_scope.

(** *** Comparisons of integers as JavaScript numbers *)

Lemma Qle_bool_inject a b : Qle_bool (inject_Z a) (inject_Z b) = (a <=? b).
Proof. unfold Qle_bool. cbn. by rewrite !Z.mul_1_r. Qed.

Lemma gt_ofZ a b : Js.gt (Js.ofZ a) (Js.ofZ b) = (b <? a).
Proof. cbn. by rewrite Qle_bool_inject, Z.ltb_antisym. Qed.

Lemma ge_ofZ a b : Js.ge (Js.ofZ a) (Js.ofZ b) = (b <=? a).
Proof. cbn. by rewrite Qle_bool_inject. Qed.

(** *** What each callback writes *)

Lemma writeEvent_written ev d now c :
  written (snd (writeEvent ev d now c)) =
  written c ++ [Record_ (Js.add (nextId c) (Js.ofZ 1)) ev (connectionId c) d now].
Proof. done. Qed.

Lemma onTimer_written d now c :
  ∃ f, isBusiness f = true ∧ idOf f = Some (Js.add (nextId c) (Js.ofZ 1)) ∧
       written (onTimer d now c) = written c ++ [f] ∧
       nextId (onTimer d now c) = Js.add (nextId c) (Js.ofZ 1) ∧
       echoOf f = None ∧
       clientEchoOf f = None.
Proof.
  unfold onTimer. destruct (isTask d); cbn;
    destruct (_ && _); cbn; eexists; repeat split; cycle 2; reflexivity.
Qed.

Lemma onTimer_sent d now c :
  sentBusinessEvents (onTimer d now c) = sentBusinessEvents c + 1.
Proof. unfold onTimer. destruct (isTask d); cbn; by destruct (_ && _). Qed.

Lemma onTimer_closeAfter d now c : closeAfter (onTimer d now c) = closeAfter c.
Proof. unfold onTimer. destruct (isTask d); cbn; by destruct (_ && _). Qed.

Lemma fire_clientLastEventId e c :
  clientLastEventId (fire e c) = clientLastEventId c.
Proof.
  destruct e; cbn [fire].
  - unfold onConnectedRepeat. cbn. by destruct (writableEnded c).
  - done.
  - unfold onTimer. destruct (isTask d); cbn; by destruct (_ && _).
  - done.
Qed.

(** Every callback appends to what was written, at most one frame, never
    one with a [lastEventId], and a [clientLastEventId] it writes is the
    one of the connection. *)
Lemma fire_written e c :
  ∃ fs, written (fire e c) = written c ++ fs ∧ (length fs ≤ 1)%nat ∧
        omap echoOf fs = [] ∧
        Forall (λ x, x = clientLastEventId c) (omap clientEchoOf fs).
Proof.
  destruct e; cbn [fire].
  - unfold onConnectedRepeat. cbn. destruct (writableEnded c); cbn.
    + exists []. rewrite app_nil_r. split; [done|]. split; [cbn; lia|].
      split; [done|]. constructor.
    + eexists [_]. split; [done|]. split; [cbn; lia|]. split; [done|].
      cbn. by repeat constructor.
  - eexists [_]. split; [done|]. split; [cbn; lia|]. split; [done|]. constructor.
  - destruct (onTimer_written d now c) as (f & _ & _ & Hw & _ & He & Hc).
    exists [f]. split; [done|]. split; [cbn; lia|]. cbn. rewrite He, Hc.
    split; [done|]. constructor.
  - exists []. rewrite app_nil_r. split; [done|]. split; [cbn; lia|].
    split; [done|]. constructor.
Qed.

Lemma run_written es c c' :
  run es c = Some c' →
  ∃ fs, written c' = written c ++ fs ∧ omap echoOf fs = [] ∧
        Forall (λ x, x = clientLastEventId c) (omap clientEchoOf fs).
Proof.
  revert c. induction es as [|e es IH]; intros c; cbn.
  - intros [= <-]. exists []. rewrite app_nil_r. split; [done|].
    split; [done|]. constructor.
  - destruct (enabled e c); [|done]. intros Hrun.
    destruct (IH _ Hrun) as (fs & -> & Hfs & Hcs).
    destruct (fire_written e c) as (f & -> & _ & Hf & Hc).
    rewrite fire_clientLastEventId in Hcs.
    exists (f ++ fs). rewrite <- app_assoc. split; [done|].
    rewrite !omap_app, Hf, Hfs. split; [done|]. by apply Forall_app.
Qed.

(** *** The request snapshot *)

(** C9.  Two requests that agree on everything but the value of the
    [Cookie] header, and agree on whether that header is present and on
    its length, yield the same snapshot, and so does every "connected"
    record either connection ever writes: the snapshot shows the presence
    and the length of the cookie, and nothing else of it. *)
Theorem C9_cookie_value_not_exposed (req1 req2 : Request) :
  (∀ k, k ≠ "cookie" → headers req1 !! k = headers req2 !! k) →
  String.length <$> headers req1 !! "cookie" =
  String.length <$> headers req2 !! "cookie" →
  query req1 = query req2 →
  ip req1 = ip req2 →
  ips req1 = ips req2 →
  httpVersion req1 = httpVersion req2 →
  method req1 = method req2 →
  path req1 = path req2 →
  buildRequestDebug req1 = buildRequestDebug req2 ∧
  (∀ Number_ cid now,
     requestDebug (accept Number_ cid now req1) =
     requestDebug (accept Number_ cid now req2) ∧
     omap snapshotOf (written (accept Number_ cid now req1)) =
     [buildRequestDebug req1] ∧
     omap snapshotOf (written (accept Number_ cid now req2)) =
     [buildRequestDebug req1]).
Proof.
  intros Hh Hc Hq Hip Hips Hv Hm Hp.
  assert (buildRequestDebug req1 = buildRequestDebug req2) as Heq.
  { unfold buildRequestDebug. rewrite Hq, Hip, Hips, Hv, Hm, Hp.
    rewrite !(Hh "host"), !(Hh "origin"), !(Hh "referer"), !(Hh "user-agent"),
      !(Hh "sec-ch-ua"), !(Hh "sec-ch-ua-mobile"), !(Hh "sec-ch-ua-platform"),
      !(Hh "sec-fetch-dest"), !(Hh "sec-fetch-mode"), !(Hh "sec-fetch-site"),
      !(Hh "accept"), !(Hh "accept-language"), !(Hh "accept-encoding"),
      !(Hh "cache-control"), !(Hh "pragma"), !(Hh "connection"), !(Hh "dnt")
      by done.
    destruct (headers req1 !! "cookie") as [c1|], (headers req2 !! "cookie") as [c2|];
      cbn in Hc; try done.
    injection Hc as ->. done. }
  split; [done|]. intros Number_ cid now. cbn. by rewrite Heq.
Qed.

(** [requestA] and [requestB] differ in the value of the cookie only, and
    have the same snapshot. *)
Lemma C9_cookie_value_not_exposed_witness :
  headers requestA !! "cookie" = Some "sid=AAAA" ∧
  headers requestB !! "cookie" = Some "sid=BBBB" ∧
  buildRequestDebug requestA = buildRequestDebug requestB.
Proof.
  split; [vm_compute; reflexivity|]. split; [vm_compute; reflexivity|].
  refine (proj1 (C9_cookie_value_not_exposed requestA requestB _ _ _ _ _ _ _ _));
    try reflexivity.
  intros k Hk. unfold requestA, requestB, sampleRequest. cbn.
  rewrite !lookup_insert. repeat case_decide; congruence.
Defined.

Section WithNumber.

Variable Number_ : string → Js.Number.

(** *** The resume point *)

Lemma parseLastEventId_finite req :
  ∃ q, parseLastEventId Number_ req = Js.Finite q.
Proof.
  unfold parseLastEventId.
  destruct (headerNumber Number_ req) eqn:H1; cbn; eauto;
    destruct (queryNumber Number_ req) eqn:H2; cbn; eauto.
Qed.


End WithNumber.


(** *** Record ids *)

Lemma nthId_S q k : (nthId q (S k) == nthId q k + 1)%Q.
Proof.
  unfold nthId. rewrite Nat2Z.inj_succ, <- Z.add_1_r, inject_Z_plus.
  change (inject_Z 1) with 1%Q. lra.
Qed.

(** An integer is a binary64 number as long as its magnitude does not
    exceed 2^53. *)

Lemma pow2_nonneg k : 0 ≤ k → Js.pow2 k = inject_Z (2 ^ k).
Proof.
  destruct k as [|p|p]; intros Hk; [done| |lia].
  cbn [Js.pow2]. by rewrite Pos2Z.inj_pow.
Qed.

Lemma pow2_inv k : 0 ≤ k → (inject_Z (2 ^ k) * Js.pow2 (- k) == 1)%Q.
Proof.
  destruct k as [|p|p]; intros Hk; [done| |lia].
  change (Js.pow2 (- Z.pos p)) with (1 # 2 ^ p)%Q. rewrite <- Pos2Z.inj_pow.
  unfold Qeq, Qmult, inject_Z. cbn [Qnum Qden]. lia.
Qed.

Lemma Qred_inject_Z q z : (q == inject_Z z)%Q → Qred q = inject_Z z.
Proof.
  intros H. rewrite (Qred_complete _ _ H).
  unfold Qred, inject_Z.
  pose proof (Z.ggcd_gcd z 1) as Hg. pose proof (Z.ggcd_correct_divisors z 1) as Hd.
  destruct (Z.ggcd z 1) as [g [a b]]. cbn in *.
  rewrite Z.gcd_1_r in Hg. subst g. destruct Hd as [-> Hb].
  rewrite !Z.mul_1_l in *. subst b. by destruct a.
Qed.

Lemma roundHalfEven_int m k : (m == inject_Z k)%Q → Js.roundHalfEven m = k.
Proof.
  intros H. unfold Js.roundHalfEven.
  assert (Qfloor m = k) as -> by (by rewrite H, Qfloor_Z).
  destruct (Qcompare_spec (m - inject_Z k) (1 # 2)) as [E|E|E]; [lra|done|lra].
Qed.

Lemma roundPositive_int neg z :
  1 ≤ z ≤ 2 ^ 53 →
  Js.roundPositive neg (inject_Z z) = Js.Finite (inject_Z (if neg then - z else z)).
Proof.
  intros Hz.
  destruct (decide (z = 2 ^ 53)) as [->|Hne];
    [destruct neg; vm_compute; reflexivity|].
  assert (z < 2 ^ 53) as Hlt by lia.
  pose proof (Z.log2_spec z ltac:(lia)) as [Hlo Hhi].
  assert (0 ≤ Z.log2 z) as H0 by apply Z.log2_nonneg.
  assert (Z.log2 z < 53) as H53 by (apply Z.log2_lt_pow2; lia).
  assert (Js.exponent (inject_Z z) = Z.log2 z) as He.
  { unfold Js.exponent. cbn [Qnum Qden inject_Z]. change (Z.log2 1) with 0.
    rewrite Z.sub_0_r, pow2_nonneg by done.
    rewrite (proj2 (Qle_bool_iff _ _)); [done|]. by rewrite <- Zle_Qle. }
  unfold Js.roundPositive. rewrite He, Z.max_l by lia.
  set (p := Z.log2 z - 52).
  assert (0 ≤ - p) as Hp by lia.
  assert (inject_Z z * Js.pow2 (- p) == inject_Z (z * 2 ^ (- p)))%Q as Hm.
  { rewrite pow2_nonneg by done. by rewrite inject_Z_mult. }
  rewrite (roundHalfEven_int _ _ Hm).
  assert (inject_Z (z * 2 ^ (- p)) * Js.pow2 p == inject_Z z)%Q as Hr.
  { rewrite inject_Z_mult, <- Qmult_assoc.
    replace p with (- - p) at 2 by lia. rewrite (pow2_inv _ Hp). ring. }
  destruct (Qle_bool (Js.pow2 1024) _) eqn:Hov.
  - apply Qle_bool_iff in Hov. rewrite Hr in Hov.
    change (Js.pow2 1024) with (inject_Z (2 ^ 1024)) in Hov.
    rewrite <- Zle_Qle in Hov.
    assert (2 ^ 53 < 2 ^ 1024) by (apply Z.pow_lt_mono_r; lia). lia.
  - f_equal. apply Qred_inject_Z. destruct neg; [|done].
    rewrite Hr, inject_Z_opp. reflexivity.
Qed.

Lemma round64_int q z :
  (q == inject_Z z)%Q → - 2 ^ 53 ≤ z ≤ 2 ^ 53 →
  Js.round64 q = Js.ofZ z.
Proof.
  intros Hq Hz. unfold Js.round64, Js.ofZ. cbn zeta. rewrite (Qred_inject_Z _ _ Hq).
  cbn [Qnum inject_Z]. destruct z as [|p|p]; [done|..].
  - exact (roundPositive_int false (Zpos p) ltac:(lia)).
  - exact (roundPositive_int true (Zpos p) ltac:(lia)).
Qed.

Lemma isId_succ n x w :
  isId n x → (x == inject_Z w)%Q → - 2 ^ 53 ≤ w + 1 ≤ 2 ^ 53 →
  isId (Js.add n (Js.ofZ 1)) (x + 1).
Proof.
  intros (y & -> & Hy) Hx Hw. cbn [Js.add Js.ofZ].
  rewrite (round64_int _ (w + 1)); [|rewrite Hy, Hx, inject_Z_plus; reflexivity|done].
  eexists. split; [reflexivity|]. rewrite Hx, inject_Z_plus. reflexivity.
Qed.

Lemma isId_lt a b x y : isId a x → isId b y → (x < y)%Q → Js.lt a b = true.
Proof.
  intros (a' & -> & Ha) (b' & -> & Hb) Hxy. cbn.
  apply negb_true_iff. destruct (Qle_bool b' a') eqn:Hle; [|done].
  apply Qle_bool_iff in Hle. lra.
Qed.

Lemma fire_ids e c :
  (nextId (fire e c) = nextId c ∧ recordIds (fire e c) = recordIds c) ∨
  (nextId (fire e c) = Js.add (nextId c) (Js.ofZ 1) ∧
   recordIds (fire e c) = recordIds c ++ [Js.add (nextId c) (Js.ofZ 1)]).
Proof.
  unfold recordIds. destruct e; cbn [fire].
  - unfold onConnectedRepeat. cbn. destruct (writableEnded c); cbn; [by left|].
    right. by rewrite omap_app.
  - left. cbn. by rewrite omap_app, app_nil_r.
  - right. destruct (onTimer_written d now c) as (f & _ & Hid & -> & -> & _ & _).
    rewrite omap_app. cbn. by rewrite Hid.
  - by left.
Qed.

Lemma nthId_int z k : (nthId (inject_Z z) k == inject_Z (z + Z.of_nat k))%Q.
Proof. unfold nthId. by rewrite inject_Z_plus. Qed.

(** The ids follow the seed [z] as long as they stay within 2^53. *)
Lemma IdInv_fire z e c :
  - 2 ^ 53 ≤ z →
  z + Z.of_nat (length (recordIds (fire e c))) ≤ 2 ^ 53 →
  IdInv (inject_Z z) c → IdInv (inject_Z z) (fire e c).
Proof.
  intros Hz Hb [Hn He]. destruct (fire_ids e c) as [[Hn' Hr']|[Hn' Hr']];
    split; rewrite ?Hn', ?Hr' in *; try done.
  - rewrite length_app in *. cbn in *. rewrite Nat.add_1_r.
    destruct (isId_succ _ _ _ Hn (nthId_int z _)) as (y & Hy & Hyq); [lia|].
    exists y. split; [done|]. by rewrite nthId_S.
  - intros i id. rewrite lookup_app_Some. intros [Hi|[Hge Hi]]; [by apply He|].
    apply list_lookup_singleton_Some in Hi as [Hi <-].
    assert (i = length (recordIds c)) as -> by lia.
    rewrite length_app in Hb. cbn in Hb.
    destruct (isId_succ _ _ _ Hn (nthId_int z _)) as (y & Hy & Hyq); [lia|].
    exists y. split; [done|]. by rewrite nthId_S.
Qed.

Lemma run_ids_length es c c' :
  run es c = Some c' → (length (recordIds c) ≤ length (recordIds c'))%nat.
Proof.
  intros Hrun. destruct (run_written _ _ _ Hrun) as (fs & Hw & _).
  unfold recordIds. rewrite Hw, omap_app, length_app. lia.
Qed.

Lemma IdInv_run z es c c' :
  - 2 ^ 53 ≤ z →
  run es c = Some c' →
  z + Z.of_nat (length (recordIds c')) ≤ 2 ^ 53 →
  IdInv (inject_Z z) c → IdInv (inject_Z z) c'.
Proof.
  intros Hz. revert c. induction es as [|e es IH]; intros c; cbn.
  - by intros [= <-].
  - destruct (enabled e c); [|done]. intros Hrun Hb Hc.
    apply (IH _ Hrun Hb). apply IdInv_fire; [done| |done].
    pose proof (run_ids_length _ _ _ Hrun). lia.
Qed.

(** *** The resume point does not steer the emitter *)

Lemma sameSchedule_fire e c1 c2 :
  sameSchedule c1 c2 →
  enabled e c1 = enabled e c2 ∧ sameSchedule (fire e c1) (fire e c2).
Proof.
  destruct c1, c2. unfold sameSchedule. cbn.
  intros (-> & -> & -> & -> & -> & -> & -> & -> & Hw).
  split; [by destruct e|].
  destruct e; cbn.
  - unfold onConnectedRepeat. cbn. destruct writableEnded1; cbn;
      rewrite ?map_app, ?Hw; done.
  - rewrite !map_app, Hw. done.
  - unfold onTimer. cbn. destruct (isTask d); cbn;
      destruct (_ && _); cbn; rewrite !map_app, Hw; done.
  - done.
Qed.

Lemma sameSchedule_run es c1 c2 c1' :
  sameSchedule c1 c2 → run es c1 = Some c1' →
  ∃ c2', run es c2 = Some c2' ∧ sameSchedule c1' c2'.
Proof.
  revert c1 c2. induction es as [|e es IH]; intros c1 c2 Hs; cbn.
  - intros [= <-]. eauto.
  - destruct (sameSchedule_fire e _ _ Hs) as [<- Hs'].
    destruct (enabled e c1); [|done]. by apply IH.
Qed.

Section Emitter.

Variable Number_ : string → Js.Number.

Lemma accept_written cid now req :
  written (accept Number_ cid now req) =
  [Padding; RetryHint 3000;
   Record_ (Js.add (parseLastEventId Number_ req) (Js.ofZ 1)) connected cid
     (ConnectedData (Some (parseLastEventId Number_ req))
        (parseLastEventId Number_ req) (buildRequestDebug req)) now].
Proof. done. Qed.

Lemma accept_first_id cid now req r z :
  parseLastEventId Number_ req = Js.Finite r → (r == inject_Z z)%Q →
  - 2 ^ 53 ≤ z → z + 1 ≤ 2 ^ 53 →
  nextId (accept Number_ cid now req) = Js.ofZ (z + 1) ∧
  recordIds (accept Number_ cid now req) = [Js.ofZ (z + 1)].
Proof.
  intros Hr Hq Hz Hb.
  assert (Js.add (parseLastEventId Number_ req) (Js.ofZ 1) = Js.ofZ (z + 1)) as E.
  { rewrite Hr. cbn [Js.add Js.ofZ]. apply round64_int; [|lia].
    rewrite Hq, inject_Z_plus. reflexivity. }
  split.
  - change (nextId (accept Number_ cid now req))
      with (Js.add (parseLastEventId Number_ req) (Js.ofZ 1)). done.
  - unfold recordIds. rewrite accept_written. cbn [omap list_omap idOf]. by rewrite E.
Qed.

Lemma IdInv_accept cid now req r z :
  parseLastEventId Number_ req = Js.Finite r → (r == inject_Z z)%Q →
  - 2 ^ 53 ≤ z → z + 1 ≤ 2 ^ 53 →
  IdInv (inject_Z z) (accept Number_ cid now req).
Proof.
  intros Hr Hq Hz Hb.
  destruct (accept_first_id cid now req r z Hr Hq Hz Hb) as [Hn Hi].
  split; rewrite ?Hn, ?Hi.
  - eexists. split; [reflexivity|]. by rewrite nthId_int.
  - intros i id. destruct i; [|done]. intros [= <-].
    eexists. split; [reflexivity|]. by rewrite nthId_int.
Qed.

Lemma accept_sameSchedule cid now req1 req2 :
  query req1 !! "intervalMs" = query req2 !! "intervalMs" →
  query req1 !! "closeAfter" = query req2 !! "closeAfter" →
  query req1 !! "heartbeat" = query req2 !! "heartbeat" →
  sameSchedule (accept Number_ cid now req1) (accept Number_ cid now req2).
Proof.
  intros Hi Hc Hh. unfold sameSchedule, accept. cbn. rewrite Hi, Hc, Hh. done.
Qed.

(** C5 as amended.  The id counter of a connection is a binary64 number
    seeded with the resume point [r] (0 when none is given) and
    incremented before each record.  When [r] is an integer [z] not below
    -2^53, and as long as [z] plus the number of records written does not
    exceed 2^53, the ids are [z + 1], [z + 2], ... in the order written,
    hence strictly increasing, and the first id is [z + 1].  Whatever the
    resume point, the first "connected" record echoes it unchanged as
    [lastEventId] and as [clientLastEventId], every later "connected"
    record echoes it as [clientLastEventId], and a request that differs
    only in the resume point gets, under the same schedule, the same
    frames up to ids and echo: nothing is skipped or replayed. *)
Theorem C5_ids_follow_the_resume_point cid now req es c :
  run es (accept Number_ cid now req) = Some c →
  ∃ r,
    parseLastEventId Number_ req = Js.Finite r ∧
    (∀ z, (r == inject_Z z)%Q → - 2 ^ 53 ≤ z →
       z + Z.of_nat (length (recordIds c)) ≤ 2 ^ 53 →
       (∀ i id, recordIds c !! i = Some id →
          isId id (inject_Z (z + Z.of_nat (S i)))) ∧
       firstId c = Some (Js.ofZ (z + 1)) ∧
       (∀ i j a b, (i < j)%nat → recordIds c !! i = Some a →
          recordIds c !! j = Some b → Js.lt a b = true)) ∧
    (∃ rest,
       written c =
       [Padding; RetryHint 3000;
        Record_ (Js.add (Js.Finite r) (Js.ofZ 1)) connected cid
          (ConnectedData (Some (Js.Finite r)) (Js.Finite r)
             (buildRequestDebug req)) now] ++ rest ∧
       omap echoOf rest = [] ∧
       Forall (λ x, x = Js.Finite r) (omap clientEchoOf rest)) ∧
    (∀ req',
       query req !! "intervalMs" = query req' !! "intervalMs" →
       query req !! "closeAfter" = query req' !! "closeAfter" →
       query req !! "heartbeat" = query req' !! "heartbeat" →
       ∃ c', run es (accept Number_ cid now req') = Some c' ∧
             map shape (written c') = map shape (written c) ∧
             writableEnded c' = writableEnded c).
Proof.
  intros Hrun. destruct (parseLastEventId_finite Number_ req) as [r Hr].
  destruct (run_written _ _ _ Hrun) as (rest & Hw & Hecho & Hclient).
  rewrite accept_written, Hr in Hw.
  change (clientLastEventId (accept Number_ cid now req))
    with (parseLastEventId Number_ req) in Hclient.
  rewrite Hr in Hclient.
  exists r. split; [done|]. split; [|split].
  - intros z Hq Hz Hb.
    pose proof (run_ids_length _ _ _ Hrun) as Hlen.
    assert (z + 1 ≤ 2 ^ 53) as Hb1.
    { assert (1 ≤ length (recordIds (accept Number_ cid now req)))%nat
        by (unfold recordIds; rewrite accept_written; cbn; lia).
      lia. }
    pose proof (IdInv_run z _ _ _ Hz Hrun Hb
                  (IdInv_accept cid now req r z Hr Hq Hz Hb1)) as [Hn He].
    assert (Js.add (Js.Finite r) (Js.ofZ 1) = Js.ofZ (z + 1)) as E.
    { cbn [Js.add Js.ofZ]. apply round64_int; [|lia].
      rewrite Hq, inject_Z_plus. reflexivity. }
    split; [|split].
    + intros i id Hi. destruct (He _ _ Hi) as (y & -> & Hy).
      exists y. split; [done|]. by rewrite Hy, nthId_int.
    + unfold firstId, recordIds. rewrite Hw, E. reflexivity.
    + intros i j a b Hij Ha Hb'.
      apply (isId_lt _ _ _ _ (He _ _ Ha) (He _ _ Hb')).
      unfold nthId. apply Qplus_lt_r. rewrite <- Zlt_Qlt. lia.
  - exists rest. split; [exact Hw|]. split; [exact Hecho|exact Hclient].
  - intros req' Hi Hc Hh.
    destruct (sameSchedule_run _ _ _ _
                (accept_sameSchedule cid now req req' Hi Hc Hh) Hrun)
      as (c' & Hrun' & Hs).
    exists c'. split; [done|].
    destruct Hs as (_ & _ & _ & _ & _ & _ & _ & He' & Hw'). by split.
Qed.

End Emitter.

(** The connection of [requestA], resume point 41, over [sampleTicks]:
    the ids are 42, 43, ..., 48. *)
Lemma C5_ids_follow_the_resume_point_witness :
  run sampleTicks acceptedA = Some afterTicks ∧
  parseLastEventId digitsNumber requestA = Js.Finite 41 ∧
  recordIds afterTicks = map Js.ofZ [42; 43; 44; 45; 46; 47; 48] ∧
  firstId afterTicks = Some (Js.ofZ (41 + 1)).
Proof.
  assert (run sampleTicks acceptedA = Some afterTicks) as Hrun
    by (vm_compute; reflexivity).
  assert (parseLastEventId digitsNumber requestA = Js.Finite 41) as Hr
    by (vm_compute; reflexivity).
  assert (- 2 ^ 53 ≤ 41) as Hz by (vm_compute; discriminate).
  assert (41 + Z.of_nat (length (recordIds afterTicks)) ≤ 2 ^ 53) as Hb
    by (vm_compute; discriminate).
  split; [exact Hrun|]. split; [exact Hr|]. split; [vm_compute; reflexivity|].
  destruct (C5_ids_follow_the_resume_point digitsNumber _ _ _ _ _ Hrun)
    as (r & Hr' & Hids & _).
  assert (r == inject_Z 41)%Q as Hq.
  { unfold acceptedA in *. rewrite Hr in Hr'. injection Hr' as <-. reflexivity. }
  exact (proj1 (proj2 (Hids 41 Hq Hz Hb))).
Defined.

(** C5 as stated does not hold.  The ids do not start from the resume
    point: without one the counter starts at 0 and the first id is 1, and
    with the resume point 41 the first id is 42.  Nor are they strictly
    increasing for every resume point: for the resume point 2^53 the
    increment is lost to rounding, every id is 2^53, and only there does
    the first id equal the resume point. *)
Lemma C5_first_id_is_not_the_resume_point :
  parseLastEventId digitsNumber requestNoResume = Js.Finite 0 ∧
  recordIds acceptedNoResume = [Js.Finite 1] ∧
  firstId acceptedNoResume ≠ Some (parseLastEventId digitsNumber requestNoResume) ∧
  ¬ isId (default Js.NaN (firstId acceptedNoResume)) 0 ∧
  parseLastEventId digitsNumber requestA = Js.Finite 41 ∧
  firstId acceptedA = Some (Js.Finite 42) ∧
  firstId acceptedA ≠ Some (parseLastEventId digitsNumber requestA) ∧
  parseLastEventId digitsNumber requestHuge = Js.ofZ (2 ^ 53) ∧
  run hugeTicks acceptedHuge = Some afterHuge ∧
  recordIds afterHuge = [Js.ofZ (2 ^ 53); Js.ofZ (2 ^ 53); Js.ofZ (2 ^ 53)] ∧
  Js.lt (Js.ofZ (2 ^ 53)) (Js.ofZ (2 ^ 53)) = false.
Proof.
  repeat split; try (vm_compute; reflexivity).
  - vm_compute. discriminate.
  - intros (y & Hy & Hq). vm_compute in Hy. injection Hy as <-. discriminate Hq.
  - vm_compute. discriminate.
Qed.

(** *** The cap on business events *)

Lemma businessRecords_app c fs c' :
  written c' = written c ++ fs →
  businessRecords c' = businessRecords c ++ List.filter isBusiness fs.
Proof. unfold businessRecords. intros ->. apply List.filter_app. Qed.

Lemma filter_snoc_other c f :
  isBusiness f = false →
  length (List.filter isBusiness (written c ++ [f])) = length (businessRecords c).
Proof.
  intros Hf. unfold businessRecords. rewrite List.filter_app. cbn.
  by rewrite Hf, app_nil_r.
Qed.

Lemma CapInv_fire N e c :
  0 < N → enabled e c = true → CapInv N c → CapInv N (fire e c).
Proof.
  intros HN Hen [Hc Hcount Hbound Ht He Hq Hl]. destruct e; cbn [fire enabled] in *.
  - (* the repeated "connected" record *)
    unfold onConnectedRepeat. cbn.
    destruct (writableEnded c) eqn:Hended; cbn.
    + split; cbn; rewrite ?Hended; done.
    + split; cbn; rewrite ?Hended; try done.
      by rewrite filter_snoc_other.
  - (* a heartbeat comment *)
    apply bool_decide_eq_true in Hen.
    destruct (writableEnded c) eqn:Hended.
    { by destruct (Hq eq_refl) as [_ Hhb]. }
    split; cbn; rewrite ?Hended; try done.
    by rewrite filter_snoc_other.
  - (* a tick of the event timer *)
    specialize (Ht Hen).
    destruct (onTimer_written d now c) as (f & Hb & _ & Hw & _).
    pose proof (businessRecords_app _ _ _ Hw) as Hbr. cbn in Hbr. rewrite Hb in Hbr.
    assert (sentBusinessEvents (onTimer d now c) =
            Z.of_nat (length (businessRecords (onTimer d now c)))) as Hcount'.
    { rewrite onTimer_sent, Hbr, length_app, Hcount. cbn. lia. }
    assert (closeAfter (onTimer d now c) = Js.ofZ N) as Hc'
      by (by rewrite onTimer_closeAfter).
    assert (∃ l f, written (onTimer d now c) = l ++ [f] ∧ isBusiness f = true)
      as Hl' by eauto.
    revert Hcount' Hc' Hl'. clear Hw Hbr.
    unfold onTimer.
    set (c1 := set_sentBusinessEvents _ _).
    assert (closeAfter c1 = Js.ofZ N) as Hc1
      by (subst c1; by destruct (isTask d)).
    assert (sentBusinessEvents c1 = sentBusinessEvents c + 1) as Hs1
      by (subst c1; by destruct (isTask d)).
    assert (timer c1 = timer c ∧ writableEnded c1 = writableEnded c) as [Ht1 He1]
      by (subst c1; by destruct (isTask d)).
    rewrite Hc1, Hs1, gt_ofZ, ge_ofZ. clearbody c1.
    destruct (0 <? N) eqn:H0; [|apply Z.ltb_ge in H0; lia]. cbn [andb].
    destruct (N <=? sentBusinessEvents c + 1) eqn:Hcap.
    + apply Z.leb_le in Hcap. intros Hcount' Hc' Hl'.
      split; cbn; try done.
      * lia.
      * split; [intros _; lia|done].
      * intros _. split; [done|]. by destruct (hb c1).
    + apply Z.leb_gt in Hcap. intros Hcount' Hc' Hl'.
      split; try done.
      * lia.
      * intros _. lia.
      * rewrite He1, Hs1. split.
        -- intros Hended. apply He in Hended. lia.
        -- lia.
      * rewrite He1. intros Hended. apply He in Hended. lia.
  - (* the close event of the request *)
    split; cbn; try done.
    intros Hended. split; [done|]. by destruct (hb c).
Qed.

Lemma fire_sent e c :
  sentBusinessEvents (fire e c) =
  sentBusinessEvents c + (if isTimerFired e then 1 else 0).
Proof.
  destruct e; cbn [fire isTimerFired].
  - unfold onConnectedRepeat. cbn. destruct (writableEnded c); cbn; lia.
  - cbn. lia.
  - apply onTimer_sent.
  - cbn. lia.
Qed.

Lemma CapInv_run N es c c' :
  0 < N → CapInv N c → run es c = Some c' →
  CapInv N c' ∧
  sentBusinessEvents c' = sentBusinessEvents c + Z.of_nat (ticks es).
Proof.
  intros HN. revert c. induction es as [|e es IH]; intros c Hc; cbn.
  - intros [= <-]. split; [done|]. unfold ticks. cbn. lia.
  - destruct (enabled e c) eqn:Hen; [|done]. intros Hrun.
    destruct (IH _ (CapInv_fire _ _ _ HN Hen Hc) Hrun) as [HI Hs].
    split; [done|]. rewrite Hs, fire_sent. unfold ticks.
    cbn [List.filter]. destruct (isTimerFired e); cbn [length]; lia.
Qed.

Lemma ended_quiet N c e :
  CapInv N c → writableEnded c = true → enabled e c = true →
  written (fire e c) = written c.
Proof.
  intros HI Hended Hen. destruct (cap_quiet _ _ HI Hended) as [Ht Hhb].
  destruct e; cbn in *.
  - unfold onConnectedRepeat. cbn. by rewrite Hended.
  - by apply bool_decide_eq_true in Hen.
  - congruence.
  - done.
Qed.

(** Until the client closes the request, the event timer runs as long as
    the stream has not been ended. *)
Lemma alive_run es c c' :
  forallb (λ e, negb (isClosed e)) es = true →
  (writableEnded c = false → timer c = true) →
  run es c = Some c' →
  writableEnded c' = false → timer c' = true.
Proof.
  revert c. induction es as [|e es IH]; intros c; cbn.
  - by intros _ Hc [= <-].
  - intros [He Hes]%andb_true_iff Hc.
    destruct (enabled e c) eqn:Hen; [|done]. apply IH; [done|].
    destruct e; cbn in *; try done.
    + unfold onConnectedRepeat. cbn.
      destruct (writableEnded c) eqn:E; cbn; [congruence|auto].
    + unfold onTimer.
      set (c1 := set_sentBusinessEvents _ _).
      assert (timer c1 = timer c ∧ writableEnded c1 = writableEnded c) as [Ht1 He1]
        by (subst c1; by destruct (isTask d)).
      clearbody c1. destruct (_ && _); cbn; [done|]. by rewrite Ht1, He1.
Qed.

Section Cap.

Variable Number_ : string → Js.Number.

Lemma CapInv_accept cid now req s N :
  query req !! "closeAfter" = Some (QString s) →
  Number_ s = Js.ofZ N → 0 < N →
  CapInv N (accept Number_ cid now req).
Proof.
  intros Hq Hs HN. split; cbn; rewrite ?Hq; cbn; try done; [lia|].
  split; [done|lia].
Qed.

(** C7.  Let the cap [closeAfter] be the positive integer [n].  In every
    run of the connection, whatever heartbeats and "connected" records are
    interleaved, the number of application records written equals the
    number of ticks of the event timer, which equals the counter
    [sentBusinessEvents] and never exceeds [n]; the stream is ended
    exactly when that number is [n], in the tick that writes the [n]-th
    record, so that the [n]-th record is the last frame written and no
    callback writes anything afterwards; and until the client closes the
    request, the event timer keeps ticking while fewer than [n] records
    have been written. *)
Theorem C7_cap_enforcement cid now req (s : string) (n : Z) es c :
  query req !! "closeAfter" = Some (QString s) →
  Number_ s = Js.ofZ n →
  0 < n →
  run es (accept Number_ cid now req) = Some c →
  length (businessRecords c) = ticks es ∧
  sentBusinessEvents c = Z.of_nat (ticks es) ∧
  Z.of_nat (ticks es) ≤ n ∧
  (writableEnded c = true ↔ Z.of_nat (ticks es) = n) ∧
  (writableEnded c = true →
     (∃ l f, written c = l ++ [f] ∧ isBusiness f = true) ∧
     (∀ e, enabled e c = true → written (fire e c) = written c)) ∧
  (forallb (λ e, negb (isClosed e)) es = true →
   Z.of_nat (ticks es) < n →
   ∀ d t, enabled (TimerFired d t) c = true).
Proof.
  intros Hq Hs Hn Hrun.
  pose proof (CapInv_accept cid now req s n Hq Hs Hn) as HI0.
  destruct (CapInv_run _ _ _ _ Hn HI0 Hrun) as [HI Hsent].
  change (sentBusinessEvents (accept Number_ cid now req)) with 0 in Hsent.
  rewrite Z.add_0_l in Hsent.
  pose proof (cap_count _ _ HI) as Hcount.
  pose proof (cap_bound _ _ HI) as Hbound.
  pose proof (cap_ended _ _ HI) as Hended.
  split; [lia|]. split; [done|]. split; [lia|]. split; [by rewrite <- Hsent|].
  split.
  - intros He. split; [by apply (cap_last _ _ HI)|].
    intros e. by apply (ended_quiet n).
  - intros Hopen Hlt d t. cbn.
    apply (alive_run es (accept Number_ cid now req) c Hopen); [done|done|].
    destruct (writableEnded c); [|done].
    destruct Hended as [Hended _]. specialize (Hended eq_refl). lia.
Qed.

End Cap.

(** The cap 5 of [requestA], whose heartbeat is disabled: five ticks write
    five application records, and the fifth ends the stream. *)
Lemma C7_cap_enforcement_witness :
  run sampleTicks acceptedA = Some afterTicks ∧
  hb acceptedA = None ∧
  length (businessRecords afterTicks) = 5%nat ∧
  writableEnded afterTicks = true.
Proof.
  assert (run sampleTicks acceptedA = Some afterTicks) as Hrun
    by (vm_compute; reflexivity).
  split; [exact Hrun|]. split; [vm_compute; reflexivity|].
  assert (requestA.(query) !! "closeAfter" = Some (QString "5")) as Hq
    by (vm_compute; reflexivity).
  assert (digitsNumber "5" = Js.ofZ 5) as Hs by (vm_compute; reflexivity).
  assert (0 < 5) as H5 by lia.
  destruct (C7_cap_enforcement digitsNumber _ _ _ _ _ _ _ Hq Hs H5 Hrun)
    as (Hlen & _ & _ & Hend & _).
  split; [exact Hlen|]. apply Hend. vm_compute. reflexivity.
Defined.

End ServerFacts.

(** ** Facts about the consumers *)

Module ConsumerFacts.
Import Consumer.

Local Open Scope Z_scope.

Section WithParse.

Variable JSON_parse : string → option Json.

Lemma handler_expected kind d now w :
  handler JSON_parse kind d now w = Normal (expected JSON_parse kind w (d, now)).
Proof.
  unfold handler, expected, wellFormed, safeJsonParse, JSON_parse_. cbn.
  destruct (JSON_parse d) as [[| b | q | s | items | fields]|]; cbn; try done.
  - by destruct b.
  - by destruct (Qeq_bool q 0).
  - by case_bool_decide.
  - destruct (field "type" fields) as [[| | | s | |]|]; cbn; try done.
    by destruct (String.eqb s kind).
Qed.

Lemma dispatch_expectedAll kind evts w :
  dispatch JSON_parse kind evts w = Normal (expectedAll JSON_parse kind evts w).
Proof.
  revert w. induction evts as [|[d now] evts IH]; intros w; [done|].
  cbn [dispatch]. rewrite handler_expected. cbn. apply IH.
Qed.

(** The error counter does not feed into what is shown and counted as
    received. *)
Lemma expectedAll_errorCount_irrelevant kind evts w1 w2 :
  entries w1 = entries w2 → eventCount w1 = eventCount w2 →
  entries (expectedAll JSON_parse kind evts w1) =
  entries (expectedAll JSON_parse kind evts w2) ∧
  eventCount (expectedAll JSON_parse kind evts w1) =
  eventCount (expectedAll JSON_parse kind evts w2).
Proof.
  revert w1 w2. induction evts as [|evt evts IH]; intros w1 w2 He Hc; [done|].
  cbn. apply IH; unfold expected;
    destruct (wellFormed JSON_parse kind evt.1); cbn; congruence.
Qed.

Lemma expectedAll_cons kind evt evts w :
  expectedAll JSON_parse kind (evt :: evts) w =
  expectedAll JSON_parse kind evts (expected JSON_parse kind w evt).
Proof. done. Qed.

Lemma expectedAll_filter kind evts w :
  let w' := expectedAll JSON_parse kind evts w in
  let w'' := expectedAll JSON_parse kind
               (List.filter (isWellFormed JSON_parse kind) evts) w in
  entries w' = entries w'' ∧
  eventCount w' = eventCount w'' ∧
  errorCount w'' = errorCount w ∧
  errorCount w' =
  errorCount w +
  Z.of_nat (length (List.filter (λ e, negb (isWellFormed JSON_parse kind e)) evts)).
Proof.
  revert w. induction evts as [|evt evts IH]; intros w; cbn zeta.
  - cbn. repeat split; lia.
  - cbn [List.filter]. rewrite expectedAll_cons.
    destruct (wellFormed JSON_parse kind evt.1) as [v|] eqn:Hwf.
    + assert (isWellFormed JSON_parse kind evt = true) as ->.
      { unfold isWellFormed. rewrite Hwf. by apply bool_decide_eq_true_2. }
      cbn [negb]. rewrite expectedAll_cons.
      assert (expected JSON_parse kind w evt = shown v evt.2 w) as ->
        by (unfold expected; by rewrite Hwf).
      destruct (IH (shown v evt.2 w)) as (H1 & H2 & H3 & H4). cbn in H3, H4.
      repeat split; done.
    + assert (isWellFormed JSON_parse kind evt = false) as ->.
      { unfold isWellFormed. rewrite Hwf. apply bool_decide_eq_false_2.
        by intros [? ?]. }
      cbn [negb length].
      assert (expected JSON_parse kind w evt = counted w) as ->
        by (unfold expected; by rewrite Hwf).
      destruct (IH (counted w)) as (H1 & H2 & H3 & H4). cbn in H3, H4.
      destruct (expectedAll_errorCount_irrelevant kind
                  (List.filter (isWellFormed JSON_parse kind) evts) (counted w) w
                  eq_refl eq_refl) as [H5 H6].
      destruct (IH w) as (_ & _ & H7 & _).
      repeat split; try congruence. lia.
Qed.

(** C8.  The listener never throws.  A record whose data line does not
    parse, or parses to something other than an object whose [type] is
    the subscribed kind, adds 1 to the error counter and changes nothing
    else; a well-formed record is counted and shown.  Over a whole
    sequence, what is shown and counted as received is what the
    well-formed records alone would give, and the error counter grows by
    the number of the others. *)
Theorem C8_malformed_records_are_counted kind :
  (∀ d now w,
     handler JSON_parse kind d now w =
     Normal (expected JSON_parse kind w (d, now))) ∧
  (∀ d now w,
     (JSON_parse d = None ∨ wellFormed JSON_parse kind d = None) →
     handler JSON_parse kind d now w =
     Normal {| entries := entries w;
               eventCount := eventCount w;
               errorCount := errorCount w + 1 |}) ∧
  (∀ evts w,
     ∃ w',
       dispatch JSON_parse kind evts w = Normal w' ∧
       errorCount w' =
       errorCount w +
       Z.of_nat (length (List.filter
                   (λ e, negb (isWellFormed JSON_parse kind e)) evts)) ∧
       ∃ w'',
         dispatch JSON_parse kind
           (List.filter (isWellFormed JSON_parse kind) evts) w = Normal w'' ∧
         entries w' = entries w'' ∧
         eventCount w' = eventCount w'' ∧
         errorCount w'' = errorCount w).
Proof.
  split; [|split].
  - apply handler_expected.
  - intros d now w Hbad. rewrite handler_expected. unfold expected. cbn.
    assert (wellFormed JSON_parse kind d = None) as ->; [|done].
    destruct Hbad as [Hp|Hw]; [|done]. unfold wellFormed. by rewrite Hp.
  - intros evts w. eexists. split; [apply dispatch_expectedAll|].
    destruct (expectedAll_filter kind evts w) as (H1 & H2 & H3 & H4).
    split; [done|]. eexists. split; [apply dispatch_expectedAll|]. done.
Qed.

End WithParse.

(** The tasks widget on [sampleEvents]: the two task records are shown,
    newest first, and the three other records are counted as errors. *)
Lemma C8_malformed_records_are_counted_witness :
  TasksWidget_handler tableParse "{oops" 1001 emptyWidget =
  Normal {| entries := []; eventCount := 0; errorCount := 1 |} ∧
  dispatch tableParse "task" sampleEvents emptyWidget =
  Normal {| entries := [(JObject [("type"%string, JString "task")], 1004);
                        (JObject [("type"%string, JString "task")], 1000)];
            eventCount := 2;
            errorCount := 3 |}.
Proof.
  split; [|vm_compute; reflexivity].
  refine (proj1 (proj2 (C8_malformed_records_are_counted tableParse "task"))
            "{oops"%string 1001 emptyWidget _).
  left. vm_compute. reflexivity.
Defined.

End ConsumerFacts.

(** ** Facts about retry timers and visibility *)

Module RetryFacts.
Import Lifecycle LifecycleFacts Retry.

Local Open Scope Z_scope.

Lemma filter_single {A} (P : A → Prop) `{!∀ x, Decision (P x)} (l : list A) c :
  (∀ i x, l !! i = Some x → P x → i = c) → (length (filter P l) ≤ 1)%nat.
Proof.
  revert c. induction l as [|x l IH]; intros c Hl; [cbn; lia|].
  rewrite filter_cons. destruct (decide (P x)) as [HP|_].
  - rewrite (filter_none P l); [cbn; lia|].
    intros i y Hy HPy. pose proof (Hl 0%nat x eq_refl HP).
    pose proof (Hl (S i) y Hy HPy). lia.
  - destruct c as [|c].
    + rewrite (filter_none P l); [cbn; lia|].
      intros i y Hy HPy. pose proof (Hl (S i) y Hy HPy). lia.
    + apply (IH c). intros i y Hy HPy.
      pose proof (Hl (S i) y Hy HPy). lia.
Qed.

Lemma retryInv_None s : retryTimerRef s = None → retryInv s.
Proof. intros H t. by rewrite H. Qed.

Lemma closeCurrent_retryInv s : retryInv s → retryInv (closeCurrent s).
Proof.
  intros HI t. rewrite closeCurrent_timer, closeCurrent_ref,
    closeCurrent_timeouts, closeCurrent_attempt.
  intros Ht. by destruct (HI t Ht).
Qed.

Lemma retryInv_fire e s :
  enabled e s = true → Inv s → retryInv s → retryInv (fire e s).
Proof.
  intros Hen HI HR.
  assert (∀ s0, retryInv (connect s0)) as Hconnect.
  { intros s0. apply retryInv_None, connect_timer. }
  destruct e; cbn [fire].
  - apply Hconnect.
  - apply retryInv_None. unfold unmount.
    by rewrite closeCurrent_timer, clearRetryTimer_timer.
  - apply Hconnect.
  - (* open: no timer can be held while a transport is connecting *)
    intros t Ht. cbn in Ht. destruct (HR t Ht) as [Href _].
    cbn in Hen. apply bool_decide_eq_true in Hen. unfold readyStateOf in Hen.
    destruct (sources s !! es) as [e|] eqn:He; [|done].
    assert (readyState e ≠ CLOSED) as Hopen.
    { cbn in Hen. injection Hen as ->. done. }
    pose proof (inv_live _ HI _ _ He Hopen). congruence.
  - intros t. rewrite onerror_attempt. unfold onerror, setTimeout. cbn.
    intros [= <-]. rewrite clearRetryTimer_ref. cbn.
    split; [done|]. by rewrite list_lookup_middle.
  - intros t Ht. cbn in *. by apply HR.
  - destruct v; cbn.
    + intros t Ht. cbn in *. by apply HR.
    + destruct (match eventSourceRef s with Some h => _ | None => _ end);
        [apply Hconnect|].
      destruct (hiddenAtRef s); [|intros t Ht; cbn in *; by apply HR].
      destruct (_ || _); [apply Hconnect|]. intros t Ht. cbn in *. by apply HR.
  - apply Hconnect.
  - unfold onPageHide. destruct persisted; [done|].
    apply closeCurrent_retryInv. intros t Ht. cbn in *. by apply HR.
  - apply closeCurrent_retryInv. intros t Ht. cbn in *. by apply HR.
Qed.

Lemma reachable_retryInv s : reachable s → retryInv s.
Proof.
  induction 1 as [thr|s e Hs IH Hen].
  - by apply retryInv_None.
  - apply retryInv_fire; [done|by apply reachable_Inv|done].
Qed.

Lemma filter_some {A} (P : A → Prop) `{!∀ x, Decision (P x)} (l : list A) i x :
  l !! i = Some x → P x → (1 ≤ length (filter P l))%nat.
Proof.
  intros Hi HP.
  assert (x ∈ filter P l) as Hin.
  { apply list_elem_of_filter. split; [done|]. by eapply list_elem_of_lookup_2. }
  destruct (filter P l); [by apply not_elem_of_nil in Hin|cbn; lia].
Qed.

Lemma Inv_allClosed s : Inv s → eventSourceRef s = None → allClosed s.
Proof.
  intros HI Hr h e He. destruct (decide (readyState e = CLOSED)) as [|Hopen]; [done|].
  pose proof (inv_live _ HI _ _ He Hopen). congruence.
Qed.

Lemma Inv_nonePending s : Inv s → retryTimerRef s = None → nonePending s.
Proof.
  intros HI Hr t x Hx. destruct (pending x) eqn:Hp; [|done].
  pose proof (inv_timer _ HI _ _ Hx Hp). congruence.
Qed.

Lemma allClosed_live s : allClosed s → liveTransports s = 0%nat.
Proof.
  intros Hc. unfold liveTransports. rewrite filter_none; [done|].
  intros h e He Hopen. by apply Hopen, (Hc h).
Qed.

Lemma nonePending_count s : nonePending s → pendingTimeouts s = 0%nat.
Proof.
  intros Hc. unfold pendingTimeouts. rewrite filter_none; [done|].
  intros t x Hx Hp. specialize (Hc _ _ Hx). congruence.
Qed.

(** X1.  At every reachable state at most one timeout is pending, a
    pending timeout is the one held in [retryTimerRef], and none is
    pending when the ref is empty. *)
Theorem one_pending_retry s :
  reachable s →
  (pendingTimeouts s ≤ 1)%nat ∧
  (∀ t x, timeouts s !! t = Some x → pending x = true → retryTimerRef s = Some t) ∧
  (retryTimerRef s = None → pendingTimeouts s = 0%nat).
Proof.
  intros Hs. pose proof (reachable_Inv _ Hs) as HI.
  split; [|split].
  - destruct (retryTimerRef s) as [c|] eqn:Hc.
    + unfold pendingTimeouts. apply (filter_single _ _ c). intros i x Hx Hp.
      pose proof (inv_timer _ HI _ _ Hx Hp). congruence.
    + rewrite (nonePending_count s); [lia|]. by apply Inv_nonePending.
  - apply (inv_timer _ HI).
  - intros Hr. by apply nonePending_count, Inv_nonePending.
Qed.

Lemma one_pending_retry_witness :
  run [Mount; Opened 0; Errored 0]%nat (initial 10000) = Some afterError ∧
  (pendingTimeouts afterError ≤ 1)%nat.
Proof.
  assert (run [Mount; Opened 0; Errored 0]%nat (initial 10000) = Some afterError)
    as Hrun by (vm_compute; reflexivity).
  split; [exact Hrun|].
  exact (proj1 (one_pending_retry _
           (run_reachable _ _ _ (reachable_initial 10000) Hrun))).
Defined.

(** X2.  Waiting for a retry and holding a transport exclude each other:
    while [retryTimerRef] holds a timer, that timer is the one pending
    timeout, no handle is held and every transport is closed; while a
    handle is held, no timer is held and no timeout is pending. *)
Theorem retry_excludes_transport s :
  reachable s →
  (is_Some (retryTimerRef s) →
     eventSourceRef s = None ∧ liveTransports s = 0%nat ∧
     pendingTimeouts s = 1%nat) ∧
  (is_Some (eventSourceRef s) →
     retryTimerRef s = None ∧ pendingTimeouts s = 0%nat).
Proof.
  intros Hs. pose proof (reachable_Inv _ Hs) as HI.
  pose proof (reachable_retryInv _ Hs) as HR.
  assert (∀ t, retryTimerRef s = Some t →
            eventSourceRef s = None ∧ liveTransports s = 0%nat ∧
            pendingTimeouts s = 1%nat) as Hheld.
  { intros t Ht. destruct (HR t Ht) as [Href Hx].
    split; [done|]. split; [by apply allClosed_live, Inv_allClosed|].
    assert (pendingTimeouts s ≤ 1)%nat.
    { apply (filter_single _ _ t). intros i x Hi Hp.
      pose proof (inv_timer _ HI _ _ Hi Hp). congruence. }
    assert (1 ≤ pendingTimeouts s)%nat by (by eapply filter_some).
    lia. }
  split.
  - intros [t Ht]. by apply (Hheld t).
  - intros [h Hh]. destruct (retryTimerRef s) as [t|] eqn:Ht.
    + destruct (Hheld t eq_refl) as [Href _]. congruence.
    + split; [done|]. by apply nonePending_count, Inv_nonePending.
Qed.

Lemma retry_excludes_transport_witness :
  run [Mount; Opened 0; Errored 0]%nat (initial 10000) = Some afterError ∧
  retryTimerRef afterError = Some 0%nat ∧
  eventSourceRef afterError = None ∧
  liveTransports afterError = 0%nat.
Proof.
  assert (run [Mount; Opened 0; Errored 0]%nat (initial 10000) = Some afterError)
    as Hrun by (vm_compute; reflexivity).
  split; [exact Hrun|]. split; [vm_compute; reflexivity|].
  destruct (proj1 (retry_excludes_transport _
              (run_reachable _ _ _ (reachable_initial 10000) Hrun)))
    as (H1 & H2 & _).
  - exists 0%nat. vm_compute. reflexivity.
  - exact (conj H1 H2).
Defined.

(** *** The delay *)

Lemma backoffDelay_cases a :
  0 ≤ a →
  a = 0 ∨ a = 1 ∨ a = 2 ∨ a = 3 ∨ a = 4 ∨ a = 5 ∨ a = 6 ∨ 7 ≤ a.
Proof. lia. Qed.

Lemma backoffDelay_range a :
  0 ≤ a → (500 <= backoffDelay a)%Q ∧ (backoffDelay a <= 30000)%Q.
Proof.
  intros Ha.
  destruct (backoffDelay_cases a Ha) as [->|[->|[->|[->|[->|[->|[->|H7]]]]]]];
    [split; vm_compute; discriminate..|].
  rewrite (backoffDelay_capped a H7). split; vm_compute; discriminate.
Qed.

Lemma backoffDelay_step a : 0 ≤ a → (backoffDelay a <= backoffDelay (a + 1))%Q.
Proof.
  intros Ha.
  destruct (backoffDelay_cases a Ha) as [->|[->|[->|[->|[->|[->|[->|H7]]]]]]];
    [vm_compute; discriminate..|].
  rewrite (backoffDelay_capped a H7), (backoffDelay_capped (a + 1)) by lia.
  apply Qle_refl.
Qed.

(** X3.  The delay computed by [es.onerror] never decreases as the attempt
    counter grows, starts at 500 ms for the counter 0, and is 30000 ms
    from the counter 6 on. *)
Theorem backoffDelay_monotone a b :
  0 ≤ a → a ≤ b →
  (backoffDelay a <= backoffDelay b)%Q ∧
  (500 <= backoffDelay a)%Q ∧ (backoffDelay b <= 30000)%Q ∧
  (6 ≤ a → (backoffDelay a == 30000)%Q).
Proof.
  intros Ha Hab. split; [|split; [|split]].
  - replace b with (a + Z.of_nat (Z.to_nat (b - a))) by lia.
    induction (Z.to_nat (b - a)) as [|n IH]; [rewrite Z.add_0_r; apply Qle_refl|].
    eapply Qle_trans; [exact IH|].
    replace (a + Z.of_nat (S n)) with (a + Z.of_nat n + 1) by lia.
    apply backoffDelay_step. lia.
  - by apply backoffDelay_range.
  - apply backoffDelay_range. lia.
  - intros H6. destruct (decide (a = 6)) as [->|]; [reflexivity|].
    apply backoffDelay_capped. lia.
Qed.

Lemma backoffDelay_monotone_witness :
  (backoffDelay 2 <= backoffDelay 9)%Q.
Proof.
  assert (0 ≤ 2) as H0 by lia. assert (2 ≤ 9) as H1 by lia.
  exact (proj1 (backoffDelay_monotone 2 9 H0 H1)).
Defined.

(** X4.  At every reachable state the delay of the timer held in
    [retryTimerRef] is the one computed from the current attempt counter,
    and lies between 500 and 30000 milliseconds. *)
Theorem retry_delay_in_range s d :
  reachable s →
  scheduledDelay s = Some d →
  d = backoffDelay (attemptCountRef s) ∧ (500 <= d)%Q ∧ (d <= 30000)%Q.
Proof.
  intros Hs. pose proof (reachable_Inv _ Hs) as HI.
  pose proof (reachable_retryInv _ Hs) as HR.
  unfold scheduledDelay. destruct (retryTimerRef s) as [t|] eqn:Ht; [|done].
  destruct (HR t Ht) as [_ ->]. cbn. intros [= <-].
  split; [done|]. apply backoffDelay_range, (inv_attempt _ HI).
Qed.

Lemma retry_delay_in_range_witness :
  scheduledDelay afterError = Some (backoffDelay 0) ∧
  (500 <= backoffDelay 0)%Q.
Proof.
  assert (run [Mount; Opened 0; Errored 0]%nat (initial 10000) = Some afterError)
    as Hrun by (vm_compute; reflexivity).
  assert (scheduledDelay afterError = Some (backoffDelay 0)) as Hd
    by (vm_compute; reflexivity).
  split; [exact Hd|].
  exact (proj1 (proj2 (retry_delay_in_range _ _
           (run_reachable _ _ _ (reachable_initial 10000) Hrun) Hd))).
Defined.

(** *** Coming back to the foreground *)

Lemma isClosed_hiddenAt o h s : isClosed h (set_hiddenAtRef o s) = isClosed h s.
Proof. done. Qed.

Lemma clearRetryTimer_hiddenAt s : hiddenAtRef (clearRetryTimer s) = hiddenAtRef s.
Proof. unfold clearRetryTimer. by destruct (retryTimerRef s). Qed.

Lemma closeCurrent_hiddenAt s : hiddenAtRef (closeCurrent s) = hiddenAtRef s.
Proof. unfold closeCurrent. by destruct (eventSourceRef s). Qed.

Lemma connect_hiddenAt s : hiddenAtRef (connect s) = hiddenAtRef s.
Proof.
  unfold connect, newEventSource. cbn -[clearRetryTimer closeCurrent].
  by rewrite clearRetryTimer_hiddenAt, closeCurrent_hiddenAt.
Qed.

Lemma onVisibilityChange_eq v now s :
  onVisibilityChange v now s =
  match v with
  | hidden => set_hiddenAtRef (Some now) s
  | visible =>
      let s0 := set_hiddenAtRef None s in
      if negb (holdsLive s) then connect (clearRetryTimer s0)
      else
        match hiddenAtRef s with
        | Some at_ =>
            if (backgroundThresholdRef s =? 0)
               || (backgroundThresholdRef s <? now - at_)
            then connect (clearRetryTimer (closeCurrent s0))
            else s0
        | None => s0
        end
  end.
Proof.
  destruct v; [done|].
  unfold onVisibilityChange, holdsLive. destruct (eventSourceRef s) as [h|]; [|done].
  rewrite isClosed_hiddenAt. by destruct (isClosed h s).
Qed.

Lemma onVisible_eq now s :
  onVisibilityChange visible now s =
  let s0 := set_hiddenAtRef None s in
  if negb (holdsLive s) then connect (clearRetryTimer s0)
  else
    match hiddenAtRef s with
    | Some at_ =>
        if (backgroundThresholdRef s =? 0) || (backgroundThresholdRef s <? now - at_)
        then connect (clearRetryTimer (closeCurrent s0))
        else s0
    | None => s0
    end.
Proof. exact (onVisibilityChange_eq visible now s). Qed.

(** X5.  The page is hidden at [t1] and visible again at [t2].  The
    provider reconnects (a new transport is created and published, the
    generation grows by 1) when it holds no transport that is not closed,
    or its threshold is 0, or the page was hidden for longer than the
    threshold; otherwise nothing changes but [hiddenAtRef], which is
    cleared either way. *)
Theorem foreground_reconnect_rule t1 t2 s :
  let s' := backgrounded t1 t2 s in
  let forced :=
    negb (holdsLive s) || (backgroundThresholdRef s =? 0)
    || (backgroundThresholdRef s <? t2 - t1) in
  hiddenAtRef s' = None ∧
  (forced = true →
     instanceId s' = instanceId s + 1 ∧
     eventSourceRef s' = Some (length (sources s)) ∧
     sources s' !! length (sources s) =
     Some {| readyState := CONNECTING; dispatched := 0 |} ∧
     retryTimerRef s' = None) ∧
  (forced = false → s' = set_hiddenAtRef None s).
Proof.
  cbn zeta. unfold backgrounded. cbn [fire].
  change (onVisibilityChange hidden t1 s) with (set_hiddenAtRef (Some t1) s).
  rewrite onVisible_eq.
  change (holdsLive (set_hiddenAtRef (Some t1) s)) with (holdsLive s).
  cbn -[connect clearRetryTimer closeCurrent holdsLive Z.eqb Z.ltb Z.sub].
  set (s0 := set_hiddenAtRef None (set_hiddenAtRef (Some t1) s)).
  assert (s0 = set_hiddenAtRef None s) as Hs0 by done.
  assert (∀ s1, instanceId s1 = instanceId s →
                length (sources s1) = length (sources s) →
                hiddenAtRef s1 = None →
     hiddenAtRef (connect s1) = None ∧
     instanceId (connect s1) = instanceId s + 1 ∧
     eventSourceRef (connect s1) = Some (length (sources s)) ∧
     sources (connect s1) !! length (sources s) =
     Some {| readyState := CONNECTING; dispatched := 0 |} ∧
     retryTimerRef (connect s1) = None) as Hconnect.
  { intros s1 Hi Hl Hh. rewrite connect_instanceId, connect_ref, connect_timer, Hi.
    rewrite <- Hl, connect_new_source. repeat split; try done.
    by rewrite connect_hiddenAt. }
  assert (hiddenAtRef (clearRetryTimer s0) = None) as Hh1
    by by rewrite clearRetryTimer_hiddenAt.
  assert (hiddenAtRef (clearRetryTimer (closeCurrent s0)) = None) as Hh2
    by by rewrite clearRetryTimer_hiddenAt, closeCurrent_hiddenAt.
  destruct (holdsLive s); cbn [negb orb].
  - destruct ((backgroundThresholdRef s =? 0)
              || (backgroundThresholdRef s <? t2 - t1)).
    + destruct (Hconnect (clearRetryTimer (closeCurrent s0))) as (H1 & H2);
        [by rewrite clearRetryTimer_instanceId, closeCurrent_instanceId
        |by rewrite clearRetryTimer_sources, closeCurrent_length|done|].
      split; [done|]. split; [done|]. done.
    + split; [done|]. split; [done|]. done.
  - destruct (Hconnect (clearRetryTimer s0)) as (H1 & H2);
      [by rewrite clearRetryTimer_instanceId
      |by rewrite clearRetryTimer_sources|done|].
    split; [done|]. split; [done|]. done.
Qed.

(** *** Cleanup, page unload, reconnection *)

Lemma all_closed_disabled s es :
  allClosed s →
  enabled (Opened es) s = false ∧ enabled (Message es) s = false ∧
  enabled (Errored es) s = false.
Proof.
  intros Hc. cbn. unfold isClosed, readyStateOf.
  destruct (sources s !! es) as [e|] eqn:He; cbn.
  - rewrite (Hc _ _ He). repeat split; by apply bool_decide_eq_false.
  - repeat split; by apply bool_decide_eq_false.
Qed.

(** X6.  After the cleanup of the lifecycle effect nothing of the provider
    is left running: no handle and no timer are held, every transport is
    closed, no timeout is pending, so no retry can fire and no transport
    can open, fail or deliver a record. *)
Theorem unmount_quiesces s :
  reachable s →
  let s' := fire Unmount s in
  eventSourceRef s' = None ∧ retryTimerRef s' = None ∧
  liveTransports s' = 0%nat ∧ pendingTimeouts s' = 0%nat ∧
  (∀ t, enabled (TimerFired t) s' = false) ∧
  (∀ es, enabled (Opened es) s' = false ∧ enabled (Message es) s' = false ∧
         enabled (Errored es) s' = false).
Proof.
  intros Hs. cbn zeta.
  assert (Inv (fire Unmount s)) as HI by (by apply Inv_fire, reachable_Inv).
  cbn [fire] in *. unfold unmount in *.
  assert (eventSourceRef (closeCurrent (clearRetryTimer s)) = None) as Hr
    by apply closeCurrent_ref.
  assert (retryTimerRef (closeCurrent (clearRetryTimer s)) = None) as Ht
    by (by rewrite closeCurrent_timer, clearRetryTimer_timer).
  pose proof (Inv_allClosed _ HI Hr) as Hc.
  pose proof (Inv_nonePending _ HI Ht) as Hp.
  split; [done|]. split; [done|].
  split; [by apply allClosed_live|]. split; [by apply nonePending_count|].
  split; [|intros es; by apply all_closed_disabled].
  intros t. cbn. apply bool_decide_eq_false.
  destruct (timeouts (closeCurrent (clearRetryTimer s)) !! t) as [x|] eqn:Hx; [|done].
  cbn. by rewrite (Hp _ _ Hx).
Qed.

Lemma unmount_quiesces_witness :
  run [Mount; Opened 0; Errored 0]%nat (initial 10000) = Some afterError ∧
  pendingTimeouts afterError = 1%nat ∧
  pendingTimeouts (fire Unmount afterError) = 0%nat ∧
  enabled (TimerFired 0) (fire Unmount afterError) = false.
Proof.
  assert (run [Mount; Opened 0; Errored 0]%nat (initial 10000) = Some afterError)
    as Hrun by (vm_compute; reflexivity).
  split; [exact Hrun|]. split; [vm_compute; reflexivity|].
  destruct (unmount_quiesces _
              (run_reachable _ _ _ (reachable_initial 10000) Hrun))
    as (_ & _ & _ & H4 & H5 & _).
  exact (conj H4 (H5 0%nat)).
Defined.

(** X7.  When the page goes away ([pagehide] without [persisted], or
    [beforeunload]) one beacon is sent and the transport is closed and
    unpublished, but the retry timer, the timeouts, the generation and the
    attempt counter are left as they were; a [pagehide] of a page kept in
    the back-forward cache changes nothing. *)
Theorem page_unload_closes e s :
  reachable s → isUnload e = true →
  let s' := fire e s in
  beacons s' = S (beacons s) ∧
  eventSourceRef s' = None ∧ liveTransports s' = 0%nat ∧
  retryTimerRef s' = retryTimerRef s ∧ timeouts s' = timeouts s ∧
  instanceId s' = instanceId s ∧ attemptCountRef s' = attemptCountRef s ∧
  fire (PageHide true) s = s.
Proof.
  intros Hs He. cbn zeta.
  assert (fire e s = closeCurrent (sendBeacon s)) as ->.
  { destruct e as [| | | | | | | |[]|]; try done. }
  assert (Inv (closeCurrent (sendBeacon s))) as HI
    by (by apply Inv_closeCurrent, Inv_sendBeacon, reachable_Inv).
  rewrite closeCurrent_ref, closeCurrent_timer, closeCurrent_timeouts,
    closeCurrent_instanceId, closeCurrent_attempt.
  split; [unfold closeCurrent; by destruct (eventSourceRef (sendBeacon s))|].
  split; [done|].
  split; [by apply allClosed_live, Inv_allClosed; [|apply closeCurrent_ref]|].
  done.
Qed.

Lemma page_unload_closes_witness :
  run [Mount; Opened 0; Errored 0]%nat (initial 10000) = Some afterError ∧
  beacons (fire BeforeUnload afterError) = 1%nat ∧
  retryTimerRef (fire BeforeUnload afterError) = Some 0%nat.
Proof.
  assert (run [Mount; Opened 0; Errored 0]%nat (initial 10000) = Some afterError)
    as Hrun by (vm_compute; reflexivity).
  split; [exact Hrun|].
  destruct (page_unload_closes BeforeUnload _
              (run_reachable _ _ _ (reachable_initial 10000) Hrun) eq_refl)
    as (H1 & _ & _ & H4 & _).
  split; [exact H1|]. rewrite H4. vm_compute. reflexivity.
Defined.

Lemma Inv_connect_counts s :
  Inv s → liveTransports (connect s) = 1%nat ∧ pendingTimeouts (connect s) = 0%nat.
Proof.
  intros HI. split.
  - unfold liveTransports. rewrite connect_sources, filter_app.
    rewrite (filter_none _ (sources (closeCurrent s))).
    + rewrite filter_cons, filter_nil. cbn.
      destruct (decide _) as [|Hn]; [done|by destruct Hn].
    + intros h e He Hopen. apply Hopen.
      by apply (closeCurrent_allClosed s (inv_live _ HI) h).
  - apply nonePending_count, Inv_nonePending; [by apply Inv_connect|].
    apply connect_timer.
Qed.

(** X8.  The first effect, a retry timer that fires and the [online]
    event each leave exactly one transport that is not closed, the one
    just created and published, still connecting, and no pending timeout;
    the attempt counter grows by 1 (the [online] event does not reset
    it). *)
Theorem reconnect_leaves_one_transport e s :
  reachable s → enabled e s = true → isReconnect e = true →
  let s' := fire e s in
  liveTransports s' = 1%nat ∧ pendingTimeouts s' = 0%nat ∧
  eventSourceRef s' = Some (length (sources s)) ∧
  readyStateOf (length (sources s)) s' = Some CONNECTING ∧
  retryTimerRef s' = None ∧
  attemptCountRef s' = attemptCountRef s + 1.
Proof.
  intros Hs Hen He. cbn zeta. pose proof (reachable_Inv _ Hs) as HI.
  assert (∃ s0, fire e s = connect s0 ∧ Inv s0 ∧
                length (sources s0) = length (sources s) ∧
                attemptCountRef s0 = attemptCountRef s) as (s0 & -> & HI0 & Hl & Ha).
  { destruct e; try done; cbn [fire].
    - by exists s.
    - exists (clearTimeout t s). split; [done|]. split; [by apply Inv_clearTimeout|done].
    - exists (clearRetryTimer (closeCurrent s)). split; [done|].
      split; [by apply Inv_clearRetryTimer, Inv_closeCurrent|].
      by rewrite clearRetryTimer_sources, closeCurrent_length,
           clearRetryTimer_attempt, closeCurrent_attempt. }
  destruct (Inv_connect_counts _ HI0) as [H1 H2].
  rewrite connect_ref, connect_timer, connect_attempt, Hl, Ha.
  repeat split; try done.
  unfold readyStateOf. by rewrite <- Hl, connect_new_source.
Qed.

Lemma reconnect_leaves_one_transport_witness :
  run [Mount; Opened 0; Errored 0]%nat (initial 10000) = Some afterError ∧
  liveTransports (fire Online afterError) = 1%nat ∧
  attemptCountRef (fire Online afterError) = 1.
Proof.
  assert (run [Mount; Opened 0; Errored 0]%nat (initial 10000) = Some afterError)
    as Hrun by (vm_compute; reflexivity).
  split; [exact Hrun|].
  destruct (reconnect_leaves_one_transport Online _
              (run_reachable _ _ _ (reachable_initial 10000) Hrun) eq_refl eq_refl)
    as (H1 & _ & _ & _ & _ & H6).
  split; [exact H1|]. rewrite H6. vm_compute. reflexivity.
Defined.

(** *** Closed transports *)

Lemma isClosed_spec h s :
  isClosed h s = true ↔ ∃ e, sources s !! h = Some e ∧ readyState e = CLOSED.
Proof.
  unfold isClosed, readyStateOf. rewrite bool_decide_eq_true.
  destruct (sources s !! h) as [e|]; cbn; split.
  - intros [= H]. by exists e.
  - intros (e' & [= <-] & H). by rewrite H.
  - done.
  - by intros (e' & [=] & _).
Qed.

Lemma isClosed_alter f k h s :
  (k = h → ∀ e, readyState e = CLOSED → readyState (f e) = CLOSED) →
  isClosed h s = true →
  isClosed h (set_sources (alter f k (sources s)) s) = true.
Proof.
  rewrite !isClosed_spec. cbn. intros Hf (e & He & Hc).
  destruct (decide (k = h)) as [->|Hne].
  - exists (f e). rewrite list_lookup_alter_eq, He. split; [done|]. by apply Hf.
  - exists e. by rewrite list_lookup_alter_ne.
Qed.

Lemma isClosed_same h s s' :
  sources s' = sources s → isClosed h s = true → isClosed h s' = true.
Proof. rewrite !isClosed_spec. by intros ->. Qed.

Lemma isClosed_closeCurrent h s :
  isClosed h s = true → isClosed h (closeCurrent s) = true.
Proof.
  intros Hc. unfold closeCurrent. destruct (eventSourceRef s) as [c|]; [|done].
  apply (isClosed_same h (es_close c s)); [done|].
  by apply isClosed_alter.
Qed.

Lemma isClosed_clearRetryTimer h s :
  isClosed h s = true → isClosed h (clearRetryTimer s) = true.
Proof. apply isClosed_same, clearRetryTimer_sources. Qed.

Lemma isClosed_connect h s :
  isClosed h s = true → isClosed h (connect s) = true.
Proof.
  intros Hc%isClosed_closeCurrent. revert Hc. rewrite !isClosed_spec.
  intros (e & He & Hc). exists e. split; [|done].
  rewrite connect_sources. by apply lookup_app_l_Some.
Qed.

Lemma isClosed_fire e h s :
  enabled e s = true → isClosed h s = true → isClosed h (fire e s) = true.
Proof.
  intros Hen Hc. destruct e; cbn [fire].
  - by apply isClosed_connect.
  - by apply isClosed_closeCurrent, isClosed_clearRetryTimer.
  - apply isClosed_connect. by apply (isClosed_same h s).
  - unfold onopen. apply (isClosed_same h (set_sources (alter markOpen es (sources s)) s));
      [done|].
    apply isClosed_alter; [|done]. intros ->. cbn in Hen.
    apply bool_decide_eq_true in Hen. apply isClosed_spec in Hc as (x & Hx & Hcl).
    unfold readyStateOf in Hen. rewrite Hx in Hen. cbn in Hen. congruence.
  - apply (isClosed_same h (es_close es s)).
    + unfold onerror, setTimeout. cbn. by rewrite clearRetryTimer_sources.
    + by apply isClosed_alter.
  - by apply isClosed_alter.
  - rewrite onVisibilityChange_eq.
    assert (isClosed h (set_hiddenAtRef None s) = true) as Hc0 by done.
    destruct v; [done|]. cbn zeta.
    destruct (negb (holdsLive s)).
    + by apply isClosed_connect, isClosed_clearRetryTimer.
    + destruct (hiddenAtRef s); [|done]. destruct (_ || _); [|done].
      by apply isClosed_connect, isClosed_clearRetryTimer, isClosed_closeCurrent.
  - by apply isClosed_connect, isClosed_clearRetryTimer, isClosed_closeCurrent.
  - unfold onPageHide. destruct persisted; [done|].
    apply isClosed_closeCurrent. by apply (isClosed_same h s).
  - apply isClosed_closeCurrent. by apply (isClosed_same h s).
Qed.

Lemma instanceId_fire e s :
  instanceId s ≤ instanceId (fire e s) ∧
  (length (sources s) ≤ length (sources (fire e s)))%nat.
Proof.
  destruct (fire_cases e s) as [(-> & -> & _)|(s0 & -> & E1 & E2)]; [done|].
  rewrite connect_instanceId, connect_length. lia.
Qed.

(** X9.  A transport that is closed stays closed whatever happens next:
    the provider never reopens or reuses a transport, it only creates new
    ones; and [instanceId] never decreases. *)
Theorem closed_transport_stays_closed es s s' h :
  run es s = Some s' → isClosed h s = true →
  isClosed h s' = true ∧ instanceId s ≤ instanceId s' ∧
  (length (sources s) ≤ length (sources s'))%nat.
Proof.
  revert s. induction es as [|e es IH]; intros s; cbn.
  - by intros [= <-].
  - destruct (enabled e s) eqn:Hen; [|done]. intros Hrun Hc.
    destruct (IH _ Hrun (isClosed_fire _ _ _ Hen Hc)) as (H1 & H2 & H3).
    destruct (instanceId_fire e s). split; [done|]. lia.
Qed.

Lemma closed_transport_stays_closed_witness :
  run [Online; Opened 1]%nat afterError = Some (fireAll [Online; Opened 1]%nat afterError) ∧
  isClosed 0 afterError = true ∧
  isClosed 0 (fireAll [Online; Opened 1]%nat afterError) = true.
Proof.
  assert (run [Online; Opened 1]%nat afterError
          = Some (fireAll [Online; Opened 1]%nat afterError)) as Hrun
    by (vm_compute; reflexivity).
  assert (isClosed 0 afterError = true) as Hc by (vm_compute; reflexivity).
  split; [exact Hrun|]. split; [exact Hc|].
  exact (proj1 (closed_transport_stays_closed _ _ _ _ Hrun Hc)).
Defined.

End RetryFacts.

(** ** Facts about consumer effects *)

Module SubscriptionFacts.
Import Lifecycle LifecycleFacts Subscription.

Local Open Scope Z_scope.

Lemma fire_provider st a :
  provider (step st a) =
  match st with
  | Runtime e => Lifecycle.fire e (provider a)
  | _ => provider a
  end.
Proof. destruct st as [[]| |]; done. Qed.

Lemma fire_consumer_runtime e a :
  consumer (step (Runtime e) a) =
  match e with
  | Message es => handle es (consumer a)
  | _ => consumer a
  end.
Proof. by destruct e. Qed.

Lemma handle_fields es c :
  followsGeneration (handle es c) = followsGeneration c ∧
  rendered (handle es c) = rendered c ∧ ran (handle es c) = ran c ∧
  boundTo (handle es c) = boundTo c.
Proof. unfold handle. by destruct (bool_decide _). Qed.

Lemma consumer_runtime_fields e a :
  followsGeneration (consumer (step (Runtime e) a)) = followsGeneration (consumer a) ∧
  rendered (consumer (step (Runtime e) a)) = rendered (consumer a) ∧
  ran (consumer (step (Runtime e) a)) = ran (consumer a) ∧
  boundTo (consumer (step (Runtime e) a)) = boundTo (consumer a).
Proof.
  rewrite fire_consumer_runtime. destruct e; try done. apply handle_fields.
Qed.

Lemma ConsumerInv_start follows thr : ConsumerInv (start follows thr).
Proof. split; cbn; try done; apply Inv_initial. Qed.

Lemma ConsumerInv_fire st a :
  ready st a = true → ConsumerInv a → ConsumerInv (step st a).
Proof.
  intros Hen [HI Hr Hg Hex Hcur]. destruct st as [e| |].
  - cbn [ready] in Hen.
    destruct (consumer_runtime_fields e a) as (_ & Er & Eg & Eb).
    assert (Inv (Lifecycle.fire e (provider a))) as HI' by (by apply Inv_fire).
    split; rewrite ?fire_provider, ?Er, ?Eg, ?Eb; [done|..].
    + intros r Hr'. specialize (Hr r Hr').
      destruct (fire_cases e (provider a)) as [(-> & _)|(s0 & -> & E & _)];
        [done|rewrite connect_instanceId; lia].
    + intros g Hg'. specialize (Hg g Hg').
      destruct (fire_cases e (provider a)) as [(-> & _)|(s0 & -> & E & _)];
        [done|rewrite connect_instanceId; lia].
    + intros h Hh. specialize (Hex h Hh).
      destruct (fire_cases e (provider a)) as [(_ & -> & _)|(s0 & -> & _ & E)];
        [done|rewrite connect_length; lia].
    + intros h.
      destruct (fire_cases e (provider a)) as [(-> & _ & Href)|(s0 & -> & E & _)].
      * intros Hran Hh. apply Hcur; [done|by apply Href].
      * rewrite connect_instanceId. intros Hran. specialize (Hg _ Hran). lia.
  - split; cbn; try done. intros r [= <-]. lia.
  - cbn in Hen. apply bool_decide_eq_true in Hen as [r Hren].
    split; cbn [step provider consumer]; [done|..]; unfold effect;
      destruct (depsChanged (consumer a)) eqn:Hd; cbn; try done.
    intros h Hh. apply (inv_latest _ HI) in Hh. lia.
Qed.

Lemma reachable_ConsumerInv a : reachableApp a → ConsumerInv a.
Proof.
  induction 1 as [follows thr|a st _ IH Hen];
    [apply ConsumerInv_start|by apply ConsumerInv_fire].
Qed.

Lemma steps_reachable sts a a' : reachableApp a → steps sts a = Some a' → reachableApp a'.
Proof.
  revert a. induction sts as [|st sts IH]; intros a Ha; cbn.
  - by intros [= <-].
  - destruct (ready st a) eqn:Hen; [|done]. apply IH. by constructor.
Qed.

(** X10.  At every reachable state, a widget whose effect ran for the
    current value of [instanceId] has its listener on the published
    transport. *)
Theorem listener_follows_generation a h :
  reachableApp a →
  ran (consumer a) = Some (instanceId (provider a)) →
  eventSourceRef (provider a) = Some h →
  boundTo (consumer a) = Some h.
Proof. intros Ha. apply (ci_current _ (reachable_ConsumerInv _ Ha)). Qed.

Lemma listener_follows_generation_witness :
  steps (sampleBefore ++ Runtime Online :: sampleAfter) (start true 10000)
  = Some finalConformant ∧
  boundTo (consumer finalConformant) = Some 1%nat.
Proof.
  assert (steps (sampleBefore ++ Runtime Online :: sampleAfter) (start true 10000)
          = Some finalConformant) as Hrun by (vm_compute; reflexivity).
  split; [exact Hrun|].
  apply (listener_follows_generation finalConformant 1%nat
           (steps_reachable _ _ _ (reachableApp_start true 10000) Hrun));
    vm_compute; reflexivity.
Defined.

(** X11.  Once a widget with [instanceId] in its dependencies has
    rendered and its effect has been flushed, its effect has run for the
    current generation and its listener is on the published transport. *)
Theorem rerender_rebinds a :
  reachableApp a → followsGeneration (consumer a) = true →
  let a' := step Effect (step Render a) in
  provider a' = provider a ∧
  ran (consumer a') = Some (instanceId (provider a)) ∧
  ∀ h, eventSourceRef (provider a) = Some h → boundTo (consumer a') = Some h.
Proof.
  intros Ha Hf. cbn zeta. pose proof (reachable_ConsumerInv _ Ha) as HC.
  cbn [step provider consumer]. split; [done|].
  unfold effect, depsChanged, render. cbn. rewrite Hf. cbn.
  destruct (ran (consumer a)) as [g|] eqn:Hg; cbn; [|done].
  destruct (decide (Some (instanceId (provider a)) = Some g)) as [E|E].
  - rewrite bool_decide_eq_true_2 by done. cbn.
    split; [congruence|]. intros h Hh. apply (ci_current _ HC); [|done]. congruence.
  - rewrite bool_decide_eq_false_2 by done. cbn. done.
Qed.

Lemma rerender_rebinds_witness :
  steps (sampleBefore ++ [Runtime Online]) (start true 10000)
  = Some reconnectedConformant ∧
  boundTo (consumer reconnectedConformant) = Some 0%nat ∧
  boundTo (consumer (step Effect (step Render reconnectedConformant))) = Some 1%nat.
Proof.
  assert (steps (sampleBefore ++ [Runtime Online]) (start true 10000)
          = Some reconnectedConformant) as Hrun by (vm_compute; reflexivity).
  split; [exact Hrun|]. split; [vm_compute; reflexivity|].
  destruct (rerender_rebinds reconnectedConformant
              (steps_reachable _ _ _ (reachableApp_start true 10000) Hrun) eq_refl)
    as (_ & _ & H3).
  apply H3. vm_compute. reflexivity.
Defined.

(** A record is only dispatched on the transport created last. *)
Lemma message_on_latest es s :
  Inv s → Lifecycle.enabled (Message es) s = true → S es = length (sources s).
Proof.
  intros HI Hen. cbn in Hen. apply bool_decide_eq_true in Hen.
  unfold readyStateOf in Hen.
  destruct (sources s !! es) as [x|] eqn:Hx; [|done]. cbn in Hen.
  apply (inv_latest _ HI), (inv_live _ HI _ x); [done|]. congruence.
Qed.

Lemma fire_length e s :
  (length (sources s) ≤ length (sources (Lifecycle.fire e s)))%nat.
Proof.
  destruct (fire_cases e s) as [(_ & -> & _)|(s0 & -> & _ & E)];
    [done|rewrite connect_length; lia].
Qed.

Lemma stranded_fire st a :
  ready st a = true → ConsumerInv a → stranded a →
  stranded (step st a) ∧ consumer (step st a) = render (provider a) (consumer a)
  ∨ stranded (step st a) ∧ consumer (step st a) = consumer a.
Proof.
  intros Hen HC (Hf & Hran & Hl). destruct st as [e| |].
  - right. cbn [ready] in Hen.
    assert (consumer (step (Runtime e) a) = consumer a) as Ec.
    { rewrite fire_consumer_runtime. destruct e; try done.
      unfold handle. destruct (decide (boundTo (consumer a) = Some es)) as [E|E].
      - exfalso. pose proof (message_on_latest _ _ (ci_provider _ HC) Hen) as Hlast.
        unfold onLatest in Hl. rewrite E in Hl.
        by apply bool_decide_eq_false in Hl.
      - by rewrite bool_decide_eq_false_2. }
    split; [|done]. unfold stranded. rewrite Ec. split; [done|]. split; [done|].
    unfold onLatest in *. rewrite Ec, fire_provider.
    destruct (boundTo (consumer a)) as [h|] eqn:Hb; [|done].
    apply bool_decide_eq_false in Hl. apply bool_decide_eq_false.
    pose proof (ci_exists _ HC h Hb). pose proof (fire_length e (provider a)). lia.
  - left. split; [|done]. done.
  - right. assert (consumer (step Effect a) = consumer a) as Ec.
    { cbn. unfold effect, depsChanged. destruct Hran as [g ->]. by rewrite Hf. }
    split; [|done]. unfold stranded, onLatest. by rewrite Ec.
Qed.

Lemma stranded_run sts a a' :
  ConsumerInv a → stranded a → steps sts a = Some a' →
  received (consumer a') = received (consumer a) ∧
  boundTo (consumer a') = boundTo (consumer a).
Proof.
  revert a. induction sts as [|st sts IH]; intros a HC Hs; cbn.
  - by intros [= <-].
  - destruct (ready st a) eqn:Hen; [|done]. intros Hrun.
    pose proof (ConsumerInv_fire _ _ Hen HC) as HC'.
    destruct (stranded_fire _ _ Hen HC Hs) as [[Hs' Ec]|[Hs' Ec]];
      destruct (IH _ HC' Hs' Hrun) as [-> ->]; by rewrite Ec.
Qed.

(** X12.  A step of the provider that changes [instanceId] leaves every
    listener behind: no widget has its listener on the transport just
    created, whatever its dependencies, until its effect runs again. *)
Theorem reconnect_strands_listener e a :
  reachableApp a → Lifecycle.enabled e (provider a) = true →
  instanceId (provider (step (Runtime e) a)) ≠ instanceId (provider a) →
  onLatest (step (Runtime e) a) = false ∧
  boundTo (consumer (step (Runtime e) a)) ≠
  eventSourceRef (provider (step (Runtime e) a)).
Proof.
  intros Ha Hen Hne. pose proof (reachable_ConsumerInv _ Ha) as HC.
  destruct (consumer_runtime_fields e a) as (_ & _ & _ & Eb).
  rewrite fire_provider in *. unfold onLatest. rewrite Eb, fire_provider.
  destruct (fire_cases e (provider a)) as [(E & _)|(s0 & Efire & _ & El)]; [done|].
  rewrite Efire, connect_length, connect_ref, El.
  destruct (boundTo (consumer a)) as [h|] eqn:Hb; [|done].
  pose proof (ci_exists _ HC h Hb).
  split; [apply bool_decide_eq_false; lia|]. intros [= ->]. lia.
Qed.

Lemma reconnect_strands_listener_witness :
  steps sampleBefore (start true 10000) = Some boundConformant ∧
  onLatest boundConformant = true ∧
  onLatest (step (Runtime Online) boundConformant) = false.
Proof.
  assert (steps sampleBefore (start true 10000) = Some boundConformant)
    as Hrun by (vm_compute; reflexivity).
  split; [exact Hrun|]. split; [vm_compute; reflexivity|].
  refine (proj1 (reconnect_strands_listener Online boundConformant
           (steps_reachable _ _ _ (reachableApp_start true 10000) Hrun) eq_refl _)).
  vm_compute. discriminate.
Defined.

(** X13.  A widget with empty dependencies whose effect has run and whose
    listener is not on the transport created last (it ran while no
    transport was published, or a reconnect has happened since) never
    moves its listener and is never called again, whatever happens
    next. *)
Theorem fixed_listener_never_recovers sts a a' :
  reachableApp a →
  followsGeneration (consumer a) = false → is_Some (ran (consumer a)) →
  onLatest a = false →
  steps sts a = Some a' →
  received (consumer a') = received (consumer a) ∧
  boundTo (consumer a') = boundTo (consumer a).
Proof.
  intros Ha Hf Hran Hl. apply stranded_run; [by apply reachable_ConsumerInv|done].
Qed.

Lemma fixed_listener_never_recovers_witness :
  steps (sampleBefore ++ [Runtime Online]) (start false 10000)
  = Some reconnectedBroken ∧
  steps sampleAfter reconnectedBroken = Some finalBroken ∧
  received (consumer finalBroken) = 1%nat ∧
  received (consumer finalConformant) = 2%nat.
Proof.
  assert (steps (sampleBefore ++ [Runtime Online]) (start false 10000)
          = Some reconnectedBroken) as Hrun by (vm_compute; reflexivity).
  assert (steps sampleAfter reconnectedBroken = Some finalBroken)
    as Hrun' by (vm_compute; reflexivity).
  split; [exact Hrun|]. split; [exact Hrun'|].
  destruct (fixed_listener_never_recovers sampleAfter reconnectedBroken finalBroken
              (steps_reachable _ _ _ (reachableApp_start false 10000) Hrun)
              eq_refl (ex_intro _ 1 eq_refl) eq_refl Hrun') as [H1 _].
  split; [rewrite H1|]; vm_compute; reflexivity.
Defined.

(** *** The generation and the handle as a widget sees them *)

Lemma observed_not_ahead a :
  reachableApp a →
  ∀ g h, ran (consumer a) = Some g → boundTo (consumer a) = Some h →
         g ≤ generationOf h.
Proof.
  induction 1 as [follows thr|a st Ha IH Hen]; [done|].
  pose proof (reachable_ConsumerInv _ Ha) as HC.
  destruct st as [e| |].
  - destruct (consumer_runtime_fields e a) as (_ & _ & -> & ->). exact IH.
  - exact IH.
  - cbn [step consumer]. unfold effect.
    destruct (depsChanged (consumer a)); [|exact IH]. cbn.
    intros g h Hg Hh. pose proof (ci_rendered _ HC _ Hg) as Hle.
    pose proof (ci_provider _ HC) as HI.
    rewrite (inv_generation _ HI), <- (inv_latest _ HI _ Hh) in Hle.
    unfold generationOf. lia.
Qed.

(** C2 as amended.  [connect] publishes the handle of the transport it
    creates and bumps the generation in the one step, while that transport
    is still connecting and before a record can be dispatched on it; at
    every reachable state the published handle is the transport of the
    current generation.  A widget reads the generation when it renders
    and the handle ([esRef.current]) when its effect runs.  A read of the
    handle never gives a handle older than the generation the widget
    holds: the handle an effect read belongs to the generation of the
    render that scheduled the effect or to a later one, and so does any
    handle published once the widget has rendered; and once an effect has
    run for the current generation, the handle it read is the published
    one, that of this generation.  (A read can give a handle newer than
    the generation held, see the example after the theorem; and the
    listener an earlier effect registered stays on the handle that effect
    read until the effect runs again.) *)
Theorem C2_handle_and_generation_same_turn a :
  reachableApp a →
  (let s := provider a in
   let s' := connect s in
   let es := length (sources s) in
   eventSourceRef s' = Some es ∧
   instanceId s' = instanceId s + 1 ∧
   sources s !! es = None ∧
   eventSourceRef s ≠ Some es ∧
   sources s' !! es = Some {| readyState := CONNECTING; dispatched := 0 |} ∧
   Lifecycle.enabled (Message es) s' = false ∧
   Lifecycle.enabled (Opened es) s' = true) ∧
  (∀ h, eventSourceRef (provider a) = Some h →
        instanceId (provider a) = generationOf h) ∧
  (∀ e, Lifecycle.enabled e (provider a) = true →
     (instanceId (Lifecycle.fire e (provider a)) ≠ instanceId (provider a) →
        eventSourceRef (Lifecycle.fire e (provider a))
        = Some (length (sources (provider a)))) ∧
     (∀ h, eventSourceRef (Lifecycle.fire e (provider a)) = Some h →
           eventSourceRef (provider a) ≠ Some h →
           instanceId (Lifecycle.fire e (provider a))
           = instanceId (provider a) + 1)) ∧
  (∀ g h, ran (consumer a) = Some g → boundTo (consumer a) = Some h →
          g ≤ generationOf h) ∧
  (∀ g h, rendered (consumer a) = Some g →
          eventSourceRef (provider a) = Some h → g ≤ generationOf h) ∧
  (∀ h, ran (consumer a) = Some (instanceId (provider a)) →
        eventSourceRef (provider a) = Some h →
        boundTo (consumer a) = Some h ∧ instanceId (provider a) = generationOf h).
Proof.
  intros Ha. pose proof (reachable_ConsumerInv _ Ha) as HC.
  pose proof (ci_provider _ HC) as HI.
  destruct (connect_same_turn _ HI) as (H1 & H2 & H3).
  split; [exact H1|]. split; [exact H2|]. split.
  { intros e Hen. destruct (H3 e Hen) as [H4 H5]. split; [|exact H5].
    intros Hne. by destruct (H4 Hne). }
  split; [by apply observed_not_ahead|]. split.
  - intros g h Hg Hh. unfold generationOf. rewrite <- (H2 h Hh).
    by apply (ci_rendered _ HC).
  - intros h Hran Hh. split; [by apply (ci_current _ HC)|by apply H2].
Qed.

(** In [finalConformant] the widget has re-rendered after the reconnect:
    the handle its effect read is the one of the current generation. *)
Lemma C2_handle_and_generation_same_turn_witness :
  steps (sampleBefore ++ Runtime Online :: sampleAfter) (start true 10000)
  = Some finalConformant ∧
  ran (consumer finalConformant) = Some 2 ∧
  boundTo (consumer finalConformant) = Some 1%nat ∧
  2 ≤ generationOf 1.
Proof.
  assert (steps (sampleBefore ++ Runtime Online :: sampleAfter) (start true 10000)
          = Some finalConformant) as Hrun by (vm_compute; reflexivity).
  assert (ran (consumer finalConformant) = Some 2) as Hg by (vm_compute; reflexivity).
  assert (boundTo (consumer finalConformant) = Some 1%nat) as Hh
    by (vm_compute; reflexivity).
  split; [exact Hrun|]. split; [exact Hg|]. split; [exact Hh|].
  destruct (C2_handle_and_generation_same_turn finalConformant
              (steps_reachable _ _ _ (reachableApp_start true 10000) Hrun))
    as (_ & _ & _ & H4 & _).
  exact (H4 _ _ Hg Hh).
Defined.

(** C2 as stated does not hold: a widget can see the new handle with the
    old generation.  When a reconnect falls between a render and the flush
    of its effect, the effect of the render that read generation 1 reads
    the handle of generation 2; and after any reconnect, until the widget
    renders again, the published handle is the one of generation 2 while
    the widget still holds generation 1. *)
Lemma C2_new_handle_with_old_generation :
  steps sampleLate (start true 10000) = Some lateEffect ∧
  ran (consumer lateEffect) = Some 1 ∧
  boundTo (consumer lateEffect) = Some 1%nat ∧
  generationOf 1 = 2 ∧
  instanceId (provider lateEffect) = 2 ∧
  steps sampleStale (start true 10000) = Some staleRender ∧
  rendered (consumer staleRender) = Some 1 ∧
  eventSourceRef (provider staleRender) = Some 1%nat ∧
  ¬ (∀ g h, ran (consumer lateEffect) = Some g →
            boundTo (consumer lateEffect) = Some h → g = generationOf h).
Proof.
  repeat split; try (vm_compute; reflexivity).
  intros H. specialize (H 1 1%nat eq_refl eq_refl). vm_compute in H. discriminate H.
Qed.

End SubscriptionFacts.

(** ** Facts about what a stream contains *)

Module StreamFacts.
Import Server ServerFacts Stream.

Local Open Scope Z_scope.

(** *** After the client has gone *)

Lemma quiet_enabled e c : quiet c → enabled e c = true → e = Closed.
Proof.
  intros (Hr & Ht & Hh). destruct e; cbn; try congruence.
  by intros ?%bool_decide_eq_true.
Qed.

Lemma onClose_quiet c : quiet (onClose c).
Proof.
  unfold quiet, onClose, clearIntervals. cbn. repeat split.
  by destruct (hb c).
Qed.

Lemma onClose_idem c : onClose (onClose c) = onClose c.
Proof. unfold onClose, clearIntervals. cbn. by destruct (hb c). Qed.

(** X14.  Once the request has been closed by the client, no callback of
    the connection runs again: the only thing that can still happen is
    another close event, which changes nothing, so nothing more is
    written. *)
Theorem closed_connection_is_silent es c c' :
  run es (fire Closed c) = Some c' →
  c' = fire Closed c ∧ written c' = written c ∧ Forall (λ e, e = Closed) es.
Proof.
  cbn [fire]. intros Hrun.
  assert (c' = onClose c ∧ Forall (λ e, e = Closed) es) as [-> HF].
  { revert Hrun. induction es as [|e es IH]; cbn.
    - by intros [= <-].
    - destruct (enabled e (onClose c)) eqn:Hen; [|done].
      apply (quiet_enabled _ _ (onClose_quiet c)) in Hen as ->.
      cbn [fire]. rewrite onClose_idem. intros Hrun.
      destruct (IH Hrun) as [-> HF]. split; [done|]. by constructor. }
  done.
Qed.

Lemma closed_connection_is_silent_witness :
  run [Closed; Closed] (fire Closed acceptedNoResume)
  = Some (fire Closed acceptedNoResume) ∧
  written (fire Closed acceptedNoResume) = written acceptedNoResume.
Proof.
  assert (run [Closed; Closed] (fire Closed acceptedNoResume)
          = Some (fire Closed acceptedNoResume)) as Hrun by (vm_compute; reflexivity).
  split; [exact Hrun|].
  exact (proj1 (proj2 (closed_connection_is_silent _ _ _ Hrun))).
Defined.

(** *** Frames by kind *)

Lemma fire_frames e c :
  enabled e c = true →
  connectionId (fire e c) = connectionId c ∧
  ∃ fs, written (fire e c) = written c ++ fs ∧
        Forall (wellLabelled (connectionId c)) fs ∧
        length (List.filter isComment fs) = (if isHeartbeatFired e then 1 else 0)%nat ∧
        (length (List.filter isConnectedRecord fs)
         ≤ if connectedRepeat c then 1 else 0)%nat ∧
        (connectedRepeat (fire e c) = true →
           List.filter isConnectedRecord fs = [] ∧ connectedRepeat c = true).
Proof.
  intros Hen. destruct e as [now|iso|d now|]; cbn [fire enabled] in *.
  - rewrite Hen. unfold onConnectedRepeat. cbn [writableEnded set_connectedRepeat].
    destruct (writableEnded c); cbn.
    + split; [done|]. exists []. rewrite app_nil_r. repeat split; try done; cbn; lia.
    + split; [done|]. eexists. split; [done|]. repeat split; try done.
      by repeat constructor.
  - split; [done|]. exists [Comment ("ping " +:+ iso)]. split; [done|].
    split; [by repeat constructor|]. cbn. split; [done|]. split; [lia|].
    intros Hr. by split.
  - assert (∀ c0, connectionId (set_sentBusinessEvents (sentBusinessEvents c0 + 1) c0)
                  = connectionId c0) as _ by done.
    unfold onTimer.
    set (c1 := if isTask d then _ else _).
    assert (connectionId c1 = connectionId c ∧
            connectedRepeat c1 = connectedRepeat c ∧
            ∃ f, written c1 = written c ++ [f] ∧
                 wellLabelled (connectionId c) f ∧ isComment f = false ∧
                 isConnectedRecord f = false) as (E1 & E2 & f & E3 & Hw & Hc & Hk).
    { unfold c1. destruct (isTask d); cbn; repeat split; eexists; by repeat split. }
    clearbody c1.
    set (c2 := set_sentBusinessEvents _ c1).
    assert (connectionId c2 = connectionId c ∧ connectedRepeat c2 = connectedRepeat c
            ∧ written c2 = written c ++ [f]) as (F1 & F2 & F3) by done.
    clearbody c2.
    assert (∀ cx, connectionId (res_end (clearIntervals cx)) = connectionId cx ∧
                  connectedRepeat (res_end (clearIntervals cx)) = connectedRepeat cx ∧
                  written (res_end (clearIntervals cx)) = written cx) as Hend by done.
    destruct (Js.gt (closeAfter c2) (Js.ofZ 0) &&
              Js.ge (Js.ofZ (sentBusinessEvents c2)) (closeAfter c2)).
    + destruct (Hend c2) as (-> & -> & ->). rewrite F1, F2, F3.
      split; [done|]. exists [f]. split; [done|]. split; [by repeat constructor|].
      cbn. rewrite Hc, Hk. cbn. split; [done|]. split; [lia|].
      intros Hr. by split.
    + rewrite F1, F2, F3.
      split; [done|]. exists [f]. split; [done|]. split; [by repeat constructor|].
      cbn. rewrite Hc, Hk. cbn. split; [done|]. split; [lia|].
      intros Hr. by split.
  - split; [done|]. exists []. cbn. rewrite app_nil_r. repeat split; try done; cbn; lia.
Qed.

Lemma fire_snapshots e c :
  requestDebug (fire e c) = requestDebug c ∧
  ∃ fs, written (fire e c) = written c ++ fs ∧
        Forall (carriesSnapshot (requestDebug c)) fs.
Proof.
  destruct e as [now|iso|d now|]; cbn [fire].
  - unfold onConnectedRepeat. cbn. destruct (writableEnded c); cbn.
    + split; [done|]. exists []. by rewrite app_nil_r.
    + split; [done|]. eexists. split; [done|].
      repeat constructor. by intros r' [= <-].
  - split; [done|]. eexists. split; [done|]. repeat constructor. by intros r' [=].
  - unfold onTimer.
    destruct (isTask d); cbn -[Js.gt Js.ge]; destruct (_ && _); cbn;
      (split; [done|]); eexists; (split; [done|]);
      repeat constructor; by intros r' [=].
  - split; [done|]. exists []. by rewrite app_nil_r.
Qed.

Lemma filter_length_app {A} (p : A → bool) l1 l2 :
  length (List.filter p (l1 ++ l2)) =
  (length (List.filter p l1) + length (List.filter p l2))%nat.
Proof. by rewrite List.filter_app, length_app. Qed.

Lemma FrameInv_run cid r es0 es c c' :
  FrameInv cid r es0 c → run es c = Some c' → FrameInv cid r (es0 ++ es) c'.
Proof.
  revert es0 c. induction es as [|e es IH]; intros es0 c HI; cbn.
  - intros [= <-]. by rewrite app_nil_r.
  - destruct (enabled e c) eqn:Hen; [|done]. intros Hrun.
    replace (es0 ++ e :: es) with ((es0 ++ [e]) ++ es) by (by rewrite <- app_assoc).
    apply (IH _ (fire e c)); [|done].
    destruct HI as [Hc Hq Hl Hs Hm Hk H1].
    destruct (fire_frames e c Hen) as (Ec & fs & Ew & Hfs & Hfm & Hfk & Hrep).
    destruct (fire_snapshots e c) as (Eq & fs' & Ew' & Hfs').
    assert (fs' = fs) as -> by (rewrite Ew in Ew'; by apply app_inv_head in Ew').
    split.
    + congruence.
    + congruence.
    + rewrite Ew. apply Forall_app. split; [done|]. by rewrite <- Hc.
    + rewrite Ew. apply Forall_app. split; [done|]. by rewrite <- Hq.
    + unfold comments, beats in *. rewrite Ew, !filter_length_app, Hm, Hfm.
      cbn. destruct (isHeartbeatFired e); cbn; lia.
    + unfold connectedRecords in *. rewrite Ew, filter_length_app.
      destruct (connectedRepeat (fire e c)) eqn:Hr.
      * destruct (Hrep eq_refl) as [-> Hr0]. rewrite Hr0 in Hk. cbn in *. lia.
      * destruct (connectedRepeat c); cbn in *; lia.
    + unfold connectedRecords in *. rewrite Ew, filter_length_app. lia.
Qed.

Section Frames.

Variable Number_ : string → Js.Number.

Lemma FrameInv_accept cid now req :
  FrameInv cid (buildRequestDebug req) [] (accept Number_ cid now req).
Proof.
  split; unfold comments, connectedRecords; rewrite ?accept_written;
    try done; try (cbn; lia).
  - by repeat constructor.
  - repeat constructor; by intros r' [=].
Qed.

(** X15.  Every record of a stream carries the connection id chosen when
    the request was accepted and is written under the event name that its
    [type] field holds; every "connected" record carries the snapshot that
    [buildRequestDebug] built from the request. *)
Theorem records_are_well_labelled cid now req es c :
  run es (accept Number_ cid now req) = Some c →
  connectionId c = cid ∧ Forall (wellLabelled cid) (written c) ∧
  Forall (carriesSnapshot (buildRequestDebug req)) (written c).
Proof.
  intros Hrun.
  destruct (FrameInv_run cid _ [] es _ _ (FrameInv_accept cid now req) Hrun).
  done.
Qed.

(** X16.  The heartbeat comments of a stream are exactly the ticks of the
    heartbeat timer, one comment per tick; with [heartbeat=0] in the query
    (anything whose string is "0") the timer is never set and the stream
    holds no comment at all. *)
Theorem heartbeat_comments cid now req es c :
  run es (accept Number_ cid now req) = Some c →
  length (comments c) = beats es ∧
  (heartbeatOn req = false → hb c = None ∧ comments c = []).
Proof.
  intros Hrun.
  destruct (FrameInv_run cid _ [] es _ _ (FrameInv_accept cid now req) Hrun)
    as [_ _ _ _ Hm _ _].
  change ([] ++ es) with es in Hm. split; [done|]. intros Hoff.
  assert (hb (accept Number_ cid now req) = None) as Hhb.
  { unfold heartbeatOn in Hoff. unfold accept. cbn. by rewrite Hoff. }
  assert (∀ es c0 c1, hb c0 = None → run es c0 = Some c1 →
            hb c1 = None ∧ beats es = 0%nat) as Hnone.
  { clear. induction es as [|e es IH]; intros c0 c1 H0; cbn.
    - by intros [= <-].
    - destruct (enabled e c0) eqn:Hen; [|done]. intros Hrun.
      assert (hb (fire e c0) = None ∧ isHeartbeatFired e = false) as [H1 H2].
      { destruct e; cbn in *.
        - split; [|done]. unfold onConnectedRepeat. cbn. by destruct (writableEnded c0).
        - apply bool_decide_eq_true in Hen. congruence.
        - split; [|done]. unfold onTimer.
          destruct (isTask d); cbn; destruct (_ && _); cbn; by rewrite H0.
        - by rewrite H0. }
      destruct (IH _ _ H1 Hrun) as [H3 H4]. split; [done|].
      unfold beats in *. cbn. by rewrite H2. }
  destruct (Hnone _ _ _ Hhb Hrun) as [H1 H2]. split; [done|].
  rewrite H2 in Hm. by destruct (comments c).
Qed.

(** X17.  A stream holds one or two "connected" records, whatever the
    timers do: the one written when the request is accepted and at most
    the one repeat. *)
Theorem at_most_two_connected_records cid now req es c :
  run es (accept Number_ cid now req) = Some c →
  (1 ≤ length (connectedRecords c) ≤ 2)%nat ∧
  (connectedRepeat c = true → length (connectedRecords c) = 1%nat).
Proof.
  intros Hrun.
  destruct (FrameInv_run cid _ [] es _ _ (FrameInv_accept cid now req) Hrun)
    as [_ _ _ _ _ Hk H1].
  destruct (connectedRepeat c); cbn in Hk; split; try lia; done.
Qed.

(** X18.  Whatever the query holds, the period handed to [setInterval]
    for the event timer is a finite positive number; it is 4000 when the
    parameter [intervalMs] is absent. *)
Theorem interval_is_positive cid now req :
  (∃ q, safeInterval (accept Number_ cid now req) = Js.Finite q ∧ (0 < q)%Q) ∧
  (query req !! "intervalMs" = None →
   safeInterval (accept Number_ cid now req) = Js.ofZ 4000).
Proof.
  assert (∀ n, ∃ q,
    (if Js.isFinite n && Js.gt n (Js.ofZ 0) then n else Js.ofZ 4000) = Js.Finite q
    ∧ (0 < q)%Q) as Hsafe.
  { intros [| |q]; cbn; try (by eexists).
    destruct (Qle_bool q (inject_Z 0)) eqn:Hq; cbn.
    - by eexists.
    - exists q. split; [done|]. apply Qnot_le_lt. intros Hle.
      apply Qle_bool_iff in Hle. unfold inject_Z in Hq. congruence. }
  split.
  - unfold accept. cbn. apply Hsafe.
  - intros Hq. unfold accept. cbn. by rewrite Hq.
Qed.

Lemma OpenInv_fire e c : enabled e c = true → OpenInv c → OpenInv (fire e c).
Proof.
  intros Hen [Hcap Hend Hcount]. unfold capped in *.
  destruct e as [now|iso|d now|]; cbn [fire].
  - unfold onConnectedRepeat. cbn. rewrite Hend. cbn.
    split; try done. cbn. unfold businessRecords in *. cbn.
    rewrite List.filter_app. cbn. by rewrite app_nil_r.
  - split; try done. cbn. unfold businessRecords in *. cbn.
    rewrite List.filter_app. cbn. by rewrite app_nil_r.
  - destruct (onTimer_written d now c) as (f & Hb & _ & Ew & _).
    pose proof (onTimer_sent d now c) as Es.
    pose proof (onTimer_closeAfter d now c) as Ec.
    split.
    + unfold capped. by rewrite Ec.
    + unfold onTimer.
      destruct (isTask d); cbn -[Js.gt Js.ge]; rewrite Hcap; done.
    + rewrite Es, Hcount. unfold businessRecords. rewrite Ew, List.filter_app.
      cbn. rewrite Hb, length_app. cbn. lia.
  - split; try done.
Qed.

Lemma OpenInv_run es c c' :
  OpenInv c → run es c = Some c' →
  OpenInv c' ∧ length (businessRecords c') = (length (businessRecords c) + ticks es)%nat.
Proof.
  revert c. induction es as [|e es IH]; intros c HI; cbn.
  - intros [= <-]. split; [done|]. unfold ticks. cbn. lia.
  - destruct (enabled e c) eqn:Hen; [|done]. intros Hrun.
    destruct (IH _ (OpenInv_fire _ _ Hen HI) Hrun) as [HI' Hn].
    split; [done|]. rewrite Hn.
    pose proof (fire_sent e c) as Hs.
    rewrite (open_count _ HI), (open_count _ (OpenInv_fire _ _ Hen HI)) in Hs.
    unfold ticks. cbn. destruct (isTimerFired e); cbn; lia.
Qed.

(** X19.  Without a cap in force (the parameter [closeAfter] absent, or
    its number not greater than 0, NaN included) the server never ends the
    stream: every tick of the event timer writes one application record,
    and the timer stays set until the client closes the request. *)
Theorem uncapped_stream_never_ends cid now req es c :
  capped (accept Number_ cid now req) = false →
  run es (accept Number_ cid now req) = Some c →
  writableEnded c = false ∧
  length (businessRecords c) = ticks es ∧
  (forallb (λ e, negb (isClosed e)) es = true → timer c = true) ∧
  (query req !! "closeAfter" = None → capped (accept Number_ cid now req) = false).
Proof.
  intros Hcap Hrun.
  assert (OpenInv (accept Number_ cid now req)) as HI0.
  { split; [done|done|]. unfold businessRecords. by rewrite accept_written. }
  destruct (OpenInv_run _ _ _ HI0 Hrun) as [HI Hn].
  split; [apply (open_ended _ HI)|].
  split; [rewrite Hn; unfold businessRecords; by rewrite accept_written|].
  split.
  - intros Hopen.
    apply (alive_run es (accept Number_ cid now req) c Hopen); [done|done|].
    apply (open_ended _ HI).
  - intros Hq. unfold capped, accept. cbn. by rewrite Hq.
Qed.

End Frames.

Lemma records_are_well_labelled_witness :
  run sampleBeats acceptedNoResume = Some afterBeats ∧
  Forall (wellLabelled "c-lx1-k3x9q2ab") (written afterBeats).
Proof.
  assert (run sampleBeats acceptedNoResume = Some afterBeats) as Hrun
    by (vm_compute; reflexivity).
  split; [exact Hrun|].
  exact (proj1 (proj2 (records_are_well_labelled digitsNumber _ _ _ _ _ Hrun))).
Defined.

Lemma heartbeat_comments_witness :
  run sampleBeats acceptedNoResume = Some afterBeats ∧
  length (comments afterBeats) = 2%nat.
Proof.
  assert (run sampleBeats acceptedNoResume = Some afterBeats) as Hrun
    by (vm_compute; reflexivity).
  split; [exact Hrun|].
  exact (proj1 (heartbeat_comments digitsNumber _ _ _ _ _ Hrun)).
Defined.

Lemma at_most_two_connected_records_witness :
  run sampleBeats acceptedNoResume = Some afterBeats ∧
  (1 ≤ length (connectedRecords afterBeats) ≤ 2)%nat.
Proof.
  assert (run sampleBeats acceptedNoResume = Some afterBeats) as Hrun
    by (vm_compute; reflexivity).
  split; [exact Hrun|].
  exact (proj1 (at_most_two_connected_records digitsNumber _ _ _ _ _ Hrun)).
Defined.

Lemma uncapped_stream_never_ends_witness :
  run sampleBeats acceptedNoResume = Some afterBeats ∧
  writableEnded afterBeats = false ∧
  length (businessRecords afterBeats) = 1%nat.
Proof.
  assert (run sampleBeats acceptedNoResume = Some afterBeats) as Hrun
    by (vm_compute; reflexivity).
  assert (capped acceptedNoResume = false) as Hcap by (vm_compute; reflexivity).
  split; [exact Hrun|].
  destruct (uncapped_stream_never_ends digitsNumber _ _ _ _ _ Hcap Hrun)
    as (H1 & H2 & _).
  exact (conj H1 H2).
Defined.

(** *** Random draws *)

(** X20.  For a value of [Math.random()] in [0, 1): [pick] indexes inside
    a non-empty array, so it never returns [undefined], and the amount of
    a task lies between 10 and 20009. *)
Theorem draws_in_range {A} (a : list A) (random : Q) :
  (0 <= random)%Q → (random < 1)%Q →
  (a ≠ [] → is_Some (pick a random)) ∧
  10 ≤ amountOf random ≤ 20009.
Proof.
  intros H0 H1.
  assert (∀ n, 0 < n → 0 ≤ Qfloor (random * inject_Z n) < n) as Hfloor.
  { intros n Hn.
    assert (inject_Z 0 < inject_Z n)%Q as Hq by (by rewrite <- Zlt_Qlt).
    change (inject_Z 0) with 0%Q in Hq.
    split.
    - change 0 with (Qfloor 0). apply Qfloor_resp_le. nra.
    - rewrite Zlt_Qlt. eapply Qle_lt_trans; [apply Qfloor_le|]. nra. }
  split.
  - intros Ha. unfold pick. apply lookup_lt_is_Some.
    destruct a as [|x a]; [done|].
    specialize (Hfloor (Z.of_nat (length (x :: a)))). cbn [length] in *. lia.
  - unfold amountOf. specialize (Hfloor 20000).
    change (inject_Z 20000) with 20000%Q in Hfloor. lia.
Qed.

Lemma draws_in_range_witness :
  pick severities (2 # 3) = Some CRITICAL ∧ amountOf (2 # 3) = 13343 ∧
  10 ≤ amountOf (2 # 3) ≤ 20009.
Proof.
  assert (0 <= 2 # 3)%Q as H0 by (vm_compute; discriminate).
  assert (2 # 3 < 1)%Q as H1 by (vm_compute; reflexivity).
  split; [vm_compute; reflexivity|]. split; [vm_compute; reflexivity|].
  exact (proj2 (draws_in_range severities (2 # 3) H0 H1)).
Defined.

End StreamFacts.

(** ** Facts about what the widgets display *)

Module DisplayFacts.
Import Consumer ConsumerFacts Display.

Local Open Scope Z_scope.

Lemma take_app_take {A} (n m : nat) (a b : list A) :
  (n ≤ m)%nat → take n (a ++ take m b) = take n (a ++ b).
Proof.
  revert n. induction a as [|x a IH]; intros n Hn; cbn.
  - rewrite take_take. f_equal. lia.
  - destruct n as [|n]; [done|]. cbn. f_equal. apply IH. lia.
Qed.

Section WithParse.

Variable JSON_parse : string → option Json.

Lemma accepted_cons kind evt evts :
  accepted JSON_parse kind (evt :: evts) =
  match wellFormed JSON_parse kind evt.1 with
  | Some v => (v, evt.2) :: accepted JSON_parse kind evts
  | None => accepted JSON_parse kind evts
  end.
Proof. unfold accepted. cbn. by destruct (wellFormed JSON_parse kind evt.1). Qed.

Lemma expectedAll_closed kind evts w :
  (length (entries w) ≤ 20)%nat →
  entries (expectedAll JSON_parse kind evts w) =
  take 20 (reverse (accepted JSON_parse kind evts) ++ entries w) ∧
  eventCount (expectedAll JSON_parse kind evts w) =
  eventCount w + Z.of_nat (length (accepted JSON_parse kind evts)) ∧
  errorCount (expectedAll JSON_parse kind evts w) =
  errorCount w + Z.of_nat (length evts)
  - Z.of_nat (length (accepted JSON_parse kind evts)).
Proof.
  revert w. induction evts as [|evt evts IH]; intros w Hw.
  - cbn. rewrite take_ge by done. repeat split; lia.
  - rewrite expectedAll_cons, accepted_cons. unfold expected.
    destruct (wellFormed JSON_parse kind evt.1) as [v|] eqn:Hwf.
    + destruct (IH (shown v evt.2 w)) as (H1 & H2 & H3).
      { cbn. rewrite length_take. lia. }
      rewrite H1, H2, H3. cbn [shown entries eventCount errorCount length].
      rewrite take_app_take by done.
      rewrite reverse_cons, <- app_assoc. cbn. repeat split; lia.
    + destruct (IH (counted w)) as (H1 & H2 & H3); [done|].
      rewrite H1, H2, H3. cbn [counted entries eventCount errorCount length].
      repeat split; lia.
Qed.

Lemma accepted_length kind evts :
  (length (accepted JSON_parse kind evts) ≤ length evts)%nat.
Proof.
  induction evts as [|evt evts IH]; [done|].
  rewrite accepted_cons. destruct (wellFormed JSON_parse kind evt.1); cbn; lia.
Qed.

Lemma accepted_app kind evts1 evts2 :
  accepted JSON_parse kind (evts1 ++ evts2) =
  accepted JSON_parse kind evts1 ++ accepted JSON_parse kind evts2.
Proof. unfold accepted. apply omap_app. Qed.

Lemma closedForm_expectedAll kind evts :
  expectedAll JSON_parse kind evts emptyWidget = closedForm JSON_parse kind evts.
Proof.
  destruct (expectedAll_closed kind evts emptyWidget) as (H1 & H2 & H3);
    [cbn; lia|].
  destruct (expectedAll JSON_parse kind evts emptyWidget) as [e n m].
  cbn in H1, H2, H3. rewrite app_nil_r in H1. subst.
  unfold closedForm. f_equal; lia.
Qed.

Lemma closedForm_snoc kind evts evt :
  expected JSON_parse kind (closedForm JSON_parse kind evts) evt =
  closedForm JSON_parse kind (evts ++ [evt]).
Proof.
  rewrite <- !closedForm_expectedAll. unfold expectedAll.
  by rewrite foldl_app.
Qed.

Lemma forallb_seq_shift (f : nat → bool) a n :
  forallb f (seq (S a) n) = forallb (λ k, f (S k)) (seq a n).
Proof.
  revert a. induction n as [|n IH]; intros a; [done|].
  cbn [seq forallb]. by rewrite IH.
Qed.

Lemma forallb_pointwise {A} (f g : A → bool) l :
  (∀ x, f x = g x) → forallb f l = forallb g l.
Proof. intros H. induction l as [|x l IH]; [done|]. cbn. by rewrite H, IH. Qed.

Lemma deliver_from renders flushed kind pre evts :
  deliver JSON_parse renders flushed kind (S (length pre)) evts
    (closedForm JSON_parse kind pre) =
  if forallb (λ k, negb (flushed (length pre + k)%nat || (k =? length evts)%nat)
                   || renders (entries (closedForm JSON_parse kind
                                          (pre ++ take k evts))))
             (seq 1 (length evts))
  then Mounted (closedForm JSON_parse kind (pre ++ evts))
  else Unmounted.
Proof.
  revert pre. induction evts as [|[d now] evts IH]; intros pre.
  - cbn. by rewrite app_nil_r.
  - cbn [deliver length seq forallb]. rewrite handler_expected, closedForm_snoc.
    change (take 1 ((d, now) :: evts)) with [(d, now)].
    replace (length pre + 1)%nat with (S (length pre)) by lia.
    assert (isLast evts = (1 =? S (length evts))%nat) as ->
      by (by destruct evts).
    destruct (flushed (S (length pre)) || (1 =? S (length evts))%nat); cbn [andb negb orb].
    + destruct (renders (entries (closedForm JSON_parse kind (pre ++ [(d, now)]))));
        cbn [negb]; [|done].
      specialize (IH (pre ++ [(d, now)])). rewrite length_app in IH. cbn [length] in IH.
      replace (length pre + 1)%nat with (S (length pre)) in IH by lia.
      rewrite IH.
      rewrite (forallb_seq_shift
                 (λ k, negb (flushed (length pre + k)%nat
                             || (k =? S (length evts))%nat)
                       || renders (entries (closedForm JSON_parse kind
                                              (pre ++ take k ((d, now) :: evts))))) 1).
      rewrite (forallb_pointwise
                 (λ k, negb (flushed (length pre + S k)%nat
                             || (S k =? S (length evts))%nat)
                       || renders (entries (closedForm JSON_parse kind
                                              (pre ++ take (S k) ((d, now) :: evts)))))
                 (λ k, negb (flushed (S (length pre) + k)%nat
                             || (k =? length evts)%nat)
                       || renders (entries (closedForm JSON_parse kind
                                              ((pre ++ [(d, now)]) ++ take k evts))))).
      2: { intros k. cbn [take Nat.eqb]. rewrite <- app_assoc.
           by replace (length pre + S k)%nat with (S (length pre) + k)%nat by lia. }
      by rewrite <- app_assoc.
    + specialize (IH (pre ++ [(d, now)])). rewrite length_app in IH. cbn [length] in IH.
      replace (length pre + 1)%nat with (S (length pre)) in IH by lia.
      rewrite IH.
      rewrite (forallb_seq_shift
                 (λ k, negb (flushed (length pre + k)%nat
                             || (k =? S (length evts))%nat)
                       || renders (entries (closedForm JSON_parse kind
                                              (pre ++ take k ((d, now) :: evts))))) 1).
      rewrite (forallb_pointwise
                 (λ k, negb (flushed (length pre + S k)%nat
                             || (S k =? S (length evts))%nat)
                       || renders (entries (closedForm JSON_parse kind
                                              (pre ++ take (S k) ((d, now) :: evts)))))
                 (λ k, negb (flushed (S (length pre) + k)%nat
                             || (k =? length evts)%nat)
                       || renders (entries (closedForm JSON_parse kind
                                              ((pre ++ [(d, now)]) ++ take k evts))))).
      2: { intros k. cbn [take Nat.eqb]. rewrite <- app_assoc.
           by replace (length pre + S k)%nat with (S (length pre) + k)%nat by lia. }
      by rewrite <- app_assoc.
Qed.

Lemma accepted_shown_first kind evts evt v :
  wellFormed JSON_parse kind evt.1 = Some v →
  ∃ rest, entries (closedForm JSON_parse kind (evts ++ [evt])) = (v, evt.2) :: rest.
Proof.
  intros Hwf. unfold closedForm. cbn [entries].
  rewrite accepted_app, accepted_cons, Hwf. cbn [accepted omap list_omap].
  rewrite reverse_app. cbn. by eexists.
Qed.

End WithParse.

Section WithRuntime.

Variable JSON_parse : string → option Json.
Variable numberText : Q → string.
Variable rowRenders : string → Json * Z → bool.

(** X21.  A tasks or notifications widget under any sequence of records,
    React rendering it after each record or, batching, after several, and
    in any case after the last.  If every render that happens succeeds,
    the widget ends up showing the newest twenty well-formed payloads,
    newest first, with the event counter at the number of well-formed
    records and the error counter at the number of the others (every
    record counted exactly once); if one of them throws, the tree is
    unmounted.  For [TasksWidget] that is the case as soon as a render
    follows a well-formed task record that comes without [amount], or
    with [amount] [null]. *)
Theorem widget_shows_newest_twenty kind evts :
  (∀ renders flushed,
     deliver JSON_parse renders flushed kind 1 evts emptyWidget =
     if rendersAll JSON_parse renders flushed kind evts
     then Mounted (closedForm JSON_parse kind evts)
     else Unmounted) ∧
  (length (entries (closedForm JSON_parse kind evts)) ≤ 20)%nat ∧
  eventCount (closedForm JSON_parse kind evts)
  + errorCount (closedForm JSON_parse kind evts) = Z.of_nat (length evts) ∧
  0 ≤ errorCount (closedForm JSON_parse kind evts) ∧
  (∀ flushed i evt v,
     kind = "task"%string →
     evts !! i = Some evt → wellFormed JSON_parse kind evt.1 = Some v →
     hasAmount v = false →
     flushed (S i) = true ∨ S i = length evts →
     deliver JSON_parse (TasksWidget_renders rowRenders) flushed kind 1 evts
       emptyWidget
     = Unmounted).
Proof.
  assert (∀ renders flushed,
     deliver JSON_parse renders flushed kind 1 evts emptyWidget =
     if rendersAll JSON_parse renders flushed kind evts
     then Mounted (closedForm JSON_parse kind evts)
     else Unmounted) as Hall.
  { intros renders flushed.
    change emptyWidget with (closedForm JSON_parse kind []).
    change 1%nat with (S (length (@nil (string * Z)))).
    by rewrite deliver_from. }
  pose proof (accepted_length JSON_parse kind evts) as Hlen.
  split; [exact Hall|]. split; [cbn; rewrite length_take; lia|].
  split; [cbn; lia|]. split; [cbn; lia|].
  intros flushed i evt v _ Hi Hwf Hamount Hflush. rewrite Hall.
  assert (rendersAll JSON_parse (TasksWidget_renders rowRenders) flushed kind evts
          = false) as ->; [|done].
  unfold rendersAll. apply not_true_iff_false. intros Hok.
  rewrite forallb_forall in Hok. specialize (Hok (S i)).
  rewrite (take_S_r _ _ _ Hi) in Hok.
  destruct (accepted_shown_first JSON_parse kind (take i evts) evt v Hwf)
    as [rest Hfirst].
  rewrite Hfirst in Hok. cbn [TasksWidget_renders forallb fst] in Hok.
  rewrite Hamount in Hok. cbn [andb orb] in Hok.
  assert (flushed (S i) || (S i =? length evts)%nat = true) as Hf.
  { destruct Hflush as [->| ->]; [done|]. rewrite Nat.eqb_refl. by rewrite orb_true_r. }
  rewrite Hf in Hok. cbn in Hok.
  assert (false = true) as Habs; [|done]. apply Hok.
  apply in_seq. apply lookup_lt_Some in Hi. lia.
Qed.

Lemma BrokenWidget_handler_cases d now events :
  (truthy JSON_parse [(d, now)] = [] ∧
   BrokenWidget_handler JSON_parse numberText d now events = Normal events) ∨
  (∃ t, truthy JSON_parse [(d, now)] = [(t, now)] ∧
        BrokenWidget_handler JSON_parse numberText d now events =
        match typeText numberText t with
        | Normal s => Normal (take 5 ((s, now) :: events))
        | Throw e => Throw e
        end).
Proof.
  unfold BrokenWidget_handler, truthy, safeJsonParse, JSON_parse_. cbn.
  destruct (JSON_parse d) as [v|]; cbn; [|by left].
  destruct (falsy v); cbn; [by left|]. right. exists (optType v). split; [done|].
  by destruct (typeText numberText (optType v)).
Qed.

Lemma truthy_cons d now evts :
  truthy JSON_parse ((d, now) :: evts) =
  truthy JSON_parse [(d, now)] ++ truthy JSON_parse evts.
Proof.
  change ((d, now) :: evts) with ([(d, now)] ++ evts).
  unfold truthy. by rewrite omap_app.
Qed.

Lemma dispatchBroken_from evts events :
  (length events ≤ 5)%nat →
  dispatchBroken JSON_parse numberText evts events =
  if forallb (λ e, converts numberText e.1) (truthy JSON_parse evts)
  then Normal (take 5 (reverse (map (labelOf numberText) (truthy JSON_parse evts))
                       ++ events))
  else Throw TypeError.
Proof.
  revert events. induction evts as [|[d now] evts IH]; intros events Hl.
  - cbn. by rewrite take_ge.
  - cbn [dispatchBroken]. rewrite truthy_cons.
    destruct (BrokenWidget_handler_cases d now events) as [[-> ->]|(t & -> & ->)].
    + cbn [mbind Completion_bind app]. by apply IH.
    + cbn [app forallb map fst]. unfold converts at 1, labelOf at 1. cbn [fst snd].
      destruct (typeText numberText t) as [s|e] eqn:Ht.
      * cbn [mbind Completion_bind andb]. rewrite IH by (rewrite length_take; lia).
        destruct (forallb _ _); [|done].
        rewrite take_app_take by done.
        by rewrite reverse_cons, <- app_assoc.
      * cbn [mbind Completion_bind andb].
        assert (e = TypeError) as ->; [|done].
        unfold typeText in Ht. destruct t as [v|]; [|done].
        destruct (toText numberText v); congruence.
Qed.

(** X22.  [BrokenWidget] checks no [type] and keeps at most five
    entries.  The label of an entry is built from [data.type] in a
    template literal: as long as the [type] of every record that parses
    to something truthy converts to a string, the widget shows the newest
    five of these records, whatever they are; if one does not convert,
    the render throws a [TypeError].  A [type] that is absent, [null], a
    boolean, a number or a string always converts; an object converts
    exactly when it has no own property [toString]. *)
Theorem broken_widget_shows_newest_five evts :
  dispatchBroken JSON_parse numberText evts [] =
  (if forallb (λ e, converts numberText e.1) (truthy JSON_parse evts)
   then Normal (take 5 (reverse (map (labelOf numberText) (truthy JSON_parse evts))))
   else Throw TypeError) ∧
  (length (take 5 (reverse (map (labelOf numberText) (truthy JSON_parse evts)))) ≤ 5)%nat ∧
  converts numberText None = true ∧
  converts numberText (Some JNull) = true ∧
  (∀ b, converts numberText (Some (JBool b)) = true) ∧
  (∀ q, converts numberText (Some (JNumber q)) = true) ∧
  (∀ s, converts numberText (Some (JString s)) = true) ∧
  (∀ fields, converts numberText (Some (JObject fields)) =
             bool_decide (field "toString" fields = None)).
Proof.
  split.
  { rewrite dispatchBroken_from by (cbn; lia). by rewrite app_nil_r. }
  split; [rewrite length_take; lia|].
  repeat split; try done.
  intros fields. unfold converts, typeText. cbn.
  by destruct (field "toString" fields).
Qed.

End WithRuntime.

End DisplayFacts.

(** ** Facts about records on their way to the widgets *)

Module EndToEndFacts.
Import Consumer ConsumerFacts Display EndToEnd.

Local Open Scope Z_scope.

Section Pipeline.

Variable Number_ : string → Js.Number.
Variable JSON_parse : string → option Json.
Variable requestJson : Server.RequestDebug → Json.

Lemma payload_type cid d stamps :
  field "type" (("connectionId"%string, JString cid)
                :: dataFields requestJson d ++ stampFields stamps)
  = Some (JString (eventText (Stream.typeOf d))) ∧
  field "connectionId" (("connectionId"%string, JString cid)
                :: dataFields requestJson d ++ stampFields stamps)
  = Some (JString cid).
Proof. by destruct d. Qed.

Lemma payload_request cid d stamps r :
  Server.snapshotOf (Server.Record_ (Js.Finite 0) Server.connected cid d stamps)
  = Some r →
  field "request" (("connectionId"%string, JString cid)
                   :: dataFields requestJson d ++ stampFields stamps)
  = Some (requestJson r).
Proof. destruct d as [[n|] ? ?| |]; cbn; by intros [= ->]. Qed.

(** X23.  Every record the server writes on a stream is accepted by the
    widgets that listen for its event name, once [JSON.parse] gives back
    the payload that was serialised: a task or notification record is
    shown and counted by the tasks or notifications widget, never counted
    as an error; a "connected" record makes [ConnectionStatus] show the
    connection id of the stream and [BrowserDetails] show the snapshot
    that [buildRequestDebug] built. *)
Theorem stream_records_reach_their_widget
    cid now req es c f id ev cid' d stamps p text t :
  Server.run es (Server.accept Number_ cid now req) = Some c →
  f ∈ Server.written c →
  f = Server.Record_ id ev cid' d stamps →
  payloadOf requestJson f = Some p →
  JSON_parse text = Some p →
  (ev ≠ Server.connected →
   ∀ w, handler JSON_parse (eventText ev) text t w = Normal (shown p t w)) ∧
  (ev = Server.connected →
   (∀ st, onConnected JSON_parse text t st =
          Normal {| serverConnectionId := Some (JString cid);
                    lastEventAt := Some t |}) ∧
   (falsy (requestJson (Server.buildRequestDebug req)) = false →
    ∀ old, BrowserDetails_handler JSON_parse text old =
           Normal (Some (requestJson (Server.buildRequestDebug req))))).
Proof.
  intros Hrun Hin -> Hp Hparse.
  destruct (StreamFacts.FrameInv_run cid _ [] es _ _
              (StreamFacts.FrameInv_accept Number_ cid now req) Hrun)
    as [_ _ Hall Hsnap _ _ _].
  rewrite Forall_forall in Hall, Hsnap.
  specialize (Hsnap _ Hin). destruct (Hall _ Hin) as [-> ->].
  cbn in Hp. injection Hp as <-.
  destruct (payload_type cid d stamps) as [Ht Hc].
  split.
  - intros Hne w. rewrite handler_expected. unfold expected, wellFormed. cbn [fst snd].
    rewrite Hparse, Ht. by rewrite String.eqb_refl.
  - intros Hev. split.
    + intros st. unfold onConnected, safeJsonParse, JSON_parse_.
      rewrite Hparse. cbn [tryCatch mbind Completion_bind optType prop].
      rewrite Ht, Hc, Hev. done.
    + intros Htruthy old. unfold BrowserDetails_handler, safeJsonParse, JSON_parse_.
      rewrite Hparse. cbn [tryCatch mbind Completion_bind optType prop].
      rewrite Ht, Hev. cbn [eventText differs String.eqb Ascii.eqb Bool.eqb negb].
      assert (∃ r, Server.snapshotOf
                     (Server.Record_ (Js.Finite 0) Server.connected cid d stamps)
                   = Some r ∧ r = Server.buildRequestDebug req) as (r & Hr & ->).
      { destruct d as [n c0 r| |]; try done. exists r. split; [done|].
        by apply Hsnap. }
      rewrite (payload_request cid d stamps _ Hr). by rewrite Htruthy.
Qed.

End Pipeline.

Lemma stream_records_reach_their_widget_witness :
  Server.run [Server.TimerFired (Server.sampleDraw true) (Server.sampleStamps 4000)]
    Server.acceptedNoResume
  = Some (Server.fireAll
            [Server.TimerFired (Server.sampleDraw true) (Server.sampleStamps 4000)]
            Server.acceptedNoResume) ∧
  TasksWidget_handler (parseAs sampleTaskPayload) "payload" 5000 emptyWidget =
  Normal (shown sampleTaskPayload 5000 emptyWidget).
Proof.
  split; [vm_compute; reflexivity|].
  assert (Server.run [Server.TimerFired (Server.sampleDraw true)
                        (Server.sampleStamps 4000)] Server.acceptedNoResume
          = Some (Server.fireAll
                    [Server.TimerFired (Server.sampleDraw true)
                       (Server.sampleStamps 4000)] Server.acceptedNoResume))
    as Hrun by (vm_compute; reflexivity).
  refine (proj1 (stream_records_reach_their_widget Server.digitsNumber
            (parseAs sampleTaskPayload) emptySnapshot _ _ _ _ _ sampleTask
            _ _ _ _ _ sampleTaskPayload "payload" 5000 Hrun _ eq_refl _ _) _ emptyWidget).
  - vm_compute. apply list_elem_of_lookup_2 with 3%nat. reflexivity.
  - vm_compute. reflexivity.
  - vm_compute. reflexivity.
  - discriminate.
Defined.

End EndToEndFacts.
